(** * AutoDraw: the 2D DXF viewport engine (components/ThreeDxfViewer.tsx)

    A shallow embedding of the interactive canvas viewer: the bounds
    calculator and fit transform, the screen/world coordinate maps, the
    hit tester, entity ingestion, the pointer / keyboard handlers that
    maintain the selection and move entities, and the frame drawn on
    the canvas; and of the text replacement of the editor
    (components/DxfEditor.tsx).

    JavaScript numbers are modelled as exact rationals extended with
    [Infinity], [-Infinity] and [NaN]: rounding is not modelled and the
    two zeros of IEEE-754 are one value (a division by zero of a
    positive number is [Infinity]). *)

From Stdlib Require Import Reals Qreals Lra.
From Stdlib Require Import QArith Qabs Qround Lqa.
From Stdlib Require Import Bool List String Ascii Permutation DecimalString.
From Stdlib Require Import Znat Lia.
Import ListNotations.

Open Scope Q_scope.

(* ================================================================== *)
(** ** JavaScript numbers *)
(* ================================================================== *)

Inductive num : Type :=
| Fin (q : Q)
| PInf
| NInf
| NaN.

Declare Scope num_scope.
Delimit Scope num_scope with num.
Bind Scope num_scope with num.

Definition Qltb (a b : Q) : bool := negb (Qle_bool b a).

(** The infinity a non-zero finite operand selects by its sign, [NaN]
    for zero: [c] is the comparison of the operand with 0. *)
Definition inf_of_sign (c : comparison) : num :=
  match c with
  | Gt => PInf
  | Lt => NInf
  | Eq => NaN
  end.

Definition nneg (a : num) : num :=
  match a with
  | Fin x => Fin (- x)
  | PInf => NInf
  | NInf => PInf
  | NaN => NaN
  end.

Definition nadd (a b : num) : num :=
  match a, b with
  | NaN, _ | _, NaN => NaN
  | Fin x, Fin y => Fin (x + y)
  | PInf, NInf | NInf, PInf => NaN
  | PInf, _ | _, PInf => PInf
  | NInf, _ | _, NInf => NInf
  end.

Definition nsub (a b : num) : num := nadd a (nneg b).

Definition nmul (a b : num) : num :=
  match a, b with
  | NaN, _ | _, NaN => NaN
  | Fin x, Fin y => Fin (x * y)
  | Fin x, PInf | PInf, Fin x => inf_of_sign (x ?= 0)
  | Fin x, NInf | NInf, Fin x => inf_of_sign (0 ?= x)
  | PInf, PInf | NInf, NInf => PInf
  | PInf, NInf | NInf, PInf => NInf
  end.

Definition ndiv (a b : num) : num :=
  match a, b with
  | NaN, _ | _, NaN => NaN
  | Fin x, Fin y =>
      if Qeq_bool y 0 then inf_of_sign (x ?= 0) else Fin (x / y)
  | Fin _, PInf | Fin _, NInf => Fin 0
  | PInf, Fin y => if Qltb y 0 then NInf else PInf
  | NInf, Fin y => if Qltb y 0 then PInf else NInf
  | PInf, PInf | PInf, NInf | NInf, PInf | NInf, NInf => NaN
  end.

(** Comparisons: every comparison with [NaN] is false. *)
Definition nlt (a b : num) : bool :=
  match a, b with
  | Fin x, Fin y => Qltb x y
  | NInf, Fin _ | NInf, PInf | Fin _, PInf => true
  | _, _ => false
  end.

Definition nle (a b : num) : bool :=
  match a, b with
  | Fin x, Fin y => Qle_bool x y
  | NaN, _ | _, NaN => false
  | NInf, _ | _, PInf => true
  | _, _ => false
  end.

Definition ngt (a b : num) : bool := nlt b a.
Definition nge (a b : num) : bool := nle b a.

(** [a === b] on numbers. *)
Definition nseq (a b : num) : bool :=
  match a, b with
  | Fin x, Fin y => Qeq_bool x y
  | PInf, PInf | NInf, NInf => true
  | _, _ => false
  end.

(** [Math.min] and [Math.max]: [NaN] as soon as an argument is. *)
Definition nmin (a b : num) : num :=
  match a, b with
  | NaN, _ | _, NaN => NaN
  | _, _ => if nle a b then a else b
  end.

Definition nmax (a b : num) : num :=
  match a, b with
  | NaN, _ | _, NaN => NaN
  | _, _ => if nle a b then b else a
  end.

Definition nmin3 (a b c : num) : num := nmin (nmin a b) c.
Definition nmax3 (a b c : num) : num := nmax (nmax a b) c.

(** [Math.abs]. *)
Definition nabs (a : num) : num :=
  match a with
  | Fin x => Fin (Qabs x)
  | PInf | NInf => PInf
  | NaN => NaN
  end.

(** [v || 0]: zero and [NaN] are falsy. *)
Definition orZero (a : num) : num :=
  match a with
  | Fin x => if Qeq_bool x 0 then Fin 0 else a
  | NaN => Fin 0
  | _ => a
  end.

(** [Math.sqrt(s) < t], decided without leaving the rationals: for a finite
    non-negative [s] and a finite [t] the root is below [t] exactly when
    [t] is positive and [s < t*t] ([sqrt_lt_real] below relates this to
    the real square root). *)
Definition sqrt_lt (s t : num) : bool :=
  match s, t with
  | Fin a, Fin b => Qle_bool 0 a && Qltb 0 b && Qltb a (b * b)
  | Fin a, PInf => Qle_bool 0 a
  | _, _ => false
  end.

Infix "+" := nadd : num_scope.
Infix "-" := nsub : num_scope.
Infix "*" := nmul : num_scope.
Infix "/" := ndiv : num_scope.
Notation "- a" := (nneg a) : num_scope.
Infix "<?" := nlt (at level 70) : num_scope.
Infix "<=?" := nle (at level 70) : num_scope.
Infix ">?" := ngt (at level 70) : num_scope.
Infix ">=?" := nge (at level 70) : num_scope.

(** Numbers denote the same value. *)
Definition num_eq (a b : num) : Prop :=
  match a, b with
  | Fin x, Fin y => x == y
  | PInf, PInf | NInf, NInf | NaN, NaN => True
  | _, _ => False
  end.

Infix "=n=" := num_eq (at level 70).

Definition finite (a : num) : Prop :=
  match a with Fin _ => True | _ => False end.

(** A finite, strictly positive number. *)
Definition positive (a : num) : Prop :=
  match a with Fin x => 0 < x | _ => False end.

(* ================================================================== *)
(** ** Geometry and entities *)
(* ================================================================== *)

(** [{x: number, y: number}] *)
Record Point : Type := mkPoint { p_x : num; p_y : num }.

Definition point_eq (p q : Point) : Prop :=
  p_x p =n= p_x q /\ p_y p =n= p_y q.

Infix "=p=" := point_eq (at level 70).

(** [interface Entity].  The record is generic in the type of [id]: an
    entity of [dxf.entities] may lack one ([option string]), an entity of
    the viewer's state carries one ([string]).  A [vertices] array holds
    the two end points of a line. *)
Record EntityOf (I : Type) : Type := mkEntity {
  e_id : I;
  e_type : string;
  e_vertices : option (Point * Point);
  e_position : option Point;
  e_text : option string;
  e_selected : option bool
}.

Arguments mkEntity {I}.
Arguments e_id {I}.
Arguments e_type {I}.
Arguments e_vertices {I}.
Arguments e_position {I}.
Arguments e_text {I}.
Arguments e_selected {I}.

Definition RawEntity : Type := EntityOf (option string).
Definition Entity : Type := EntityOf string.

(** [{ ...entity, id: i }] *)
Definition withId {I J : Type} (e : EntityOf I) (i : J) : EntityOf J :=
  mkEntity i (e_type e) (e_vertices e) (e_position e) (e_text e) (e_selected e).

(** An entity of the state seen again as an entity of a [dxf] object. *)
Definition toRaw (e : Entity) : RawEntity := withId e (Some (e_id e)).

Definition isLINE {I} (e : EntityOf I) : bool := String.eqb (e_type e) "LINE".
Definition isTEXT {I} (e : EntityOf I) : bool := String.eqb (e_type e) "TEXT".

(** [{ minX, minY, maxX, maxY }] *)
Record Bounds : Type := mkBounds {
  minX : num; minY : num; maxX : num; maxY : num
}.

(** [{ x, y, width, height }], the selection box in screen pixels. *)
Record Box : Type := mkBox {
  b_x : num; b_y : num; b_width : num; b_height : num
}.

(* ================================================================== *)
(** ** calculateBounds and the fit transform *)
(* ================================================================== *)

Definition boundsStep (acc : Bounds) (entity : Entity) : Bounds :=
  let acc1 :=
    match isLINE entity, e_vertices entity with
    | true, Some (v0, v1) =>
        let x1 := orZero (p_x v0) in
        let y1 := orZero (p_y v0) in
        let x2 := orZero (p_x v1) in
        let y2 := orZero (p_y v1) in
        mkBounds (nmin3 (minX acc) x1 x2) (nmin3 (minY acc) y1 y2)
                 (nmax3 (maxX acc) x1 x2) (nmax3 (maxY acc) y1 y2)
    | _, _ => acc
    end in
  match isTEXT entity, e_position entity with
  | true, Some p =>
      let x := orZero (p_x p) in
      let y := orZero (p_y p) in
      mkBounds (nmin (minX acc1) x) (nmin (minY acc1) y)
               (nmax (maxX acc1) x) (nmax (maxY acc1) y)
  | _, _ => acc1
  end.

Definition calculateBounds (entities : list Entity) : Bounds :=
  match entities with
  | [] => mkBounds (Fin (-10)) (Fin (-10)) (Fin 10) (Fin 10)
  | _ =>
      let b := fold_left boundsStep entities (mkBounds PInf PInf NInf NInf) in
      let padding :=
        (nmax (maxX b - minX b) (maxY b - minY b) * Fin (1 # 10))%num in
      mkBounds (minX b - padding) (minY b - padding)
               (maxX b + padding) (maxY b + padding)
  end.

(** The body of the fit effect: the scale and the pan that frame the
    bounds of [entities] in a [width] x [height] canvas. *)
Definition fitTransform (width height : num) (entities : list Entity)
  : num * Point :=
  let bounds := calculateBounds entities in
  let boundWidth := (maxX bounds - minX bounds)%num in
  let boundHeight := (maxY bounds - minY bounds)%num in
  let scaleX := (width / boundWidth)%num in
  let scaleY := (height / boundHeight)%num in
  let newScale := (nmin scaleX scaleY * Fin (9 # 10))%num in
  let centerX :=
    (width / Fin 2 - (minX bounds + boundWidth / Fin 2) * newScale)%num in
  let centerY :=
    (height / Fin 2 + (minY bounds + boundHeight / Fin 2) * newScale)%num in
  (newScale, mkPoint centerX centerY).

(** The divisors of the two divisions of [fitTransform]. *)
Definition fitDivisors (entities : list Entity) : num * num :=
  let bounds := calculateBounds entities in
  ((maxX bounds - minX bounds)%num, (maxY bounds - minY bounds)%num).

(* ================================================================== *)
(** ** Coordinate transform *)
(* ================================================================== *)

(** The canvas position [drawLine] and [drawText] compute for a world
    point: [(p[0] * scale + offsetX, -p[1] * scale + offsetY)]. *)
Definition worldToScreen (scale : num) (pan : Point) (p : Point) : Point :=
  mkPoint (p_x p * scale + p_x pan)%num (- p_y p * scale + p_y pan)%num.

Definition screenToWorld (scale : num) (pan : Point) (x y : num) : Point :=
  mkPoint ((x - p_x pan) / scale)%num (- ((y - p_y pan) / scale))%num.

(* ================================================================== *)
(** ** Hit testing *)
(* ================================================================== *)

Definition isPointNearLine (point lineStart lineEnd : Point) (threshold : num)
  : bool :=
  let A := (p_x point - p_x lineStart)%num in
  let B := (p_y point - p_y lineStart)%num in
  let C := (p_x lineEnd - p_x lineStart)%num in
  let D := (p_y lineEnd - p_y lineStart)%num in
  let dot := (A * C + B * D)%num in
  let lenSq := (C * C + D * D)%num in
  let param := if negb (nseq lenSq (Fin 0)) then (dot / lenSq)%num
               else Fin (-1) in
  let '(xx, yy) :=
    if (param <? Fin 0)%num then (p_x lineStart, p_y lineStart)
    else if (param >? Fin 1)%num then (p_x lineEnd, p_y lineEnd)
    else ((p_x lineStart + param * C)%num, (p_y lineStart + param * D)%num) in
  let dx := (p_x point - xx)%num in
  let dy := (p_y point - yy)%num in
  sqrt_lt (dx * dx + dy * dy)%num threshold.

(** [entity.text || ''] *)
Definition textOf {I} (e : EntityOf I) : string :=
  match e_text e with
  | Some s => s
  | None => EmptyString
  end.

Definition numOfNat (n : nat) : num := Fin (inject_Z (Z.of_nat n)).

(** The test of the [TEXT] branch of [findEntityAtPosition]. *)
Definition textHit (scale : num) (worldPos : Point) (entity : Entity)
                   (pos : Point) : bool :=
  let textX := orZero (p_x pos) in
  let textY := orZero (p_y pos) in
  let textLen :=
    (numOfNat (String.length (textOf entity)) * Fin 8 / scale)%num in
  (p_x worldPos >=? textX - Fin 2 / scale)%num &&
  (p_x worldPos <=? textX + textLen + Fin 2 / scale)%num &&
  (p_y worldPos >=? textY - Fin 14 / scale)%num &&
  (p_y worldPos <=? textY + Fin 2 / scale)%num.

(** The test of the [LINE] branch of [findEntityAtPosition]. *)
Definition lineHit (scale : num) (worldPos : Point) (v0 v1 : Point) : bool :=
  let selectionThreshold := (Fin 10 / scale)%num in
  let start := mkPoint (orZero (p_x v0)) (orZero (p_y v0)) in
  let end_ := mkPoint (orZero (p_x v1)) (orZero (p_y v1)) in
  isPointNearLine worldPos start end_ selectionThreshold.

(** One turn of the loop of [findEntityAtPosition]: does [entity] lie at
    [worldPos]? *)
Definition entityHit (scale : num) (worldPos : Point) (entity : Entity)
  : bool :=
  match isLINE entity, e_vertices entity with
  | true, Some (v0, v1) => lineHit scale worldPos v0 v1
  | _, _ => false
  end
  ||
  match isTEXT entity, e_position entity with
  | true, Some pos => textHit scale worldPos entity pos
  | _, _ => false
  end.

Fixpoint firstHit (scale : num) (worldPos : Point) (entities : list Entity)
  : option string :=
  match entities with
  | [] => None
  | entity :: rest =>
      if entityHit scale worldPos entity then Some (e_id entity)
      else firstHit scale worldPos rest
  end.

Definition findEntityAtPosition (scale : num) (pan : Point)
                                (entities : list Entity) (x y : num)
  : option string :=
  let worldPos := screenToWorld scale pan x y in
  firstHit scale worldPos entities.

(* ================================================================== *)
(** ** Ingestion *)
(* ================================================================== *)

(** A draw of [Math.random()], a number of [[0, 1)], given by the digits
    of its expansion in base 36 after the point; the draw [0] has none. *)
Definition Rand : Type := string.

(** [r.toString(36)] for a draw [r]. *)
Definition toString36 (r : Rand) : string :=
  match r with
  | EmptyString => "0"
  | _ => "0." ++ r
  end.

(** [Math.random().toString(36).substring(2, 9)] *)
Definition generateId (r : Rand) : string :=
  String.substring 2 7 (toString36 r).

(** [!entity.id] is false: the id is present and not the empty string. *)
Definition truthyId (i : option string) : option string :=
  match i with
  | Some s => if String.eqb s "" then None else Some s
  | None => None
  end.

(** [dxf.entities.map(entity => !entity.id ? {...entity, id: generateId()}
    : entity)].  The draws come from [rnd], read from position [n] on;
    the position after the last draw is returned with the list. *)
Fixpoint ingestFrom (rnd : nat -> Rand) (n : nat) (raw : list RawEntity)
  : list Entity * nat :=
  match raw with
  | [] => ([], n)
  | entity :: rest =>
      match truthyId (e_id entity) with
      | None =>
          let fresh := withId entity (generateId (rnd n)) in
          let '(es, n') := ingestFrom rnd (S n) rest in
          (fresh :: es, n')
      | Some i =>
          let '(es, n') := ingestFrom rnd n rest in
          (withId entity i :: es, n')
      end
  end.

Definition ingest (rnd : nat -> Rand) (raw : list RawEntity) : list Entity :=
  fst (ingestFrom rnd 0 raw).

(** The ids of a list of entities, in list order. *)
Definition ids (entities : list Entity) : list string := map e_id entities.

(** [ids.includes(i)] *)
Definition includes (l : list string) (i : string) : bool :=
  existsb (String.eqb i) l.

(** [[...new Set(l)]]: the first occurrence of every element, in order. *)
Fixpoint uniqueFrom (seen l : list string) : list string :=
  match l with
  | [] => []
  | i :: rest =>
      if includes seen i then uniqueFrom seen rest
      else i :: uniqueFrom (i :: seen) rest
  end.

Definition unique (l : list string) : list string := uniqueFrom [] l.

(* ================================================================== *)
(** ** The viewer's state and its handlers *)
(* ================================================================== *)

Inductive Mode : Type := select | move.

(** The props of the component; [onDxfChange] records whether the
    optional callback was given. *)
Record Props : Type := mkProps {
  dxf : option (list RawEntity);
  width : num;
  height : num;
  onDxfChange : bool
}.

(** The [useState] cells of the component, and the entity lists handed
    to [onDxfChange] so far (latest first). *)
Record State : Type := mkState {
  scale : num;
  pan : Point;
  isDragging : bool;
  dragStart : Point;
  entities : list Entity;
  selectedEntityIds : list string;
  isMovingSelection : bool;
  selectionStart : option Point;
  selectionBox : option Box;
  mode : Mode;
  isShiftPressed : bool;
  reported : list (list Entity)
}.

Definition initialState : State :=
  mkState (Fin 1) (mkPoint (Fin 0) (Fin 0)) false (mkPoint (Fin 0) (Fin 0))
          [] [] false None None select false [].

Definition setScale (v : num) (s : State) : State :=
  mkState v (pan s) (isDragging s) (dragStart s) (entities s)
          (selectedEntityIds s) (isMovingSelection s) (selectionStart s)
          (selectionBox s) (mode s) (isShiftPressed s) (reported s).

Definition setPan (v : Point) (s : State) : State :=
  mkState (scale s) v (isDragging s) (dragStart s) (entities s)
          (selectedEntityIds s) (isMovingSelection s) (selectionStart s)
          (selectionBox s) (mode s) (isShiftPressed s) (reported s).

Definition setIsDragging (v : bool) (s : State) : State :=
  mkState (scale s) (pan s) v (dragStart s) (entities s)
          (selectedEntityIds s) (isMovingSelection s) (selectionStart s)
          (selectionBox s) (mode s) (isShiftPressed s) (reported s).

Definition setDragStart (v : Point) (s : State) : State :=
  mkState (scale s) (pan s) (isDragging s) v (entities s)
          (selectedEntityIds s) (isMovingSelection s) (selectionStart s)
          (selectionBox s) (mode s) (isShiftPressed s) (reported s).

Definition setEntities (v : list Entity) (s : State) : State :=
  mkState (scale s) (pan s) (isDragging s) (dragStart s) v
          (selectedEntityIds s) (isMovingSelection s) (selectionStart s)
          (selectionBox s) (mode s) (isShiftPressed s) (reported s).

Definition setSelectedEntityIds (v : list string) (s : State) : State :=
  mkState (scale s) (pan s) (isDragging s) (dragStart s) (entities s)
          v (isMovingSelection s) (selectionStart s)
          (selectionBox s) (mode s) (isShiftPressed s) (reported s).

Definition setIsMovingSelection (v : bool) (s : State) : State :=
  mkState (scale s) (pan s) (isDragging s) (dragStart s) (entities s)
          (selectedEntityIds s) v (selectionStart s)
          (selectionBox s) (mode s) (isShiftPressed s) (reported s).

Definition setSelectionStart (v : option Point) (s : State) : State :=
  mkState (scale s) (pan s) (isDragging s) (dragStart s) (entities s)
          (selectedEntityIds s) (isMovingSelection s) v
          (selectionBox s) (mode s) (isShiftPressed s) (reported s).

Definition setSelectionBox (v : option Box) (s : State) : State :=
  mkState (scale s) (pan s) (isDragging s) (dragStart s) (entities s)
          (selectedEntityIds s) (isMovingSelection s) (selectionStart s)
          v (mode s) (isShiftPressed s) (reported s).

Definition setMode (v : Mode) (s : State) : State :=
  mkState (scale s) (pan s) (isDragging s) (dragStart s) (entities s)
          (selectedEntityIds s) (isMovingSelection s) (selectionStart s)
          (selectionBox s) v (isShiftPressed s) (reported s).

Definition setIsShiftPressed (v : bool) (s : State) : State :=
  mkState (scale s) (pan s) (isDragging s) (dragStart s) (entities s)
          (selectedEntityIds s) (isMovingSelection s) (selectionStart s)
          (selectionBox s) (mode s) v (reported s).

(** [onDxfChange({ ...dxf, entities: v })] *)
Definition report (v : list Entity) (s : State) : State :=
  mkState (scale s) (pan s) (isDragging s) (dragStart s) (entities s)
          (selectedEntityIds s) (isMovingSelection s) (selectionStart s)
          (selectionBox s) (mode s) (isShiftPressed s) (v :: reported s).

(** *** Effects *)

(** "Extract entities from DXF and ensure they have IDs". *)
Definition effectIngest (rnd : nat -> Rand) (props : Props) (s : State)
  : State :=
  match dxf props with
  | None => s
  | Some raw => setEntities (ingest rnd raw) s
  end.

(** The effect of dependencies [[entities, width, height]] that fits the
    drawing to the canvas. *)
Definition effectFit (props : Props) (s : State) : State :=
  match entities s with
  | [] => s
  | _ =>
      let '(newScale, center) :=
        fitTransform (width props) (height props) (entities s) in
      setPan center (setScale newScale s)
  end.

(** "Update entities with selection state". *)
Definition markSelected (selected : list string) (entity : Entity) : Entity :=
  mkEntity (e_id entity) (e_type entity) (e_vertices entity)
           (e_position entity) (e_text entity)
           (Some (includes selected (e_id entity))).

Definition effectSelection (s : State) : State :=
  setEntities (map (markSelected (selectedEntityIds s)) (entities s)) s.

(** *** Keyboard *)

Definition handleKeyDown (props : Props) (key : string) (s : State) : State :=
  let s1 := if String.eqb key "Shift" then setIsShiftPressed true s else s in
  let s2 :=
    if String.eqb key "Delete" || String.eqb key "Backspace" then
      match selectedEntityIds s with
      | [] => s1
      | _ =>
          let newEntities :=
            filter (fun entity =>
                      negb (includes (selectedEntityIds s) (e_id entity)))
                   (entities s) in
          let s' := setSelectedEntityIds [] (setEntities newEntities s1) in
          if onDxfChange props then report newEntities s' else s'
      end
    else s1 in
  if String.eqb key "Escape" then
    setSelectionStart None (setSelectionBox None (setSelectedEntityIds [] s2))
  else s2.

Definition handleKeyUp (key : string) (s : State) : State :=
  if String.eqb key "Shift" then setIsShiftPressed false s else s.

(** *** Pointer *)

(** A mouse event, with the corner of the canvas' bounding rectangle
    ([getBoundingClientRect()]) at the time of the event. *)
Record MouseEvent : Type := mkMouse {
  clientX : num;
  clientY : num;
  button : Z;
  rectLeft : num;
  rectTop : num
}.

Definition handleMouseDown (e : MouseEvent) (s : State) : State :=
  let x := (clientX e - rectLeft e)%num in
  let y := (clientY e - rectTop e)%num in
  let entityId := findEntityAtPosition (scale s) (pan s) (entities s) x y in
  let onEntity :=
    match truthyId entityId with
    | Some i =>
        if includes (selectedEntityIds s) i || (button e =? 0)%Z
        then Some i else None
    | None => None
    end in
  let s1 :=
    match onEntity with
    | Some i =>
        if (button e =? 2)%Z then
          let s' := setMode move s in
          let s'' := if negb (includes (selectedEntityIds s) i)
                     then setSelectedEntityIds [i] s' else s' in
          setIsMovingSelection true s''
        else if includes (selectedEntityIds s) i then
          setIsMovingSelection true (setMode move s)
        else if negb (isShiftPressed s) then
          setSelectedEntityIds [i] s
        else
          setSelectedEntityIds (selectedEntityIds s ++ [i]) s
    | None =>
        if (button e =? 0)%Z then
          match mode s with
          | select =>
              let s' := setSelectionBox (Some (mkBox x y (Fin 0) (Fin 0)))
                          (setSelectionStart (Some (mkPoint x y)) s) in
              if negb (isShiftPressed s) then setSelectedEntityIds [] s'
              else s'
          | move => setIsDragging true s
          end
        else s
    end in
  setDragStart (mkPoint (clientX e) (clientY e)) s1.

(** The box spanned by the anchor [start] and the pointer at [(x, y)]. *)
Definition boxBetween (start : Point) (x y : num) : Box :=
  mkBox (nmin (p_x start) x) (nmin (p_y start) y)
        (nabs (x - p_x start)) (nabs (y - p_y start)).

(** The entity returned by the [map] of the move branch for a selected
    entity. *)
Definition translateEntity (dx dy : num) (entity : Entity) : Entity :=
  match isLINE entity, e_vertices entity with
  | true, Some (v0, v1) =>
      mkEntity (e_id entity) (e_type entity)
        (Some (mkPoint (orZero (p_x v0) + dx) (orZero (p_y v0) + dy),
               mkPoint (orZero (p_x v1) + dx) (orZero (p_y v1) + dy)))
        (e_position entity) (e_text entity) (e_selected entity)
  | _, _ =>
      match isTEXT entity, e_position entity with
      | true, Some p =>
          mkEntity (e_id entity) (e_type entity) (e_vertices entity)
            (Some (mkPoint (orZero (p_x p) + dx) (orZero (p_y p) + dy)))
            (e_text entity) (e_selected entity)
      | _, _ => entity
      end
  end.

Definition moveSelected (selected : list string) (dx dy : num)
                        (entity : Entity) : Entity :=
  if negb (includes selected (e_id entity)) then entity
  else translateEntity dx dy entity.

Definition nonEmpty {A} (l : list A) : bool :=
  match l with [] => false | _ => true end.

Definition handleMouseMove (e : MouseEvent) (s : State) : State :=
  let x := (clientX e - rectLeft e)%num in
  let y := (clientY e - rectTop e)%num in
  match selectionStart s, mode s with
  | Some start, select => setSelectionBox (Some (boxBetween start x y)) s
  | _, _ =>
      if isMovingSelection s && nonEmpty (selectedEntityIds s) then
        let dx := ((clientX e - p_x (dragStart s)) / scale s)%num in
        let dy := ((clientY e - p_y (dragStart s)) / scale s * Fin (-1))%num in
        let updatedEntities :=
          map (moveSelected (selectedEntityIds s) dx dy) (entities s) in
        setDragStart (mkPoint (clientX e) (clientY e))
          (setEntities updatedEntities s)
      else if isDragging s then
        let dx := (clientX e - p_x (dragStart s))%num in
        let dy := (clientY e - p_y (dragStart s))%num in
        setDragStart (mkPoint (clientX e) (clientY e))
          (setPan (mkPoint (p_x (pan s) + dx) (p_y (pan s) + dy)) s)
      else s
  end.

(** [worldSelectionBox] of [handleMouseUp]. *)
Definition worldSelectionBox (scale : num) (pan : Point) (box : Box)
  : Bounds :=
  mkBounds ((b_x box - p_x pan) / scale)%num
           (- ((b_y box + b_height box - p_y pan) / scale))%num
           ((b_x box + b_width box - p_x pan) / scale)%num
           (- ((b_y box - p_y pan) / scale))%num.

Definition pointInBounds (w : Bounds) (x y : num) : bool :=
  (x >=? minX w)%num && (x <=? maxX w)%num &&
  (y >=? minY w)%num && (y <=? maxY w)%num.

(** The predicate of the [filter] that resolves a box selection. *)
Definition inSelectionBox (w : Bounds) (entity : Entity) : bool :=
  match isLINE entity, e_vertices entity with
  | true, Some (v0, v1) =>
      pointInBounds w (orZero (p_x v0)) (orZero (p_y v0)) ||
      pointInBounds w (orZero (p_x v1)) (orZero (p_y v1))
  | _, _ =>
      match isTEXT entity, e_position entity with
      | true, Some p => pointInBounds w (orZero (p_x p)) (orZero (p_y p))
      | _, _ => false
      end
  end.

Definition handleMouseUp (props : Props) (s : State) : State :=
  let s1 :=
    match selectionStart s, selectionBox s, mode s with
    | Some _, Some box, select =>
        let w := worldSelectionBox (scale s) (pan s) box in
        let selectedEntities := filter (inSelectionBox w) (entities s) in
        if isShiftPressed s then
          setSelectedEntityIds
            (unique (selectedEntityIds s ++ ids selectedEntities)) s
        else
          setSelectedEntityIds (ids selectedEntities) s
    | _, _, _ => s
    end in
  let s2 :=
    if isMovingSelection s && nonEmpty (selectedEntityIds s)
       && onDxfChange props
    then report (entities s) s1 else s1 in
  setSelectionBox None
    (setSelectionStart None
       (setIsMovingSelection false (setIsDragging false s2))).

Definition handleContextMenu (s : State) : State :=
  setMode (match mode s with select => move | move => select end) s.

(** The two updates of [handleWheel] for a zoom factor. *)
Definition zoomAt (zoomFactor mouseX mouseY : num) (s : State) : State :=
  setPan (mkPoint (mouseX - (mouseX - p_x (pan s)) * zoomFactor)
                  (mouseY - (mouseY - p_y (pan s)) * zoomFactor))
         (setScale (scale s * zoomFactor) s).

Definition handleWheel (deltaY : num) (e : MouseEvent) (s : State) : State :=
  let zoomFactor := if (deltaY >? Fin 0)%num then Fin (95 # 100)
                    else Fin (105 # 100) in
  let mouseX := (clientX e - rectLeft e)%num in
  let mouseY := (clientY e - rectTop e)%num in
  zoomAt zoomFactor mouseX mouseY s.

(** *** Events *)

(** What can happen to a mounted viewer: the events of the canvas, of the
    window and of the three buttons, and the runs of the two effects that
    follow a change of [selectedEntityIds] or of [entities]. *)
Inductive Event : Type :=
| MouseDown (e : MouseEvent)
| MouseMove (e : MouseEvent)
| MouseUp (e : MouseEvent)
| MouseLeave (e : MouseEvent)
| ContextMenu
| Wheel (deltaY : num) (e : MouseEvent)
| KeyDown (key : string)
| KeyUp (key : string)
| ClickSelect
| ClickMove
| ClickClearSelection
| RunEffectSelection
| RunEffectFit.

Definition step (props : Props) (ev : Event) (s : State) : State :=
  match ev with
  | MouseDown e => handleMouseDown e s
  | MouseMove e => handleMouseMove e s
  | MouseUp _ | MouseLeave _ => handleMouseUp props s
  | ContextMenu => handleContextMenu s
  | Wheel deltaY e => handleWheel deltaY e s
  | KeyDown key => handleKeyDown props key s
  | KeyUp key => handleKeyUp key s
  | ClickSelect => setMode select s
  | ClickMove => setMode move s
  | ClickClearSelection => setSelectedEntityIds [] s
  | RunEffectSelection => effectSelection s
  | RunEffectFit => effectFit props s
  end.

Definition run (props : Props) (evs : list Event) (s : State) : State :=
  fold_left (fun s ev => step props ev s) evs s.

(** The state of a viewer mounted on [props], once the ingestion effect
    has run. *)
Definition mounted (rnd : nat -> Rand) (props : Props) : State :=
  effectIngest rnd props initialState.

(* ================================================================== *)
(** ** Rendering *)
(* ================================================================== *)

(** [Math.floor] *)
Definition nfloor (a : num) : num :=
  match a with
  | Fin x => Fin (inject_Z (Qfloor x))
  | _ => a
  end.

(** [a % b]: the remainder has the sign of [a]; it is [NaN] for an
    infinite [a] and for [b = 0], and [a] for an infinite [b]. *)
Definition nrem (a b : num) : num :=
  match a, b with
  | NaN, _ | _, NaN => NaN
  | PInf, _ | NInf, _ => NaN
  | Fin x, PInf | Fin x, NInf => Fin x
  | Fin x, Fin y =>
      if Qeq_bool y 0 then NaN
      else let q := x / y in
           Fin (x - y * inject_Z (Z.quot (Qnum q) (Zpos (Qden q))))
  end.

(** The calls and assignments a frame makes on the 2D context, in
    order. *)
Inductive CanvasOp : Type :=
| SetFillStyle (color : string)
| SetStrokeStyle (color : string)
| SetLineWidth (w : num)
| SetFont (font : string)
| SetLineCap (v : string)
| SetLineJoin (v : string)
| SetLineDash (segments : list num)
| BeginPath
| MoveTo (x y : num)
| LineTo (x y : num)
| Arc (x y radius startAngle endAngle : num)
| Stroke
| Fill
| FillRect (x y w h : num)
| StrokeRect (x y w h : num)
| FillText (text : string) (x y : num).

(** [for (let x = 0; x < limit; x += step) body(x)], from [x] on: the
    operations of the turns in order, [None] when [fuel] turns do not
    reach the end of the loop. *)
Fixpoint forLoop (fuel : nat) (limit step : num)
                 (body : num -> list CanvasOp) (x : num)
  : option (list CanvasOp) :=
  if (x <? limit)%num then
    match fuel with
    | O => None
    | S fuel' =>
        match forLoop fuel' limit step body (x + step)%num with
        | Some rest => Some (body x ++ rest)
        | None => None
        end
    end
  else Some [].

(** [entity.selected] is truthy. *)
Definition isSelected (entity : Entity) : bool :=
  match e_selected entity with
  | Some true => true
  | _ => false
  end.

Section Canvas.

(** [Math.PI], and the width [ctx.measureText(text)] reports under a
    font. *)
Variable PI : num.
Variable measureText : string -> string -> num.

Definition drawLine (start end_ : num * num) (color : string)
                    (scale offsetX offsetY lineWidth : num) (selected : bool)
  : list CanvasOp :=
  [BeginPath;
   SetStrokeStyle (if selected then "#00AAFF" else color);
   SetLineWidth (if selected then lineWidth * Fin 2 else lineWidth)%num;
   MoveTo (fst start * scale + offsetX)%num (- snd start * scale + offsetY)%num;
   LineTo (fst end_ * scale + offsetX)%num (- snd end_ * scale + offsetY)%num;
   Stroke]
  ++
  (if selected then
     [SetFillStyle "#00AAFF";
      BeginPath;
      Arc (fst start * scale + offsetX)%num (- snd start * scale + offsetY)%num
          (Fin 5) (Fin 0) (PI * Fin 2)%num;
      Fill;
      BeginPath;
      Arc (fst end_ * scale + offsetX)%num (- snd end_ * scale + offsetY)%num
          (Fin 5) (Fin 0) (PI * Fin 2)%num;
      Fill]
   else []).

Definition drawText (text : string) (position : num * num) (color : string)
                    (scale offsetX offsetY : num) (selected : bool)
  : list CanvasOp :=
  let font := (if selected then "bold 12px Arial" else "12px Arial")%string in
  [SetFillStyle (if selected then "#00AAFF" else color);
   SetFont font;
   FillText text (fst position * scale + offsetX)%num
                 (- snd position * scale + offsetY)%num]
  ++
  (if selected then
     let height := Fin 14 in
     [SetStrokeStyle "#00AAFF";
      SetLineWidth (Fin 1);
      StrokeRect (fst position * scale + offsetX - Fin 2)%num
                 (- snd position * scale + offsetY - height + Fin 2)%num
                 (measureText font text + Fin 4)%num
                 (height + Fin 2)%num]
   else []).

(** The body of the two [forEach] of [renderCanvas]. *)
Definition drawEntity (scale : num) (pan : Point) (selected : bool)
                      (entity : Entity) : list CanvasOp :=
  (match isLINE entity, e_vertices entity with
   | true, Some (v0, v1) =>
       drawLine (orZero (p_x v0), orZero (p_y v0))
                (orZero (p_x v1), orZero (p_y v1))
                "#ffffff" scale (p_x pan) (p_y pan) (Fin (15 # 10)) selected
   | _, _ => []
   end)
  ++
  (match isTEXT entity, e_position entity with
   | true, Some p =>
       drawText (textOf entity) (orZero (p_x p), orZero (p_y p))
                "#ffffff" scale (p_x pan) (p_y pan) selected
   | _, _ => []
   end).

(** The status line: the mode, and the size of the selection when it is
    not empty. *)
Definition statusLine (s : State) : list CanvasOp :=
  let n := List.length (selectedEntityIds s) in
  [SetFillStyle "#ffffff";
   SetFont "14px Arial";
   FillText ("Mode: " ++ match mode s with
                         | select => "Select"
                         | move => "Move"
                         end)%string (Fin 10) (Fin 24)]
  ++
  (if nonEmpty (selectedEntityIds s) then
     [FillText ("Selected: " ++ NilEmpty.string_of_uint (Nat.to_uint n) ++ " "
                ++ (if Nat.eqb n 1 then "entity" else "entities"))%string
               (Fin 10) (Fin 44)]
   else []).

(** One frame.  [fuel] bounds the turns of each of the two loops that
    draw the grid. *)
Definition renderCanvas (fuel : nat) (props : Props) (s : State)
  : option (list CanvasOp) :=
  match entities s with
  | [] => Some []
  | _ =>
      let gridSize := Fin 10 in
      let gridScale := scale s in
      let step := (gridSize * gridScale)%num in
      let vertical :=
        forLoop fuel (width props) step
          (fun x =>
             [BeginPath;
              MoveTo (nfloor (x + nrem (p_x (pan s)) step) + Fin (1 # 2))%num (Fin 0);
              LineTo (nfloor (x + nrem (p_x (pan s)) step) + Fin (1 # 2))%num
                     (height props);
              Stroke])
          (Fin 0) in
      let horizontal :=
        forLoop fuel (height props) step
          (fun y =>
             [BeginPath;
              MoveTo (Fin 0) (nfloor (y + nrem (p_y (pan s)) step) + Fin (1 # 2))%num;
              LineTo (width props)
                     (nfloor (y + nrem (p_y (pan s)) step) + Fin (1 # 2))%num;
              Stroke])
          (Fin 0) in
      match vertical, horizontal with
      | Some vs, Some hs =>
          Some ([SetFillStyle "#1a1a1a";
                 FillRect (Fin 0) (Fin 0) (width props) (height props);
                 SetStrokeStyle "#333333";
                 SetLineWidth (Fin (1 # 2))]
                ++ vs ++ hs
                ++ [SetLineWidth (Fin (15 # 10));
                    SetLineCap "round";
                    SetLineJoin "round"]
                ++ flat_map (drawEntity (scale s) (pan s) false)
                     (filter (fun entity => negb (isSelected entity))
                             (entities s))
                ++ flat_map (drawEntity (scale s) (pan s) true)
                     (filter isSelected (entities s))
                ++ match selectionBox s with
                   | Some box =>
                       [SetStrokeStyle "#00AAFF";
                        SetLineWidth (Fin 1);
                        SetLineDash [Fin 5; Fin 3];
                        StrokeRect (b_x box) (b_y box)
                                   (b_width box) (b_height box);
                        SetLineDash []]
                   | None => []
                   end
                ++ statusLine s)
      | _, _ => None
      end
  end.

End Canvas.

(* ================================================================== *)
(** ** Text replacement (components/DxfEditor.tsx) *)
(* ================================================================== *)

(** [s.includes(pat)] *)
Definition strIncludes (s pat : string) : bool :=
  match String.index 0 pat s with
  | Some _ => true
  | None => false
  end.

(** The expansion of the replacement text of [String.prototype.replace]
    for a pattern that is a string (no captures): ["$$"] stands for a
    dollar, ["$&"] for the matched text, ["$`"] for the text before the
    match and ["$'"] for the text after it; every other character,
    a dollar included, stands for itself. *)
Fixpoint getSubstitution (matched before after template : string) : string :=
  match template with
  | EmptyString => EmptyString
  | String a rest =>
      if Ascii.eqb a "$" then
        match rest with
        | EmptyString => "$"%string
        | String c rest' =>
            if Ascii.eqb c "$" then
              String "$" (getSubstitution matched before after rest')
            else if Ascii.eqb c "&" then
              (matched ++ getSubstitution matched before after rest')%string
            else if Ascii.eqb c "`" then
              (before ++ getSubstitution matched before after rest')%string
            else if Ascii.eqb c "'" then
              (after ++ getSubstitution matched before after rest')%string
            else String "$" (getSubstitution matched before after rest)
        end
      else String a (getSubstitution matched before after rest)
  end.

(** [s.replace(pat, replacement)] for strings [pat] and [replacement]:
    the first occurrence of [pat] is replaced. *)
Definition strReplace (s pat replacement : string) : string :=
  match String.index 0 pat s with
  | None => s
  | Some pos =>
      let tailPos := (pos + String.length pat)%nat in
      let before := String.substring 0 pos s in
      let after :=
        String.substring tailPos (String.length s - tailPos)%nat s in
      (before ++ getSubstitution pat before after replacement ++ after)%string
  end.

(** An entity of the parsed DXF: its type, its text when it has one,
    and its other fields. *)
Record ParsedEntity (A : Type) : Type := mkParsed {
  pe_type : string;
  pe_text : option string;
  pe_other : A
}.
Arguments mkParsed {A}.
Arguments pe_type {A}.
Arguments pe_text {A}.
Arguments pe_other {A}.

(** The parsed DXF: its entities when it has some, and its other
    fields (header, tables). *)
Record ParsedDxf (A H : Type) : Type := mkDxf {
  dxf_entities : option (list (ParsedEntity A));
  dxf_other : H
}.
Arguments mkDxf {A H}.
Arguments dxf_entities {A H}.
Arguments dxf_other {A H}.

(** [entity.type === 'TEXT' || entity.type === 'MTEXT'] *)
Definition isTextual {A} (entity : ParsedEntity A) : bool :=
  String.eqb (pe_type entity) "TEXT" || String.eqb (pe_type entity) "MTEXT".

(** The function [replaceText] maps over the entities. *)
Definition replaceInEntity {A} (placeholder newText : string)
                           (entity : ParsedEntity A) : ParsedEntity A :=
  match pe_text entity with
  | Some text =>
      if isTextual entity && negb (String.eqb text "")
         && strIncludes text placeholder
      then mkParsed (pe_type entity)
                    (Some (strReplace text placeholder newText))
                    (pe_other entity)
      else entity
  | None => entity
  end.

(** The value [replaceText] gives the state [parsedDxf], for the
    [placeholder] and the [newText] of the form.  The copy through JSON
    is the identity on parsed data; the DXF file written from the result
    is not modelled. *)
Definition replaceText {A H} (placeholder newText : string)
                       (parsedDxf : option (ParsedDxf A H))
  : option (ParsedDxf A H) :=
  match parsedDxf with
  | None => None
  | Some dxf =>
      if String.eqb placeholder "" then parsedDxf
      else
        Some (mkDxf (option_map (map (replaceInEntity placeholder newText))
                                (dxf_entities dxf))
                    (dxf_other dxf))
  end.

(* ================================================================== *)
(** ** Notions used to state the properties *)
(* ================================================================== *)

Definition finitePoint (p : Point) : Prop := finite (p_x p) /\ finite (p_y p).

(** The point of rational coordinates [(x, y)]. *)
Definition qpoint (x y : Q) : Point := mkPoint (Fin x) (Fin y).

Definition finiteMouse (e : MouseEvent) : Prop :=
  finite (clientX e) /\ finite (clientY e) /\
  finite (rectLeft e) /\ finite (rectTop e).

(** Every selected id is the id of an entity of the store. *)
Definition selectionValid (s : State) : Prop :=
  incl (selectedEntityIds s) (ids (entities s)).

(** [p] translated by the vector [d]. *)
Definition shift (d p : Point) : Point :=
  mkPoint (p_x p + p_x d)%num (p_y p + p_y d)%num.

(** [entity'] is [entity] with its coordinate fields translated by [d]:
    the two end points of a [LINE], the position of a [TEXT]; the other
    fields are those of [entity]. *)
Definition translatedBy (d : Point) (entity entity' : Entity) : Prop :=
  e_id entity' = e_id entity /\
  e_type entity' = e_type entity /\
  e_text entity' = e_text entity /\
  e_selected entity' = e_selected entity /\
  (isLINE entity = true ->
   forall a b, e_vertices entity = Some (a, b) ->
     finitePoint a -> finitePoint b ->
     exists a' b', e_vertices entity' = Some (a', b') /\
                   a' =p= shift d a /\ b' =p= shift d b) /\
  (isTEXT entity = true ->
   forall p, e_position entity = Some p -> finitePoint p ->
     exists p', e_position entity' = Some p' /\ p' =p= shift d p).

(** What a pointer move does to one entity of the store. *)
Definition movedBy (selected : list string) (d : Point)
                   (entity entity' : Entity) : Prop :=
  if includes selected (e_id entity) then translatedBy d entity entity'
  else entity' = entity.

(** The point of parameter [t], for [0 <= t <= 1], of the segment from
    [(sx, sy)] to [(ex, ey)]. *)
Definition segmentPoint (sx sy ex ey t : Q) : Q * Q :=
  (sx + t * (ex - sx), sy + t * (ey - sy)).

(** The square of the distance from [(px, py)] to a point [q]. *)
Definition distSq (px py : Q) (q : Q * Q) : Q :=
  (px - fst q) * (px - fst q) + (py - snd q) * (py - snd q).

(** The parameter of the projection of [(px, py)] on the line through
    [(sx, sy)] and [(ex, ey)], clamped to the segment; 0 for a segment
    of length zero. *)
Definition nearestParam (px py sx sy ex ey : Q) : Q :=
  let dot := (px - sx) * (ex - sx) + (py - sy) * (ey - sy) in
  let lenSq := (ex - sx) * (ex - sx) + (ey - sy) * (ey - sy) in
  if Qeq_bool lenSq 0 then 0
  else if Qltb (dot / lenSq) 0 then 0
  else if Qltb 1 (dot / lenSq) then 1
  else dot / lenSq.

(** Every point of the segment is at distance [d] or more from the point
    [(px, py)]. *)
Definition segmentAtLeast (px py sx sy ex ey d : Q) : Prop :=
  0 <= d /\
  forall t, 0 <= t <= 1 ->
    d * d <= distSq px py (segmentPoint sx sy ex ey t).

(** The number of characters of the text of [entity]; its estimated
    width in pixels is 8 per character. *)
Definition textChars (entity : Entity) : Q :=
  inject_Z (Z.of_nat (String.length (textOf entity))).

(** The box of the specification, following its words: anchored at the
    position, extending rightward by the estimated width
    ([text.length * 8 / scale]) and upward, toward larger world Y, by the
    label height ([14 / scale]). *)
Definition specTextBox (scale : num) (worldPos : Point) (entity : Entity)
                       (pos : Point) : bool :=
  let width := (numOfNat (String.length (textOf entity)) * Fin 8 / scale)%num in
  let height := (Fin 14 / scale)%num in
  (p_x worldPos >=? p_x pos)%num &&
  (p_x worldPos <=? p_x pos + width)%num &&
  (p_y worldPos >=? p_y pos)%num &&
  (p_y worldPos <=? p_y pos + height)%num.


(** The number of entities of a [dxf] object without an id. *)
Fixpoint missing (raw : list RawEntity) : nat :=
  match raw with
  | [] => 0
  | entity :: rest =>
      match truthyId (e_id entity) with
      | Some _ => missing rest
      | None => S (missing rest)
      end
  end.


(** *** Notions for the further properties *)

(** The points of an entity that the bounds, the box selection and the
    move read: the two end points of a [LINE] with vertices, the
    position of a [TEXT] with one. *)
Definition entityPoints (entity : Entity) : list Point :=
  match isLINE entity, e_vertices entity with
  | true, Some (v0, v1) => [v0; v1]
  | _, _ =>
      match isTEXT entity, e_position entity with
      | true, Some p => [p]
      | _, _ => []
      end
  end.

(** The points of all the entities of a store. *)
Definition storePoints (es : list Entity) : list Point :=
  flat_map entityPoints es.

(** [p] lies in the rectangle [b], sides included. *)
Definition inBounds (b : Bounds) (p : Point) : Prop :=
  pointInBounds b (p_x p) (p_y p) = true.

(** The screen point [p] lies in the box [box], sides included. *)
Definition inBox (box : Box) (p : Point) : Prop :=
  ((b_x box <=? p_x p) && (p_x p <=? b_x box + b_width box) &&
   (b_y box <=? p_y p) && (p_y p <=? b_y box + b_height box))%num = true.

Definition finiteBox (box : Box) : Prop :=
  finite (b_x box) /\ finite (b_y box) /\
  finite (b_width box) /\ finite (b_height box).

(** The other mode. *)
Definition otherMode (m : Mode) : Mode :=
  match m with
  | select => move
  | move => select
  end.

(** [l] is [l'] with some of its elements removed. *)
Inductive Sublist {A : Type} : list A -> list A -> Prop :=
| Sublist_nil : Sublist [] []
| Sublist_skip (x : A) (l l' : list A) : Sublist l l' -> Sublist l (x :: l')
| Sublist_keep (x : A) (l l' : list A) :
    Sublist l l' -> Sublist (x :: l) (x :: l').

(** The bounds [calculateBounds] folds, at any moment of the fold over a
    store of finite points: each lower bound is [Infinity] or finite,
    each upper bound [-Infinity] or finite. *)
Definition foldedBounds (b : Bounds) : Prop :=
  (minX b = PInf \/ finite (minX b)) /\ (minY b = PInf \/ finite (minY b)) /\
  (maxX b = NInf \/ finite (maxX b)) /\ (maxY b = NInf \/ finite (maxY b)).

(** The bound [v] is still the [start] of the fold, or it is the
    coordinate [coord] of one of the points [P]. *)
Definition attained (v start : num) (coord : Point -> num)
                    (P : list Point) : Prop :=
  v = start \/ exists p, In p P /\ v =n= coord p.

(** Each bound of [b] is attained among the points [P]. *)
Definition attainedBounds (b : Bounds) (P : list Point) : Prop :=
  attained (minX b) PInf p_x P /\ attained (minY b) PInf p_y P /\
  attained (maxX b) NInf p_x P /\ attained (maxY b) NInf p_y P.

(** The canvas of width [w] and height [h] less a margin of a twentieth
    of its width on the left and on the right, and of a twentieth of its
    height at the top and at the bottom. *)
Definition fitFrame (w h : Q) : Box :=
  mkBox (Fin (w * (1 # 20))) (Fin (h * (1 # 20)))
        (Fin (w * (9 # 10))) (Fin (h * (9 # 10))).

(** The text holds a dollar sign. *)
Fixpoint hasDollar (s : string) : bool :=
  match s with
  | EmptyString => false
  | String a rest => Ascii.eqb a "$"%char || hasDollar rest
  end.



(** *** Sample data *)

(** A box selection anchored at the pixel (120, 80), at the scale 2. *)
Definition dragBoxState : State :=
  setSelectionStart (Some (qpoint 120 80))
    (setPan (qpoint 400 300) (setScale (Fin 2) initialState)).

(** Scenario C: one selected line from (0,0) to (10,0), the scale 2, the
    pointer moved from (100,100) to (110,100). *)
Definition scenarioC_line : Entity :=
  mkEntity "l1"%string "LINE"%string
           (Some (qpoint 0 0, qpoint 10 0)) None None (Some true).

Definition scenarioC_state : State :=
  setDragStart (qpoint 100 100)
    (setMode move
       (setIsMovingSelection true
          (setSelectedEntityIds ["l1"%string]
             (setEntities [scenarioC_line]
                (setScale (Fin 2) initialState))))).

Definition scenarioC_event : MouseEvent :=
  mkMouse (Fin 110) (Fin 100) 0 (Fin 0) (Fin 0).

(** The text "AB" at the origin. *)
Definition textAB : Entity :=
  mkEntity "t1"%string "TEXT"%string None (Some (qpoint 0 0))
           (Some "AB"%string) None.

(** A selection box of 20 pixels around the place where the text "AB"
    is drawn at the scale 2 and the pan (400, 300). *)
Definition boxOverText : State :=
  setSelectionBox (Some (mkBox (Fin 390) (Fin 290) (Fin 20) (Fin 20)))
    (setSelectionStart (Some (qpoint 390 290))
       (setPan (qpoint 400 300)
          (setScale (Fin 2) (setEntities [textAB] initialState)))).

(** The same box with Shift held and the text already selected. *)
Definition shiftBoxOverText : State :=
  setIsShiftPressed true (setSelectedEntityIds ["t1"%string] boxOverText).

(** A circle: an entity that is neither a line nor a text. *)
Definition circle : Entity :=
  mkEntity "c1"%string "CIRCLE"%string None None None None.

(** A value for [Math.PI] and a text measure of 7 pixels a character. *)
Definition samplePI : num := Fin (355 # 113).

Definition sampleMeasure (font text : string) : num :=
  Fin (inject_Z (Z.of_nat (String.length text)) * 7).

(** A text of the parsed DXF in which the placeholder NAME occurs
    twice. *)
Definition greeting : ParsedEntity unit :=
  mkParsed "TEXT"%string (Some "Dear NAME, NAME"%string) tt.

(** A line of length zero at (3, 4). *)
Definition zeroLengthLine : Entity :=
  mkEntity "l0"%string "LINE"%string
           (Some (qpoint 3 4, qpoint 3 4)) None None None.

(** A left click at the corner of the canvas, and a viewer mounted on
    the line [rawA] below, which passes through the origin. *)
Definition clickAtOrigin : MouseEvent :=
  mkMouse (Fin 0) (Fin 0) 0 (Fin 0) (Fin 0).

(** A raw line that comes with the id "a", and one without an id. *)
Definition rawA : RawEntity :=
  mkEntity (Some "a"%string) "LINE"%string
           (Some (qpoint 0 0, qpoint 1 1)) None None None.

Definition rawNoId : RawEntity :=
  mkEntity None "LINE"%string
           (Some (qpoint 0 0, qpoint 1 1)) None None None.

Definition clickProps : Props :=
  mkProps (Some [rawA]) (Fin 800) (Fin 600) false.

(* ================================================================== *)
(** ** Arithmetic on finite numbers *)
(* ================================================================== *)

Lemma Qltb_lt (a b : Q) : Qltb a b = true <-> a < b.
Proof.
  unfold Qltb. rewrite negb_true_iff. split; intro H.
  - apply Qnot_le_lt. intro Hle. apply Qle_bool_iff in Hle. congruence.
  - destruct (Qle_bool b a) eqn:E; [|reflexivity].
    apply Qle_bool_iff in E. exfalso. apply (Qlt_not_le _ _ H E).
Qed.

Lemma Qltb_ge (a b : Q) : Qltb a b = false <-> b <= a.
Proof.
  unfold Qltb. rewrite negb_false_iff. apply Qle_bool_iff.
Qed.

Lemma Qle_bool_gt (a b : Q) : Qle_bool a b = false <-> b < a.
Proof.
  rewrite <- Qltb_lt. unfold Qltb. rewrite negb_true_iff. reflexivity.
Qed.

Lemma Qeq_bool_false (a b : Q) : ~ a == b -> Qeq_bool a b = false.
Proof.
  intro H. destruct (Qeq_bool a b) eqn:E; [|reflexivity].
  apply Qeq_bool_iff in E. contradiction.
Qed.

Lemma ndiv_fin (a b : Q) : ~ b == 0 -> (Fin a / Fin b)%num = Fin (a / b).
Proof.
  intro H. simpl. rewrite (Qeq_bool_false _ _ H). reflexivity.
Qed.

Lemma ndiv_pos (a b : Q) : 0 < b -> (Fin a / Fin b)%num = Fin (a / b).
Proof.
  intro H. apply ndiv_fin. intro E. rewrite E in H. apply (Qlt_irrefl _ H).
Qed.

Lemma orZero_fin (a : Q) : exists a', orZero (Fin a) = Fin a' /\ a' == a.
Proof.
  simpl. destruct (Qeq_bool a 0) eqn:E.
  - exists 0. split; [reflexivity|]. apply Qeq_bool_iff in E. symmetry; exact E.
  - exists a. split; reflexivity.
Qed.

Lemma num_eq_refl (a : num) : a =n= a.
Proof. destruct a; simpl; auto. reflexivity. Qed.

Lemma num_eq_sym (a b : num) : a =n= b -> b =n= a.
Proof. destruct a, b; simpl; auto. intro H; symmetry; exact H. Qed.

Lemma num_eq_trans (a b c : num) : a =n= b -> b =n= c -> a =n= c.
Proof.
  destruct a, b, c; simpl; auto; try contradiction.
  intros H1 H2. rewrite H1. exact H2.
Qed.

Lemma Qdiv_pos (a b : Q) : 0 <= a -> 0 < b -> 0 <= a / b.
Proof.
  intros Ha Hb. unfold Qdiv. apply Qmult_le_0_compat; [exact Ha|].
  apply Qlt_le_weak. apply Qinv_lt_0_compat. exact Hb.
Qed.

Lemma Qdiv_le_mono (a b c : Q) : 0 < c -> a <= b -> a / c <= b / c.
Proof.
  intros Hc Hab. unfold Qdiv. apply Qmult_le_compat_r; [exact Hab|].
  apply Qlt_le_weak. apply Qinv_lt_0_compat. exact Hc.
Qed.

(** [sqrt_lt] on finite numbers is the comparison of the real square
    root. *)
Lemma sqrt_lt_real (a b : Q) :
  0 <= a ->
  sqrt_lt (Fin a) (Fin b) = true <-> (sqrt (Q2R a) < Q2R b)%R.
Proof.
  intro Ha. simpl.
  assert (HaR : (0 <= Q2R a)%R).
  { replace 0%R with (Q2R 0) by (unfold Q2R; simpl; Lra.lra).
    apply Qle_Rle. exact Ha. }
  rewrite !andb_true_iff, Qle_bool_iff, !Qltb_lt. split.
  - intros [[_ Hb] Hab].
    assert (HbR : (0 < Q2R b)%R).
    { replace 0%R with (Q2R 0) by (unfold Q2R; simpl; Lra.lra).
      apply Qlt_Rlt. exact Hb. }
    apply Qlt_Rlt in Hab. rewrite Q2R_mult in Hab.
    rewrite <- (sqrt_square (Q2R b)) by Lra.lra.
    apply sqrt_lt_1; try Lra.lra; apply Rmult_le_pos; Lra.lra.
  - intro H.
    assert (Hs := sqrt_pos (Q2R a)).
    assert (HbR : (0 < Q2R b)%R) by Lra.lra.
    split; [split; [exact Ha|]|].
    + apply Rlt_Qlt. replace (Q2R 0) with 0%R by (unfold Q2R; simpl; Lra.lra).
      exact HbR.
    + apply Rlt_Qlt. rewrite Q2R_mult.
      rewrite <- (sqrt_sqrt (Q2R a)) by exact HaR.
      apply Rmult_le_0_lt_compat; Lra.lra.
Qed.

(* ================================================================== *)
(** ** Coordinate transform: round trip and zoom *)
(* ================================================================== *)

Lemma finitePoint_qpoint (p : Point) :
  finitePoint p -> exists x y, p = qpoint x y.
Proof.
  destruct p as [[x| | |] [y| | |]]; unfold finitePoint; simpl;
    intros [H1 H2]; try contradiction.
  exists x, y. reflexivity.
Qed.

Lemma positive_fin (a : num) : positive a -> exists q, a = Fin q /\ 0 < q.
Proof.
  destruct a as [q| | |]; simpl; intro H; try contradiction.
  exists q. split; [reflexivity | exact H].
Qed.

(** Destructs the finite points and positive numbers of the context into
    rationals. *)
Ltac rationals :=
  repeat match goal with
  | H : finitePoint ?p |- _ =>
      let x := fresh "x" in let y := fresh "y" in
      destruct (finitePoint_qpoint p H) as (x & y & ->); clear H
  | H : positive ?a |- _ =>
      let q := fresh "q" in let Hq := fresh "Hq" in
      destruct (positive_fin a H) as (q & -> & Hq); clear H
  end.

(** C3. A world point sent to the screen by the transform of [drawLine],
    [(p.x*scale + pan.x, -p.y*scale + pan.y)], and back by
    [screenToWorld] is the point itself, for every finite point and pan
    and every scale above zero (exact arithmetic). *)
Theorem screenToWorld_worldToScreen (scale : num) (pan p : Point) :
  positive scale -> finitePoint pan -> finitePoint p ->
  let q := worldToScreen scale pan p in
  screenToWorld scale pan (p_x q) (p_y q) =p= p.
Proof.
  intros Hs Hpan Hp. rationals.
  unfold worldToScreen, screenToWorld, qpoint; cbn [p_x p_y nadd nsub nmul nneg].
  rewrite !ndiv_pos by exact Hq.
  assert (Hne : ~ q == 0) by (intro E; rewrite E in Hq; discriminate).
  split; simpl; field; exact Hne.
Qed.

Lemma screenToWorld_worldToScreen_witness :
  let q := worldToScreen (Fin 2) (qpoint 400 300) (qpoint 5 (-7)) in
  screenToWorld (Fin 2) (qpoint 400 300) (p_x q) (p_y q) =p= qpoint 5 (-7).
Proof.
  apply (screenToWorld_worldToScreen (Fin 2) (qpoint 400 300) (qpoint 5 (-7)));
    simpl; unfold finitePoint; simpl; auto; reflexivity.
Defined.

Lemma zoomAt_screenToWorld (f mouseX mouseY : num) (s : State) :
  positive f -> positive (scale s) -> finitePoint (pan s) ->
  finite mouseX -> finite mouseY ->
  let s' := zoomAt f mouseX mouseY s in
  screenToWorld (scale s') (pan s') mouseX mouseY
  =p= screenToWorld (scale s) (pan s) mouseX mouseY.
Proof.
  destruct s as [sc pn ? ? ? ? ? ? ? ? ? ?]. cbn [scale pan].
  intros Hf Hs Hpan Hx Hy.
  destruct (positive_fin f Hf) as (qf & -> & Hqf).
  destruct (positive_fin sc Hs) as (qs & -> & Hqs).
  destruct (finitePoint_qpoint pn Hpan) as (x & y & ->).
  destruct mouseX as [mx| | |]; try contradiction.
  destruct mouseY as [my| | |]; try contradiction.
  unfold zoomAt, screenToWorld, setPan, setScale, qpoint;
    cbn [scale pan p_x p_y nadd nsub nmul nneg].
  assert (Hqq : 0 < qs * qf) by (apply Qmult_lt_0_compat; assumption).
  rewrite !ndiv_pos by assumption.
  assert (Hne : ~ qs == 0) by (intro E; rewrite E in Hqs; discriminate).
  assert (Hne0 : ~ qf == 0) by (intro E; rewrite E in Hqf; discriminate).
  split; simpl; field; split; assumption.
Qed.

Lemma nsub_finite (a b : num) : finite a -> finite b -> finite (a - b)%num.
Proof. destruct a, b; simpl; auto. Qed.

(** C9. A zoom step of factor [f > 0] at the pointer [(mouseX, mouseY)]
    ([scale' = scale * f], [pan' = mouse - (mouse - pan) * f]) leaves the
    world point under the pointer where it was, for every scale above
    zero and every pan; so does every [handleWheel], whose factors are
    0.95 and 1.05. *)
Theorem zoom_keeps_point_under_pointer (s : State) :
  positive (scale s) -> finitePoint (pan s) ->
  (forall f mouseX mouseY : num,
      positive f -> finite mouseX -> finite mouseY ->
      let s' := zoomAt f mouseX mouseY s in
      screenToWorld (scale s') (pan s') mouseX mouseY
      =p= screenToWorld (scale s) (pan s) mouseX mouseY)
  /\
  (forall (deltaY : num) (e : MouseEvent),
      finiteMouse e ->
      let mouseX := (clientX e - rectLeft e)%num in
      let mouseY := (clientY e - rectTop e)%num in
      let s' := handleWheel deltaY e s in
      screenToWorld (scale s') (pan s') mouseX mouseY
      =p= screenToWorld (scale s) (pan s) mouseX mouseY).
Proof.
  intros Hs Hpan. split.
  - intros f mouseX mouseY Hf Hx Hy. apply zoomAt_screenToWorld; assumption.
  - intros deltaY e (Hcx & Hcy & Hrl & Hrt). unfold handleWheel.
    apply zoomAt_screenToWorld; try assumption.
    + destruct (deltaY >? Fin 0)%num; simpl; reflexivity.
    + apply nsub_finite; assumption.
    + apply nsub_finite; assumption.
Qed.

Lemma zoom_keeps_point_under_pointer_witness :
  let s := setPan (qpoint 30 40) (setScale (Fin 2) initialState) in
  let s' := zoomAt (Fin (105 # 100)) (Fin 100) (Fin 50) s in
  screenToWorld (scale s') (pan s') (Fin 100) (Fin 50)
  =p= screenToWorld (scale s) (pan s) (Fin 100) (Fin 50).
Proof.
  refine (proj1 (zoom_keeps_point_under_pointer
                   (setPan (qpoint 30 40) (setScale (Fin 2) initialState))
                   _ _)
            (Fin (105 # 100)) (Fin 100) (Fin 50) _ _ _);
    simpl; unfold finitePoint; simpl; auto; reflexivity.
Defined.

(* ================================================================== *)
(** ** The selection box *)
(* ================================================================== *)

Lemma nmin_fin (a b : Q) : exists m, nmin (Fin a) (Fin b) = Fin m.
Proof. simpl. destruct (Qle_bool a b); eauto. Qed.

(** C10. While a box selection is open (an anchor is set and the mode is
    [select]), whatever the anchor and the pointer, the box stored by
    [handleMouseMove] has a width and a height of at least zero, and the
    world rectangle [handleMouseUp] derives from it at a scale above
    zero has [minX <= maxX] and [minY <= maxY]. *)
Theorem selection_box_well_formed (e : MouseEvent) (s : State)
                                  (start : Point) :
  selectionStart s = Some start -> mode s = select ->
  finitePoint start -> finiteMouse e ->
  positive (scale s) -> finitePoint (pan s) ->
  let s' := handleMouseMove e s in
  exists box,
    selectionBox s' = Some box /\
    (Fin 0 <=? b_width box)%num = true /\
    (Fin 0 <=? b_height box)%num = true /\
    let w := worldSelectionBox (scale s') (pan s') box in
    (minX w <=? maxX w)%num = true /\ (minY w <=? maxY w)%num = true.
Proof.
  intros Hstart Hmode Hfs (Hcx & Hcy & Hrl & Hrt) Hsc Hpan.
  unfold handleMouseMove. rewrite Hstart, Hmode.
  destruct s as [sc pn ? ? ? ? ? ? ? ? ? ?]. cbn [scale pan] in *.
  destruct (positive_fin sc Hsc) as (qs & -> & Hqs).
  destruct (finitePoint_qpoint pn Hpan) as (px & py & ->).
  destruct (finitePoint_qpoint start Hfs) as (ax & ay & ->).
  destruct e as [[cx| | |] [cy| | |] bt [rl| | |] [rt| | |]];
    simpl in Hcx, Hcy, Hrl, Hrt; try contradiction.
  eexists. split; [reflexivity|].
  unfold boxBetween, worldSelectionBox, setSelectionBox, qpoint;
    cbn [b_x b_y b_width b_height p_x p_y clientX clientY rectLeft rectTop
         nsub nadd nneg nabs minX minY maxX maxY scale pan].
  destruct (nmin_fin ax (cx + - rl)) as (bx & ->).
  destruct (nmin_fin ay (cy + - rt)) as (bY & ->).
  cbn [nsub nadd nneg]. rewrite !ndiv_pos by exact Hqs.
  cbn [nle nneg].
  assert (Hw := Qabs_nonneg (cx + - rl + - ax)).
  assert (Hh := Qabs_nonneg (cy + - rt + - ay)).
  generalize dependent (Qabs (cx + - rl + - ax)).
  generalize dependent (Qabs (cy + - rt + - ay)).
  intros h Hh w Hw.
  repeat split; apply Qle_bool_iff; try assumption.
  - apply Qdiv_le_mono; [exact Hqs | lra].
  - apply Qopp_le_compat. apply Qdiv_le_mono; [exact Hqs | lra].
Qed.

Lemma selection_box_well_formed_witness :
  let s' := handleMouseMove (mkMouse (Fin 60) (Fin 200) 0 (Fin 10) (Fin 20))
                            dragBoxState in
  exists box,
    selectionBox s' = Some box /\
    (Fin 0 <=? b_width box)%num = true /\
    (Fin 0 <=? b_height box)%num = true /\
    let w := worldSelectionBox (scale s') (pan s') box in
    (minX w <=? maxX w)%num = true /\ (minY w <=? maxY w)%num = true.
Proof.
  apply (selection_box_well_formed
           (mkMouse (Fin 60) (Fin 200) 0 (Fin 10) (Fin 20)) dragBoxState
           (qpoint 120 80));
    try reflexivity; unfold finitePoint, finiteMouse; simpl; auto.
Defined.

(* ================================================================== *)
(** ** The selection refers to entities of the store *)
(* ================================================================== *)

Section SelectionInvariant.

Variable props : Props.

Lemma includes_In (l : list string) (i : string) :
  includes l i = true <-> In i l.
Proof.
  unfold includes. rewrite existsb_exists. split.
  - intros (j & Hj & E). apply String.eqb_eq in E. subst. exact Hj.
  - intro H. exists i. split; [exact H | apply String.eqb_refl].
Qed.

Lemma firstHit_In (sc : num) (wp : Point) (es : list Entity) (i : string) :
  firstHit sc wp es = Some i -> In i (ids es).
Proof.
  induction es as [|e es IH]; simpl; [discriminate|].
  destruct (entityHit sc wp e).
  - intros [= <-]. left. reflexivity.
  - intro H. right. apply IH. exact H.
Qed.

Lemma truthyId_Some (o : option string) (i : string) :
  truthyId o = Some i -> o = Some i /\ i <> EmptyString.
Proof.
  destruct o as [j|]; simpl; [|discriminate].
  destruct (String.eqb j "") eqn:E; [discriminate|].
  intros [= <-]. split; [reflexivity|]. apply String.eqb_neq. exact E.
Qed.

Lemma ids_filter_incl (f : Entity -> bool) (es : list Entity) :
  incl (ids (filter f es)) (ids es).
Proof.
  intros i H. unfold ids in *. apply in_map_iff in H.
  destruct H as (e & <- & He). apply filter_In in He.
  apply in_map. apply He.
Qed.

Lemma ids_markSelected (sel : list string) (es : list Entity) :
  ids (map (markSelected sel) es) = ids es.
Proof.
  unfold ids. rewrite map_map. apply map_ext. reflexivity.
Qed.

Lemma translateEntity_id (dx dy : num) (e : Entity) :
  e_id (translateEntity dx dy e) = e_id e.
Proof.
  unfold translateEntity.
  destruct (isLINE e), (e_vertices e) as [[v0 v1]|],
           (isTEXT e), (e_position e); reflexivity.
Qed.

Lemma ids_moveSelected (sel : list string) (dx dy : num) (es : list Entity) :
  ids (map (moveSelected sel dx dy) es) = ids es.
Proof.
  unfold ids. rewrite map_map. apply map_ext. intro e.
  unfold moveSelected. destruct (negb (includes sel (e_id e)));
    [reflexivity | apply translateEntity_id].
Qed.

Lemma uniqueFrom_incl (seen l : list string) : incl (uniqueFrom seen l) l.
Proof.
  revert seen. induction l as [|i l IH]; intros seen j; simpl; [tauto|].
  destruct (includes seen i).
  - intro H. right. apply (IH _ _ H).
  - intros [H|H]; [left; exact H | right; apply (IH _ _ H)].
Qed.

(** The setters that leave both lists alone keep the invariant. *)
Lemma selectionValid_same (s s' : State) :
  selectedEntityIds s' = selectedEntityIds s ->
  ids (entities s') = ids (entities s) ->
  selectionValid s -> selectionValid s'.
Proof.
  unfold selectionValid. intros -> ->. exact (fun H => H).
Qed.

Lemma selectionValid_empty (s : State) :
  selectedEntityIds s = [] -> selectionValid s.
Proof.
  unfold selectionValid. intros -> i H. destruct H.
Qed.

Lemma handleMouseDown_valid (e : MouseEvent) (s : State) :
  selectionValid s -> selectionValid (handleMouseDown e s).
Proof.
  intro Hv. unfold handleMouseDown. cbv zeta.
  destruct (truthyId _) as [i|] eqn:Hhit; cbv beta iota.
  - apply truthyId_Some in Hhit. destruct Hhit as [Hhit _].
    apply firstHit_In in Hhit.
    destruct (includes (selectedEntityIds s) i) eqn:Hinc; cbn [orb].
    + cbv beta iota. rewrite Hinc. destruct (button e =? 2)%Z; exact Hv.
    + destruct (button e =? 0)%Z eqn:Hb; cbv beta iota.
      * rewrite Hinc.
        destruct (button e =? 2)%Z; [|destruct (isShiftPressed s)];
          unfold selectionValid; cbn [selectedEntityIds entities negb
            setDragStart setSelectedEntityIds setIsMovingSelection setMode];
          intros j Hj.
        -- destruct Hj as [<-|[]]. exact Hhit.
        -- apply in_app_or in Hj. destruct Hj as [Hj|[<-|[]]];
             [apply Hv; exact Hj | exact Hhit].
        -- destruct Hj as [<-|[]]. exact Hhit.
      * exact Hv.
  - destruct (button e =? 0)%Z; [|exact Hv].
    destruct (mode s); [|exact Hv].
    destruct (isShiftPressed s); cbn [negb]; [exact Hv|].
    apply selectionValid_empty. reflexivity.
Qed.

Lemma handleMouseMove_valid (e : MouseEvent) (s : State) :
  selectionValid s -> selectionValid (handleMouseMove e s).
Proof.
  intro Hv. unfold handleMouseMove.
  assert (Hmove :
    selectionValid
      (if isMovingSelection s && nonEmpty (selectedEntityIds s)
       then setDragStart (mkPoint (clientX e) (clientY e))
              (setEntities
                 (map (moveSelected (selectedEntityIds s)
                         ((clientX e - p_x (dragStart s)) / scale s)%num
                         ((clientY e - p_y (dragStart s)) / scale s
                          * Fin (-1))%num)
                      (entities s)) s)
       else if isDragging s
            then setDragStart (mkPoint (clientX e) (clientY e))
                   (setPan (mkPoint
                              (p_x (pan s) + (clientX e - p_x (dragStart s)))
                              (p_y (pan s) + (clientY e - p_y (dragStart s))))
                           s)
            else s)).
  { destruct (isMovingSelection s && nonEmpty (selectedEntityIds s)).
    - apply (selectionValid_same s); [reflexivity| |exact Hv].
      cbn [entities setDragStart setEntities]. apply ids_moveSelected.
    - destruct (isDragging s); exact Hv. }
  destruct (selectionStart s); [destruct (mode s)|]; try exact Hmove.
  exact Hv.
Qed.

Lemma handleMouseUp_valid (s : State) :
  selectionValid s -> selectionValid (handleMouseUp props s).
Proof.
  intro Hv. unfold handleMouseUp.
  set (s1 := match selectionStart s, selectionBox s, mode s with
             | Some _, Some box, select => _
             | _, _, _ => s
             end).
  assert (H1 : selectionValid s1 /\ entities s1 = entities s).
  { subst s1.
    destruct (selectionStart s); [|split; [exact Hv | reflexivity]].
    destruct (selectionBox s); [|split; [exact Hv | reflexivity]].
    destruct (mode s); [|split; [exact Hv | reflexivity]].
    destruct (isShiftPressed s); (split; [|reflexivity]);
      unfold selectionValid; cbn [selectedEntityIds entities
                                  setSelectedEntityIds]; intros i Hi.
    - apply uniqueFrom_incl in Hi. apply in_app_or in Hi.
      destruct Hi as [Hi|Hi]; [apply Hv; exact Hi|].
      apply (ids_filter_incl _ _ _ Hi).
    - apply (ids_filter_incl _ _ _ Hi). }
  destruct H1 as [H1 _].
  destruct (isMovingSelection s && nonEmpty (selectedEntityIds s)
            && onDxfChange props); exact H1.
Qed.

Lemma handleKeyDown_valid (key : string) (s : State) :
  selectionValid s -> selectionValid (handleKeyDown props key s).
Proof.
  intro Hv. unfold handleKeyDown.
  destruct (String.eqb key "Escape");
    [apply selectionValid_empty; reflexivity|].
  destruct (String.eqb key "Delete" || String.eqb key "Backspace").
  - destruct (selectedEntityIds s) eqn:Hsel.
    + destruct (String.eqb key "Shift");
        apply (selectionValid_same s); auto.
    + destruct (onDxfChange props); apply selectionValid_empty;
        reflexivity.
  - destruct (String.eqb key "Shift"); exact Hv.
Qed.

Lemma step_valid (ev : Event) (s : State) :
  selectionValid s -> selectionValid (step props ev s).
Proof.
  intro Hv. destruct ev; cbn [step].
  - apply handleMouseDown_valid; exact Hv.
  - apply handleMouseMove_valid; exact Hv.
  - apply handleMouseUp_valid; exact Hv.
  - apply handleMouseUp_valid; exact Hv.
  - exact Hv.
  - exact Hv.
  - apply handleKeyDown_valid; exact Hv.
  - unfold handleKeyUp. destruct (String.eqb key "Shift"); exact Hv.
  - exact Hv.
  - exact Hv.
  - apply selectionValid_empty. reflexivity.
  - apply (selectionValid_same s); [reflexivity| |exact Hv].
    cbn [entities effectSelection setEntities]. apply ids_markSelected.
  - unfold effectFit. destruct (entities s); [exact Hv|].
    destruct (fitTransform _ _ _). exact Hv.
Qed.

Lemma run_valid (evs : list Event) (s : State) :
  selectionValid s -> selectionValid (run props evs s).
Proof.
  revert s. induction evs as [|ev evs IH]; intros s Hv; simpl.
  - exact Hv.
  - apply IH. apply step_valid. exact Hv.
Qed.

End SelectionInvariant.

(** C4. From the state of a freshly mounted viewer (the ingested
    entities, nothing selected), after any sequence of events --
    selecting by click, with Shift, by box, clearing, deleting with
    Delete or Backspace, Escape, and every other pointer, wheel, button
    or effect step -- each id of [selectedEntityIds] is the id of an
    entity of [entities]. *)
Theorem selection_within_store (rnd : nat -> Rand) (props : Props)
                               (evs : list Event) (i : string) :
  let s := run props evs (mounted rnd props) in
  In i (selectedEntityIds s) -> In i (ids (entities s)).
Proof.
  intros s. apply (run_valid props evs (mounted rnd props)).
  apply selectionValid_empty.
  unfold mounted, effectIngest. destruct (dxf props); reflexivity.
Qed.

Lemma selection_within_store_witness :
  In "a"%string
     (ids (entities
             (run clickProps [MouseDown clickAtOrigin]
                  (mounted (fun _ => "k3j2h1g"%string) clickProps)))).
Proof.
  apply (selection_within_store (fun _ => "k3j2h1g"%string) clickProps
           [MouseDown clickAtOrigin] "a"%string).
  vm_compute. left. reflexivity.
Defined.

(* ================================================================== *)
(** ** Moving the selection *)
(* ================================================================== *)

Lemma Forall2_map_right {A B} (R : A -> B -> Prop) (f : A -> B) (l : list A) :
  (forall a, R a (f a)) -> Forall2 R l (map f l).
Proof.
  intro H. induction l as [|a l IH]; simpl; constructor; auto.
Qed.

Lemma isLINE_not_TEXT {I} (e : EntityOf I) : isLINE e = true -> isTEXT e = false.
Proof.
  unfold isLINE, isTEXT. intro H. apply String.eqb_eq in H. rewrite H.
  reflexivity.
Qed.

Lemma orZero_shift (a dx dx' : Q) :
  dx == dx' -> (orZero (Fin a) + Fin dx)%num =n= (Fin a + Fin dx')%num.
Proof.
  intro H. destruct (orZero_fin a) as (a' & -> & Ha). simpl.
  rewrite Ha, H. reflexivity.
Qed.

Lemma translateEntity_translatedBy (dx dy dx' dy' : Q) (entity : Entity) :
  dx == dx' -> dy == dy' ->
  translatedBy (qpoint dx' dy') entity
               (translateEntity (Fin dx) (Fin dy) entity).
Proof.
  intros Hx Hy. unfold translatedBy, translateEntity.
  destruct (isLINE entity) eqn:HL.
  - rewrite (isLINE_not_TEXT _ HL).
    destruct (e_vertices entity) as [[v0 v1]|] eqn:Hv;
      cbn [e_id e_type e_text e_selected e_vertices e_position];
      repeat (split; [reflexivity|]); split; try discriminate.
    intros _ a b [= <- <-] Ha Hb.
    destruct (finitePoint_qpoint _ Ha) as (ax & ay & ->).
    destruct (finitePoint_qpoint _ Hb) as (bx & by_ & ->).
    eexists _, _. split; [reflexivity|].
    unfold shift, qpoint, point_eq; cbn [p_x p_y].
    repeat split; apply orZero_shift; assumption.
  - destruct (isTEXT entity) eqn:HT.
    + destruct (e_position entity) as [p|] eqn:Hp;
        cbn [e_id e_type e_text e_selected e_vertices e_position];
        repeat (split; [reflexivity|]); split; try discriminate.
      intros _ p0 [= <-] Hf.
      destruct (finitePoint_qpoint _ Hf) as (x & y & ->).
      eexists. split; [reflexivity|].
      unfold shift, qpoint, point_eq; cbn [p_x p_y].
      split; apply orZero_shift; assumption.
    + repeat (split; [reflexivity|]); split; discriminate.
Qed.

(** C8. A pointer move while a selection is being moved (the selection
    is not empty and no selection box is open), from the last pointer
    position [(ox, oy)] to [(cx, cy)] at a scale [sc > 0]: with the
    screen delta [(sx, sy) = (cx - ox, cy - oy)], every selected entity
    of the store has its coordinate fields translated by the world delta
    [(sx/sc, -sy/sc)], every other entity is the entity it was, and the
    order of the store is kept. *)
Theorem drag_move_translates_selection
    (e : MouseEvent) (s : State) (sc cx cy ox oy : Q) :
  isMovingSelection s = true ->
  selectedEntityIds s <> [] ->
  selectionStart s = None \/ mode s = move ->
  scale s = Fin sc -> 0 < sc ->
  clientX e = Fin cx -> clientY e = Fin cy ->
  dragStart s = qpoint ox oy ->
  let sx := cx - ox in
  let sy := cy - oy in
  Forall2 (movedBy (selectedEntityIds s) (qpoint (sx / sc) (- sy / sc)))
          (entities s) (entities (handleMouseMove e s)).
Proof.
  intros Hmov Hsel Hbox Hsc Hpos Hcx Hcy Hds sx sy.
  assert (Hbody : entities (handleMouseMove e s) =
                  map (moveSelected (selectedEntityIds s)
                         (Fin ((cx + - ox) / sc))
                         (Fin ((cy + - oy) / sc * (-1))))
                      (entities s)).
  { unfold handleMouseMove. rewrite Hmov, Hsc, Hcx, Hcy, Hds.
    assert (Hne : nonEmpty (selectedEntityIds s) = true)
      by (destruct (selectedEntityIds s); [contradiction | reflexivity]).
    rewrite Hne. cbn [andb qpoint p_x p_y nsub nadd nneg].
    rewrite !ndiv_pos by exact Hpos. cbn [nmul].
    destruct Hbox as [-> | ->]; [reflexivity|].
    destruct (selectionStart s); reflexivity. }
  rewrite Hbody. apply Forall2_map_right. intro entity.
  unfold movedBy, moveSelected.
  destruct (includes (selectedEntityIds s) (e_id entity)); cbn [negb];
    [|reflexivity].
  assert (Hne : ~ sc == 0) by (intro E; rewrite E in Hpos; discriminate).
  apply translateEntity_translatedBy; unfold sx, sy; field; exact Hne.
Qed.

Lemma drag_move_translates_selection_witness :
  Forall2 (movedBy ["l1"%string] (qpoint ((110 - 100) / 2) (- (100 - 100) / 2)))
          [scenarioC_line]
          (entities (handleMouseMove scenarioC_event scenarioC_state)).
Proof.
  apply (drag_move_translates_selection scenarioC_event scenarioC_state
           2 110 100 100 100);
    try reflexivity; [discriminate | right; reflexivity].
Defined.

Example scenarioC_endpoints :
  exists a b,
    map e_vertices (entities (handleMouseMove scenarioC_event scenarioC_state))
    = [Some (a, b)] /\ a =p= qpoint 5 0 /\ b =p= qpoint 15 0.
Proof.
  eexists _, _. split; [vm_compute; reflexivity|].
  split; split; vm_compute; reflexivity.
Qed.

(* ================================================================== *)
(** ** The distance from a point to a segment *)
(* ================================================================== *)

Lemma Qsquare_nonneg (x : Q) : 0 <= x * x.
Proof. nra. Qed.

Lemma Qltb_compat (a a' b b' : Q) :
  a == a' -> b == b' -> Qltb a b = Qltb a' b'.
Proof.
  intros Ha Hb. unfold Qltb. rewrite Ha, Hb. reflexivity.
Qed.

Lemma sqrt_lt_compat (a a' b : Q) :
  a == a' -> sqrt_lt (Fin a) (Fin b) = sqrt_lt (Fin a') (Fin b).
Proof.
  intro H. simpl. rewrite (Qltb_compat a a' (b * b) (b * b) H (Qeq_refl _)).
  rewrite H. reflexivity.
Qed.

Section PointToSegment.

(** The point [(px, py)] and the segment from [(sx, sy)] to
    [(ex, ey)]. *)
Variables px py sx sy ex ey : Q.

Let A := px - sx.
Let B := py - sy.
Let C := ex - sx.
Let D := ey - sy.
Let dot := A * C + B * D.
Let lenSq := C * C + D * D.

Local Abbreviation segP := (segmentPoint sx sy ex ey).
Local Abbreviation dSq := (distSq px py).
Local Abbreviation tNear := (nearestParam px py sx sy ex ey).

(** Unfolds [nearestParam] on the names of the section. *)
Local Ltac open_nearest :=
  unfold nearestParam; cbv zeta; fold A B C D; fold dot lenSq.

Lemma nearestParam_range : 0 <= tNear <= 1.
Proof.
  open_nearest.
  destruct (Qeq_bool lenSq 0); [lra|].
  destruct (Qltb (dot / lenSq) 0) eqn:E0; [lra|].
  destruct (Qltb 1 (dot / lenSq)) eqn:E1; [lra|].
  apply Qltb_ge in E0, E1. lra.
Qed.

(** [isPointNearLine] compares the distance to the segment point of
    parameter [nearestParam] with the threshold. *)
Lemma isPointNearLine_nearest (threshold : Q) :
  isPointNearLine (qpoint px py) (qpoint sx sy) (qpoint ex ey)
                  (Fin threshold)
  = sqrt_lt (Fin (dSq (segP tNear))) (Fin threshold).
Proof.
  unfold isPointNearLine, qpoint.
  cbn [p_x p_y nsub nadd nmul nneg nseq].
  fold (px - sx) (py - sy) (ex - sx) (ey - sy). open_nearest.
  destruct (Qeq_bool lenSq 0) eqn:El; cbn [negb].
  - cbn [nlt ngt nadd nsub nmul nneg fst snd].
    apply sqrt_lt_compat. unfold distSq, segmentPoint; cbn [fst snd]. ring.
  - cbn [ndiv]. rewrite El. cbn [nlt ngt].
    destruct (Qltb (dot / lenSq) 0) eqn:E0.
    + cbn [nadd nsub nmul nneg]. apply sqrt_lt_compat.
      unfold distSq, segmentPoint; cbn [fst snd]. ring.
    + destruct (Qltb 1 (dot / lenSq)) eqn:E1.
      * cbn [nadd nsub nmul nneg]. apply sqrt_lt_compat.
        unfold distSq, segmentPoint; cbn [fst snd]. ring.
      * cbn [nadd nsub nmul nneg]. apply sqrt_lt_compat.
        generalize (dot / lenSq). intro t0.
        unfold distSq, segmentPoint, C, D; cbn [fst snd]. ring.
Qed.

Lemma distSq_expand (t : Q) :
  dSq (segP t) == A * A + B * B - 2 * t * dot + t * t * lenSq.
Proof.
  unfold distSq, segmentPoint, dot, lenSq, A, B, C, D; cbn [fst snd]. ring.
Qed.

Lemma distSq_nonneg (q : Q * Q) : 0 <= dSq q.
Proof.
  unfold distSq.
  assert (H1 := Qsquare_nonneg (px - fst q)).
  assert (H2 := Qsquare_nonneg (py - snd q)). lra.
Qed.

Lemma lenSq_zero : lenSq == 0 -> C == 0 /\ D == 0.
Proof.
  unfold lenSq. intro H.
  assert (HC := Qsquare_nonneg C).
  assert (HD := Qsquare_nonneg D).
  assert (HC0 : C * C == 0) by lra.
  assert (HD0 : D * D == 0) by lra.
  split; [destruct (Qmult_integral _ _ HC0) | destruct (Qmult_integral _ _ HD0)];
    assumption.
Qed.

(** No point of the segment is nearer than the one [isPointNearLine]
    measures to. *)
Lemma nearestParam_optimal (t : Q) :
  0 <= t <= 1 ->
  dSq (segP tNear) <= dSq (segP t).
Proof.
  intros [Ht0 Ht1]. rewrite !distSq_expand. open_nearest.
  assert (Hl : 0 <= lenSq).
  { unfold lenSq. assert (HC := Qsquare_nonneg C).
    assert (HD := Qsquare_nonneg D). lra. }
  destruct (Qeq_bool lenSq 0) eqn:El.
  - apply Qeq_bool_iff in El. destruct (lenSq_zero El) as [HC HD].
    assert (Hd : dot == 0) by (unfold dot; rewrite HC, HD; ring).
    rewrite El, Hd. lra.
  - apply Qeq_bool_neq in El.
    assert (Hpos : 0 < lenSq) by (destruct (Qlt_le_dec 0 lenSq) as [H|H];
      [exact H | exfalso; apply El; lra]).
    assert (Hq : dot / lenSq * lenSq == dot) by (field; exact El).
    generalize dependent (dot / lenSq). intros t0 Hq.
    generalize dependent lenSq. intros l Hl El Hpos Hq.
    generalize dependent dot. intros d Hq.
    generalize (A * A + B * B). intro a.
    destruct (Qltb t0 0) eqn:E0.
    + apply Qltb_lt in E0.
      assert (E : (a - 2 * t * d + t * t * l) - (a - 2 * 0 * d + 0 * 0 * l)
                  == t * (t + 2 * - t0) * l) by (rewrite <- Hq; ring).
      assert (0 <= t * (t + 2 * - t0) * l)
        by (apply Qmult_le_0_compat; [apply Qmult_le_0_compat|]; lra).
      lra.
    + apply Qltb_ge in E0. destruct (Qltb 1 t0) eqn:E1.
      * apply Qltb_lt in E1.
        assert (E : (a - 2 * t * d + t * t * l) - (a - 2 * 1 * d + 1 * 1 * l)
                    == (1 - t) * (2 * (t0 - 1) + (1 - t)) * l)
          by (rewrite <- Hq; ring).
        assert (0 <= (1 - t) * (2 * (t0 - 1) + (1 - t)) * l)
          by (apply Qmult_le_0_compat; [apply Qmult_le_0_compat|]; lra).
        lra.
      * apply Qltb_ge in E1.
        assert (E : (a - 2 * t * d + t * t * l)
                    - (a - 2 * t0 * d + t0 * t0 * l)
                    == (t - t0) * (t - t0) * l) by (rewrite <- Hq; ring).
        assert (0 <= (t - t0) * (t - t0) * l)
          by (apply Qmult_le_0_compat; [apply Qsquare_nonneg | lra]).
        lra.
Qed.

End PointToSegment.

(** The claim read on the code: at the tolerance 0 the midpoint of the
    segment from (0,0) to (10,0) is not a hit. *)
Lemma midpoint_not_hit_at_tolerance_zero :
  isPointNearLine (qpoint 5 0) (qpoint 0 0) (qpoint 10 0) (Fin 0) = false.
Proof. vm_compute. reflexivity. Qed.

(** C2 (amended). For every segment, [isPointNearLine] reports the
    midpoint of the segment as a hit at every tolerance above zero and
    as no hit at the tolerance 0 (the comparison with the tolerance is
    strict); and it reports no hit for a point whose distance to the
    nearest point of the segment is [tolerance + eps] or more, with
    [eps > 0]. *)
Theorem line_hit_boundary (sx sy ex ey : Q) :
  let lineStart := qpoint sx sy in
  let lineEnd := qpoint ex ey in
  let mid := qpoint ((sx + ex) / 2) ((sy + ey) / 2) in
  (forall tol, 0 < tol ->
     isPointNearLine mid lineStart lineEnd (Fin tol) = true) /\
  isPointNearLine mid lineStart lineEnd (Fin 0) = false /\
  (forall px py tol eps, 0 < eps ->
     segmentAtLeast px py sx sy ex ey (tol + eps) ->
     isPointNearLine (qpoint px py) lineStart lineEnd (Fin tol) = false).
Proof.
  intros lineStart lineEnd mid. unfold lineStart, lineEnd, mid.
  split; [|split].
  - intros tol Htol. rewrite isPointNearLine_nearest.
    set (mx := (sx + ex) / 2). set (my := (sy + ey) / 2).
    set (d := distSq mx my
                (segmentPoint sx sy ex ey (nearestParam mx my sx sy ex ey))).
    assert (Hd0 : 0 <= d) by apply distSq_nonneg.
    assert (Hhalf : distSq mx my (segmentPoint sx sy ex ey (1 # 2)) == 0).
    { unfold distSq, segmentPoint, mx, my; simpl. field. }
    assert (Hd1 : d <= 0).
    { rewrite <- Hhalf. apply nearestParam_optimal. lra. }
    assert (Hsq : 0 < tol * tol) by (apply Qmult_lt_0_compat; exact Htol).
    simpl. rewrite !andb_true_iff, Qle_bool_iff, !Qltb_lt.
    repeat split; try assumption. lra.
  - rewrite isPointNearLine_nearest. simpl. apply andb_false_intro1.
    apply andb_false_intro2. reflexivity.
  - intros px py tol eps Heps [Hd Hfar]. rewrite isPointNearLine_nearest.
    specialize (Hfar (nearestParam px py sx sy ex ey)
                     (nearestParam_range px py sx sy ex ey)).
    set (d := distSq px py _) in *. simpl.
    destruct (Qltb 0 tol) eqn:Etol; [|rewrite andb_false_r; reflexivity].
    apply Qltb_lt in Etol.
    apply andb_false_intro2. apply Qltb_ge.
    assert (E : (tol + eps) * (tol + eps) - tol * tol
                == eps * (2 * tol + eps)) by ring.
    assert (0 <= eps * (2 * tol + eps))
      by (apply Qmult_le_0_compat; lra).
    lra.
Qed.

Lemma line_hit_boundary_witness :
  isPointNearLine (qpoint ((0 + 10) / 2) ((0 + 0) / 2))
                  (qpoint 0 0) (qpoint 10 0) (Fin 1) = true /\
  isPointNearLine (qpoint 5 3) (qpoint 0 0) (qpoint 10 0) (Fin 1) = false.
Proof.
  destruct (line_hit_boundary 0 0 10 0) as (Hmid & _ & Hfar). split.
  - apply Hmid. reflexivity.
  - apply (Hfar 5 3 1 2); [reflexivity|]. split; [discriminate|].
    intros t _. unfold distSq, segmentPoint; simpl.
    assert (H := Qsquare_nonneg (5 - (0 + t * (10 - 0)))). lra.
Defined.

(* ================================================================== *)
(** ** The hit box of a text *)
(* ================================================================== *)

(** What the [TEXT] branch tests, on rationals. *)
Lemma textHit_iff (entity : Entity) (wx wy tx ty sc : Q) :
  0 < sc ->
  textHit (Fin sc) (qpoint wx wy) entity (qpoint tx ty) = true <->
  (tx - 2 / sc <= wx <= tx + textChars entity * 8 / sc + 2 / sc) /\
  (ty - 14 / sc <= wy <= ty + 2 / sc).
Proof.
  intro Hsc. unfold textHit, qpoint, numOfNat. cbn [p_x p_y].
  destruct (orZero_fin tx) as (tx' & -> & Hx).
  destruct (orZero_fin ty) as (ty' & -> & Hy).
  cbn [nmul]. rewrite !ndiv_pos by exact Hsc.
  cbn [nadd nsub nneg nge nle].
  rewrite !andb_true_iff, !Qle_bool_iff. fold (textChars entity).
  rewrite Hx, Hy. unfold Qminus. tauto.
Qed.

Lemma firstHit_text (entity : Entity) (pos worldPos : Point) (sc : num) :
  isTEXT entity = true -> e_position entity = Some pos ->
  firstHit sc worldPos [entity]
  = if textHit sc worldPos entity pos then Some (e_id entity) else None.
Proof.
  intros HT Hp. unfold firstHit, entityHit. rewrite HT, Hp.
  assert (HL : isLINE entity = false).
  { unfold isLINE, isTEXT in *. apply String.eqb_eq in HT. rewrite HT.
    reflexivity. }
  rewrite HL. reflexivity.
Qed.

(** The claim read on the code, for the text "AB" at the origin and the
    scale 1.  The world point (-1, 0), one pixel left of the anchor, is
    outside the box of the specification and is a hit: the code tests a
    margin of 2 pixels around the text.  The world point (5, 10) is
    inside the box of the specification and is no hit, and (5, -10) is
    outside it and is a hit: the code's box lies toward smaller world
    Y. *)
Lemma text_hit_differs_from_spec_box :
  (specTextBox (Fin 1) (qpoint (-1) 0) textAB (qpoint 0 0) = false /\
   firstHit (Fin 1) (qpoint (-1) 0) [textAB] = Some "t1"%string) /\
  (specTextBox (Fin 1) (qpoint 5 10) textAB (qpoint 0 0) = true /\
   firstHit (Fin 1) (qpoint 5 10) [textAB] = None) /\
  (specTextBox (Fin 1) (qpoint 5 (-10)) textAB (qpoint 0 0) = false /\
   firstHit (Fin 1) (qpoint 5 (-10)) [textAB] = Some "t1"%string).
Proof. vm_compute. repeat split. Qed.

(** C5 (amended). For a [TEXT] entity at a finite position [(tx, ty)],
    a scale [sc > 0] and a world point [(wx, wy)]: a hit implies that the
    point is within the horizontal extent of the text with its margin of
    2 pixels, from [tx - 2/sc] to [tx + text.length*8/sc + 2/sc], and
    within [14/sc] of [ty] vertically; and every point within that
    horizontal extent and within [2/sc] of [ty] vertically is a hit. *)
Theorem text_hit_extent (entity : Entity) (wx wy tx ty sc : Q) :
  isTEXT entity = true -> e_position entity = Some (qpoint tx ty) ->
  0 < sc ->
  let hit := firstHit (Fin sc) (qpoint wx wy) [entity] in
  let inWidth :=
    tx - 2 / sc <= wx <= tx + textChars entity * 8 / sc + 2 / sc in
  (hit = Some (e_id entity) \/ hit = None) /\
  (hit = Some (e_id entity) ->
   inWidth /\ ty - 14 / sc <= wy <= ty + 14 / sc) /\
  (inWidth -> ty - 2 / sc <= wy <= ty + 2 / sc ->
   hit = Some (e_id entity)).
Proof.
  intros HT Hp Hsc hit inWidth. unfold hit, inWidth.
  rewrite (firstHit_text entity (qpoint tx ty) _ _ HT Hp).
  assert (Hiff := textHit_iff entity wx wy tx ty sc Hsc).
  assert (H2 : 0 <= 2 / sc) by (apply Qdiv_pos; [discriminate | exact Hsc]).
  assert (H14 : 2 / sc <= 14 / sc)
    by (apply Qdiv_le_mono; [exact Hsc | discriminate]).
  destruct (textHit (Fin sc) (qpoint wx wy) entity (qpoint tx ty)).
  - split; [left; reflexivity|]. split.
    + intros _. destruct (proj1 Hiff eq_refl) as [Hw Hh].
      split; [exact Hw | lra].
    + reflexivity.
  - split; [right; reflexivity|]. split; [discriminate|].
    intros Hw Hh. assert (false = true); [|discriminate].
    apply Hiff. split; [exact Hw | lra].
Qed.

Lemma text_hit_extent_witness :
  let hit := firstHit (Fin 2) (qpoint 3 (1 # 2)) [textAB] in
  let inWidth := 0 - 2 / 2 <= 3 <= 0 + textChars textAB * 8 / 2 + 2 / 2 in
  (hit = Some "t1"%string \/ hit = None) /\
  (hit = Some "t1"%string ->
   inWidth /\ 0 - 14 / 2 <= 1 # 2 <= 0 + 14 / 2) /\
  (inWidth -> 0 - 2 / 2 <= 1 # 2 <= 0 + 2 / 2 -> hit = Some "t1"%string).
Proof.
  apply (text_hit_extent textAB 3 (1 # 2) 0 0 2); reflexivity.
Defined.

(* ================================================================== *)
(** ** Ingestion: the ids of the store *)
(* ================================================================== *)





(** Entities that come out of an ingestion with a non-empty id are left
    as they are by another one, which takes no draw. *)
Lemma ingestFrom_ingested (rnd : nat -> Rand) (n : nat) (es : list Entity) :
  Forall (fun e => e_id e <> EmptyString) es ->
  ingestFrom rnd n (map toRaw es) = (es, n).
Proof.
  induction 1 as [|e es He _ IH]; simpl; [reflexivity|].
  destruct (String.eqb (e_id e) "") eqn:E.
  - apply String.eqb_eq in E. contradiction.
  - rewrite IH. destruct e; reflexivity.
Qed.

Lemma generateId_digits (r : Rand) :
  r <> EmptyString -> generateId r <> EmptyString.
Proof.
  destruct r as [|c r]; [contradiction|]. intros _.
  unfold generateId, toString36. simpl. destruct r; discriminate.
Qed.

Lemma ingestFrom_nonempty (rnd : nat -> Rand) (raw : list RawEntity) (n : nat) :
  (forall j, rnd j <> EmptyString) ->
  Forall (fun e => e_id e <> EmptyString) (fst (ingestFrom rnd n raw)).
Proof.
  intro Hrnd. revert n. induction raw as [|entity rest IH]; intro n; simpl.
  - constructor.
  - destruct (truthyId (e_id entity)) as [i|] eqn:Hi.
    + specialize (IH n). destruct (ingestFrom rnd n rest) as [es n'].
      constructor; [|exact IH]. apply truthyId_Some in Hi. apply Hi.
    + specialize (IH (S n)). destruct (ingestFrom rnd (S n) rest) as [es n'].
      constructor; [|exact IH]. apply generateId_digits. apply Hrnd.
Qed.

(** Ingestion is idempotent as long as no draw of [Math.random()] is 0. *)
Lemma ingest_idempotent (rnd rnd' : nat -> Rand) (raw : list RawEntity) :
  (forall j, rnd j <> EmptyString) ->
  ingest rnd' (map toRaw (ingest rnd raw)) = ingest rnd raw.
Proof.
  intro Hrnd. unfold ingest at 1.
  rewrite ingestFrom_ingested; [reflexivity|].
  apply ingestFrom_nonempty. exact Hrnd.
Qed.

(** C7. The draw 0 of [Math.random()] prints as "0", of which
    [substring(2, 9)] is the empty string: the entity ingested with that
    draw has the id "", which a second ingestion takes for a missing id
    and replaces. *)
Theorem ingest_twice_regenerates_empty_id :
  let first := ingest (fun _ => EmptyString) [rawNoId] in
  let second := ingest (fun _ => "k3j2h1g"%string) (map toRaw first) in
  ids first = [EmptyString] /\ ids second = ["k3j2h1g"%string] /\
  second <> first.
Proof.
  cbv zeta. split; [reflexivity|]. split; [reflexivity|]. discriminate.
Qed.

(* ================================================================== *)
(** ** The fit transform *)
(* ================================================================== *)

(** Scenario E: without entities [calculateBounds] is the fixed box from
    (-10,-10) to (10,10), whose sides of length 20 give a finite scale
    above zero in a canvas of positive width and height. *)
Lemma fit_of_no_entity (w h : num) :
  positive w -> positive h ->
  calculateBounds [] = mkBounds (Fin (-10)) (Fin (-10)) (Fin 10) (Fin 10) /\
  positive (fst (fitTransform w h [])).
Proof.
  intros Hw Hh. split; [reflexivity|].
  destruct (positive_fin w Hw) as (qw & -> & Hqw).
  destruct (positive_fin h Hh) as (qh & -> & Hqh).
  unfold fitTransform. cbn [calculateBounds minX minY maxX maxY nsub nadd nneg].
  rewrite !ndiv_pos by reflexivity. cbn [fst].
  assert (H1 : 0 < qw / (10 + - -10)).
  { apply Qlt_shift_div_l; [reflexivity | lra]. }
  assert (H2 : 0 < qh / (10 + - -10)).
  { apply Qlt_shift_div_l; [reflexivity | lra]. }
  cbn [nmin nle]. destruct (Qle_bool _ _); cbn [nmul positive];
    apply Qmult_lt_0_compat; try assumption; reflexivity.
Qed.

(** Where the padding does guard the divisions: when the points of a
    store with at least one entity span bounds that are finite and not
    reduced to a point, the scale is finite and above zero. *)
Lemma fit_of_positive_extent (w h a b c d : Q) (e : Entity) (es : list Entity) :
  0 < w -> 0 < h ->
  fold_left boundsStep (e :: es) (mkBounds PInf PInf NInf NInf)
  = mkBounds (Fin a) (Fin b) (Fin c) (Fin d) ->
  a <= c -> b <= d -> a < c \/ b < d ->
  positive (fst (fitTransform (Fin w) (Fin h) (e :: es))).
Proof.
  intros Hw Hh Hfold Hac Hbd Hext.
  unfold fitTransform, calculateBounds. rewrite Hfold.
  cbn [minX minY maxX maxY nsub nadd nneg nmax nle].
  set (m := if Qle_bool (c + - a) (d + - b) then d + - b else c + - a).
  assert (Hm : 0 < m).
  { unfold m. destruct (Qle_bool (c + - a) (d + - b)) eqn:E.
    - apply Qle_bool_iff in E. lra.
    - apply Qle_bool_gt in E. lra. }
  replace (if Qle_bool (c + - a) (d + - b) then Fin (d + - b)
           else Fin (c + - a)) with (Fin m)
    by (unfold m; destruct (Qle_bool (c + - a) (d + - b)); reflexivity).
  cbn [nmul nadd nsub nneg].
  assert (Hp : 0 < m * (1 # 10)) by (apply Qmult_lt_0_compat; [exact Hm | reflexivity]).
  set (pad := m * (1 # 10)) in *.
  assert (Hbw : 0 < c + pad + - (a + - pad)) by lra.
  assert (Hbh : 0 < d + pad + - (b + - pad)) by lra.
  rewrite !ndiv_pos by assumption. cbn [fst].
  assert (H1 : 0 < w / (c + pad + - (a + - pad))).
  { apply Qlt_shift_div_l; [exact Hbw | lra]. }
  assert (H2 : 0 < h / (d + pad + - (b + - pad))).
  { apply Qlt_shift_div_l; [exact Hbh | lra]. }
  cbn [nmin nle]. destruct (Qle_bool (w / _) (h / _)); cbn [nmul positive];
    apply Qmult_lt_0_compat; try assumption; reflexivity.
Qed.

(** C1. For a store that holds one text, or one line of length zero, the
    padding of [calculateBounds] is a tenth of an extent of zero: the
    padded bounds have the width and the height 0, both divisions of the
    fit transform are divisions by zero, and the scale is [Infinity];
    [effectFit] stores it. *)
Theorem fit_of_zero_area_divides_by_zero :
  (fst (fitDivisors [textAB]) =n= Fin 0 /\
   snd (fitDivisors [textAB]) =n= Fin 0 /\
   fst (fitTransform (Fin 800) (Fin 600) [textAB]) = PInf) /\
  (fst (fitDivisors [zeroLengthLine]) =n= Fin 0 /\
   snd (fitDivisors [zeroLengthLine]) =n= Fin 0 /\
   fst (fitTransform (Fin 800) (Fin 600) [zeroLengthLine]) = PInf) /\
  scale (effectFit (mkProps None (Fin 800) (Fin 600) false)
                   (setEntities [textAB] initialState)) = PInf.
Proof.
  repeat split; vm_compute; reflexivity.
Qed.

(* ================================================================== *)
(** ** The scenarios of the specification, evaluated *)
(* ================================================================== *)

(** Scenario A: with the line from (0,0) to (10,0) in the store, the
    world point (5, 0.0001) is a hit at the tolerance 1 (the scale 10). *)
Example scenarioA_hit :
  firstHit (Fin 10) (qpoint 5 (1 # 10000)) [scenarioC_line]
  = Some "l1"%string.
Proof. vm_compute. reflexivity. Qed.

(** Scenario B: the text "AB" at the origin is in the world rectangle
    from (-1,-1) to (1,1) and not in the one from (5,5) to (6,6). *)
Example scenarioB_box :
  inSelectionBox (mkBounds (Fin (-1)) (Fin (-1)) (Fin 1) (Fin 1)) textAB
  = true /\
  inSelectionBox (mkBounds (Fin 5) (Fin 5) (Fin 6) (Fin 6)) textAB = false.
Proof. vm_compute. split; reflexivity. Qed.

(** Scenario D: Delete on the only entity, selected, empties the store
    and the selection; nothing is found at any position afterwards. *)
Example scenarioD_delete (x y : num) :
  let s := setSelectedEntityIds ["l1"%string]
             (setEntities [scenarioC_line] initialState) in
  let s' := handleKeyDown clickProps "Delete" s in
  entities s' = [] /\ selectedEntityIds s' = [] /\
  findEntityAtPosition (scale s') (pan s') (entities s') x y = None.
Proof. repeat split. Qed.

(* ================================================================== *)
(** ** Further properties: ingestion *)
(* ================================================================== *)

Lemma substring_0_length (n : nat) (s : string) :
  String.length (substring 0 n s) = Nat.min n (String.length s).
Proof.
  revert s. induction n as [|n IH]; intros [|c s]; simpl; try reflexivity.
  rewrite IH. reflexivity.
Qed.

Lemma substring_0_prefix (n : nat) (s : string) :
  prefix (substring 0 n s) s = true.
Proof.
  revert s. induction n as [|n IH]; intros [|c s]; simpl; try reflexivity.
  destruct (Ascii.ascii_dec c c) as [_|Hc]; [apply IH | contradiction].
Qed.

(** X1. The id [generateId] makes of a draw is the first seven digits of
    the draw after the point: a prefix of its digits, of length seven or
    of the number of digits when there are fewer. *)
Theorem generateId_leading_digits (r : Rand) :
  generateId r = substring 0 7 r /\
  String.length (generateId r) = Nat.min 7 (String.length r) /\
  prefix (generateId r) r = true.
Proof.
  assert (H : generateId r = substring 0 7 r).
  { destruct r as [|c r]; reflexivity. }
  rewrite H. split; [reflexivity|]. split.
  - apply substring_0_length.
  - apply substring_0_prefix.
Qed.

Lemma ingestFrom_spec (rnd : nat -> Rand) (raw : list RawEntity) (n : nat) :
  Forall2 (fun r e =>
             withId r (e_id e) = e /\
             match truthyId (e_id r) with
             | Some i => e_id e = i
             | None => exists k, (n <= k < n + missing raw)%nat /\
                                 e_id e = generateId (rnd k)
             end)
          raw (fst (ingestFrom rnd n raw)) /\
  snd (ingestFrom rnd n raw) = (n + missing raw)%nat.
Proof.
  revert n. induction raw as [|entity rest IH]; intro n; simpl.
  - split; [constructor | apply plus_n_O].
  - destruct (truthyId (e_id entity)) as [i|] eqn:Hi.
    + destruct (IH n) as [IH1 IH2].
      destruct (ingestFrom rnd n rest) as [es n']. simpl in *.
      split; [|exact IH2]. constructor; [|exact IH1].
      rewrite Hi. split; reflexivity.
    + destruct (IH (S n)) as [IH1 IH2].
      destruct (ingestFrom rnd (S n) rest) as [es n']. simpl in *.
      split; [|rewrite IH2; apply plus_n_Sm]. constructor.
      * rewrite Hi. split; [reflexivity|]. exists n.
        split; [|reflexivity]. split; [apply le_n|].
        rewrite <- plus_n_Sm. apply le_n_S. apply Nat.le_add_r.
      * eapply Forall2_impl; [|exact IH1]. intros r e [H1 H2].
        split; [exact H1|]. destruct (truthyId (e_id r)); [exact H2|].
        destruct H2 as (k & [Hk1 Hk2] & Hk). exists k.
        split; [|exact Hk]. split.
        -- apply Nat.le_trans with (S n); [apply Nat.le_succ_diag_r | exact Hk1].
        -- rewrite <- plus_n_Sm. exact Hk2.
Qed.

(** X2. Ingestion keeps the entities in number and order and changes
    nothing of an entity but a missing id: every ingested entity is the
    raw entity with its id set, to the id the raw entity carries when it
    carries one, to an id generated from one of the draws otherwise; and
    it takes as many draws as entities lack an id. *)
Theorem ingest_changes_only_missing_ids (rnd : nat -> Rand)
                                        (raw : list RawEntity) :
  Forall2 (fun r e =>
             withId r (e_id e) = e /\
             match truthyId (e_id r) with
             | Some i => e_id e = i
             | None => exists k, (k < missing raw)%nat /\
                                 e_id e = generateId (rnd k)
             end)
          raw (ingest rnd raw) /\
  List.length (ingest rnd raw) = List.length raw /\
  snd (ingestFrom rnd 0 raw) = missing raw.
Proof.
  destruct (ingestFrom_spec rnd raw 0) as [H1 H2]. unfold ingest.
  split; [|split].
  - eapply Forall2_impl; [|exact H1]. intros r e [Ha Hb].
    split; [exact Ha|]. destruct (truthyId (e_id r)); [exact Hb|].
    destruct Hb as (k & [_ Hk] & E). exists k. split; assumption.
  - symmetry. apply (Forall2_length H1).
  - exact H2.
Qed.

(* ================================================================== *)
(** ** Further properties: hit testing *)
(* ================================================================== *)

Lemma near_of_segment_point (px py sx sy ex ey tol t : Q) :
  0 < tol -> 0 <= t <= 1 ->
  distSq px py (segmentPoint sx sy ex ey t) < tol * tol ->
  isPointNearLine (qpoint px py) (qpoint sx sy) (qpoint ex ey) (Fin tol)
  = true.
Proof.
  intros Htol Ht Hd. rewrite isPointNearLine_nearest.
  assert (Hopt := nearestParam_optimal px py sx sy ex ey t Ht).
  assert (Hpos := distSq_nonneg px py
            (segmentPoint sx sy ex ey (nearestParam px py sx sy ex ey))).
  simpl. rewrite !andb_true_iff, Qle_bool_iff, !Qltb_lt.
  repeat split; try assumption. lra.
Qed.

Lemma near_gives_segment_point (px py sx sy ex ey tol : Q) :
  isPointNearLine (qpoint px py) (qpoint sx sy) (qpoint ex ey) (Fin tol)
  = true ->
  0 < tol /\
  distSq px py (segmentPoint sx sy ex ey (nearestParam px py sx sy ex ey))
  < tol * tol.
Proof.
  rewrite isPointNearLine_nearest. simpl.
  rewrite !andb_true_iff, Qle_bool_iff, !Qltb_lt. tauto.
Qed.

(** X3. [isPointNearLine] decides whether the segment comes nearer to
    the point than the threshold: it returns true exactly when the
    threshold is above zero and some point of the segment, end points
    included, is at a distance below the threshold. *)
Theorem isPointNearLine_within (px py sx sy ex ey tol : Q) :
  isPointNearLine (qpoint px py) (qpoint sx sy) (qpoint ex ey) (Fin tol)
  = true <->
  0 < tol /\
  exists t, 0 <= t <= 1 /\
            distSq px py (segmentPoint sx sy ex ey t) < tol * tol.
Proof.
  split.
  - intro H. apply near_gives_segment_point in H. destruct H as [Htol Hd].
    split; [exact Htol|]. exists (nearestParam px py sx sy ex ey).
    split; [apply nearestParam_range | exact Hd].
  - intros (Htol & t & Ht & Hd).
    apply (near_of_segment_point px py sx sy ex ey tol t); assumption.
Qed.

Lemma distSq_reversed (px py sx sy ex ey t : Q) :
  distSq px py (segmentPoint ex ey sx sy (1 - t))
  == distSq px py (segmentPoint sx sy ex ey t).
Proof.
  unfold distSq, segmentPoint; cbn [fst snd]. ring.
Qed.

Lemma near_reversed (px py sx sy ex ey tol : Q) :
  isPointNearLine (qpoint px py) (qpoint sx sy) (qpoint ex ey) (Fin tol)
  = true ->
  isPointNearLine (qpoint px py) (qpoint ex ey) (qpoint sx sy) (Fin tol)
  = true.
Proof.
  intro H. apply near_gives_segment_point in H. destruct H as [Htol Hd].
  assert (Hr := nearestParam_range px py sx sy ex ey).
  apply (near_of_segment_point px py ex ey sx sy tol
           (1 - nearestParam px py sx sy ex ey)); [exact Htol | lra |].
  rewrite distSq_reversed. exact Hd.
Qed.

(** X4. The answer of [isPointNearLine] does not depend on which end of
    the line is its start. *)
Theorem isPointNearLine_ends_swapped (px py sx sy ex ey tol : Q) :
  isPointNearLine (qpoint px py) (qpoint sx sy) (qpoint ex ey) (Fin tol)
  = isPointNearLine (qpoint px py) (qpoint ex ey) (qpoint sx sy) (Fin tol).
Proof.
  apply eq_true_iff_eq. split; apply near_reversed.
Qed.

Lemma Qle_scale (a b sc : Q) : 0 < sc -> (a <= b <-> a * sc <= b * sc).
Proof. intro H. symmetry. apply Qmult_le_r. exact H. Qed.

Lemma screenToWorld_fin (sc panx pany x y : Q) :
  0 < sc ->
  screenToWorld (Fin sc) (qpoint panx pany) (Fin x) (Fin y)
  = qpoint ((x + - panx) / sc) (- ((y + - pany) / sc)).
Proof.
  intro H. unfold screenToWorld, qpoint. cbn [p_x p_y nsub nadd nneg].
  rewrite !ndiv_pos by exact H. reflexivity.
Qed.

(** The square of a distance on the screen is the square of the distance
    in the world times the square of the scale. *)
Lemma distSq_on_screen (sc panx pany x y ax ay bx by_ ax' ay' bx' by' t : Q) :
  ~ sc == 0 -> ax' == ax -> ay' == ay -> bx' == bx -> by' == by_ ->
  distSq x y (fst (segmentPoint ax ay bx by_ t) * sc + panx,
              - snd (segmentPoint ax ay bx by_ t) * sc + pany)
  == distSq ((x + - panx) / sc) (- ((y + - pany) / sc))
            (segmentPoint ax' ay' bx' by' t) * (sc * sc).
Proof.
  intros Hsc Hax Hay Hbx Hby. unfold distSq, segmentPoint; cbn [fst snd].
  rewrite Hax, Hay, Hbx, Hby. field. exact Hsc.
Qed.

(** X5. The pick radius of a line is 10 pixels at every zoom: at a scale
    above zero, the [LINE] test of [findEntityAtPosition] at the world
    position of a pointer succeeds exactly when some point of the
    segment, as [drawLine] places it on the screen, is nearer than 10
    pixels to the pointer. *)
Theorem line_pick_radius_in_pixels (sc panx pany x y ax ay bx by_ : Q) :
  0 < sc ->
  lineHit (Fin sc)
          (screenToWorld (Fin sc) (qpoint panx pany) (Fin x) (Fin y))
          (qpoint ax ay) (qpoint bx by_) = true <->
  exists t Sx Sy,
    0 <= t <= 1 /\
    worldToScreen (Fin sc) (qpoint panx pany)
      (qpoint (fst (segmentPoint ax ay bx by_ t))
              (snd (segmentPoint ax ay bx by_ t))) = qpoint Sx Sy /\
    distSq x y (Sx, Sy) < 10 * 10.
Proof.
  intro Hsc.
  assert (Hne : ~ sc == 0) by (intro E; rewrite E in Hsc; discriminate).
  assert (Hss : 0 < sc * sc) by (apply Qmult_lt_0_compat; exact Hsc).
  assert (Htol : 10 / sc * (10 / sc) * (sc * sc) == 10 * 10)
    by (field; exact Hne).
  rewrite screenToWorld_fin by exact Hsc.
  unfold lineHit. cbn [p_x p_y qpoint].
  destruct (orZero_fin ax) as (ax' & -> & Hax).
  destruct (orZero_fin ay) as (ay' & -> & Hay).
  destruct (orZero_fin bx) as (bx' & -> & Hbx).
  destruct (orZero_fin by_) as (by' & -> & Hby).
  rewrite ndiv_pos by exact Hsc.
  change (isPointNearLine (qpoint ((x + - panx) / sc) (- ((y + - pany) / sc)))
            (qpoint ax' ay') (qpoint bx' by') (Fin (10 / sc)) = true <->
          exists t Sx Sy,
            0 <= t <= 1 /\
            worldToScreen (Fin sc) (qpoint panx pany)
              (qpoint (fst (segmentPoint ax ay bx by_ t))
                      (snd (segmentPoint ax ay bx by_ t))) = qpoint Sx Sy /\
            distSq x y (Sx, Sy) < 10 * 10).
  split.
  - intro H. apply near_gives_segment_point in H. destruct H as [_ Hd].
    set (t := nearestParam _ _ ax' ay' bx' by') in *.
    exists t. eexists _, _. split; [apply nearestParam_range|].
    split; [reflexivity|].
    rewrite (distSq_on_screen sc panx pany x y ax ay bx by_ ax' ay' bx' by' t)
      by assumption.
    rewrite <- Htol. apply Qmult_lt_r; assumption.
  - intros (t & Sx & Sy & Ht & HS & Hd).
    unfold worldToScreen, qpoint in HS. cbn [p_x p_y nadd nmul nneg] in HS.
    injection HS as <- <-.
    rewrite (distSq_on_screen sc panx pany x y ax ay bx by_ ax' ay' bx' by' t)
      in Hd by assumption.
    rewrite <- Htol in Hd. apply Qmult_lt_r in Hd; [|exact Hss].
    apply (near_of_segment_point _ _ ax' ay' bx' by' (10 / sc) t);
      try assumption.
    apply Qlt_shift_div_l; [exact Hsc | lra].
Qed.

(** X6. The pick box of a text is a fixed rectangle of pixels at every
    zoom: with [(ax, ay)] the screen position [drawText] gives the
    anchor, the [TEXT] test of [findEntityAtPosition] succeeds for the
    pointer [(x, y)] exactly when [x] is between [ax - 2] and
    [ax + 8 * text.length + 2] and [y] is between [ay - 2] and
    [ay + 14] (screen Y grows downward). *)
Theorem text_pick_box_in_pixels (entity : Entity)
                                (sc panx pany x y tx ty : Q) :
  0 < sc ->
  let ax := tx * sc + panx in
  let ay := - ty * sc + pany in
  textHit (Fin sc)
          (screenToWorld (Fin sc) (qpoint panx pany) (Fin x) (Fin y))
          entity (qpoint tx ty) = true <->
  (ax - 2 <= x <= ax + textChars entity * 8 + 2) /\
  (ay - 2 <= y <= ay + 14).
Proof.
  intros Hsc ax ay.
  assert (Hne : ~ sc == 0) by (intro E; rewrite E in Hsc; discriminate).
  rewrite screenToWorld_fin by exact Hsc.
  rewrite textHit_iff by exact Hsc.
  set (n := textChars entity).
  assert (H1 : tx - 2 / sc <= (x + - panx) / sc <-> ax - 2 <= x).
  { rewrite (Qle_scale _ _ sc Hsc).
    setoid_replace ((tx - 2 / sc) * sc) with (tx * sc - 2) by (field; exact Hne).
    setoid_replace ((x + - panx) / sc * sc) with (x - panx) by (field; exact Hne).
    unfold ax. split; intro; lra. }
  assert (H2 : (x + - panx) / sc <= tx + n * 8 / sc + 2 / sc
               <-> x <= ax + n * 8 + 2).
  { rewrite (Qle_scale _ _ sc Hsc).
    setoid_replace ((tx + n * 8 / sc + 2 / sc) * sc)
      with (tx * sc + n * 8 + 2) by (field; exact Hne).
    setoid_replace ((x + - panx) / sc * sc) with (x - panx) by (field; exact Hne).
    unfold ax. split; intro; lra. }
  assert (H3 : ty - 14 / sc <= - ((y + - pany) / sc) <-> y <= ay + 14).
  { rewrite (Qle_scale _ _ sc Hsc).
    setoid_replace ((ty - 14 / sc) * sc) with (ty * sc - 14) by (field; exact Hne).
    setoid_replace (- ((y + - pany) / sc) * sc) with (pany - y)
      by (field; exact Hne).
    unfold ay. split; intro; lra. }
  assert (H4 : - ((y + - pany) / sc) <= ty + 2 / sc <-> ay - 2 <= y).
  { rewrite (Qle_scale _ _ sc Hsc).
    setoid_replace ((ty + 2 / sc) * sc) with (ty * sc + 2) by (field; exact Hne).
    setoid_replace (- ((y + - pany) / sc) * sc) with (pany - y)
      by (field; exact Hne).
    unfold ay. split; intro; lra. }
  tauto.
Qed.

Lemma text_pick_box_in_pixels_witness :
  textHit (Fin 2)
          (screenToWorld (Fin 2) (qpoint 400 300) (Fin 410) (Fin 310))
          textAB (qpoint 0 0) = true <->
  (0 * 2 + 400 - 2 <= 410 <= 0 * 2 + 400 + textChars textAB * 8 + 2) /\
  (- 0 * 2 + 300 - 2 <= 310 <= - 0 * 2 + 300 + 14).
Proof.
  apply (text_pick_box_in_pixels textAB 2 400 300 410 310 0 0). reflexivity.
Defined.

Lemma line_pick_radius_in_pixels_witness :
  lineHit (Fin 2)
          (screenToWorld (Fin 2) (qpoint 400 300) (Fin 410) (Fin 305))
          (qpoint 0 0) (qpoint 10 0) = true <->
  exists t Sx Sy,
    0 <= t <= 1 /\
    worldToScreen (Fin 2) (qpoint 400 300)
      (qpoint (fst (segmentPoint 0 0 10 0 t))
              (snd (segmentPoint 0 0 10 0 t))) = qpoint Sx Sy /\
    distSq 410 305 (Sx, Sy) < 10 * 10.
Proof.
  apply (line_pick_radius_in_pixels 2 400 300 410 305 0 0 10 0). reflexivity.
Defined.

(** X7. [findEntityAtPosition] answers with the first entity of the
    store, in list order, whose test succeeds at the world position of
    the pointer: it returns the id of an entity exactly when the store
    splits into entities whose tests all fail, that entity, whose test
    succeeds, and a rest; and it returns nothing exactly when the test
    fails for every entity. *)
Theorem findEntityAtPosition_first_match
    (sc : num) (pn : Point) (es : list Entity) (x y : num) :
  let worldPos := screenToWorld sc pn x y in
  (forall i,
      findEntityAtPosition sc pn es x y = Some i <->
      exists before entity rest,
        es = before ++ entity :: rest /\
        Forall (fun e => entityHit sc worldPos e = false) before /\
        entityHit sc worldPos entity = true /\ e_id entity = i) /\
  (findEntityAtPosition sc pn es x y = None <->
   Forall (fun e => entityHit sc worldPos e = false) es).
Proof.
  intro worldPos. unfold findEntityAtPosition. fold worldPos.
  induction es as [|e es [IHs IHn]]; simpl.
  - split.
    + intro i. split; [discriminate|].
      intros (before & entity & rest & E & _). destruct before; discriminate.
    + split; [constructor | reflexivity].
  - destruct (entityHit sc worldPos e) eqn:He.
    + split.
      * intro i. split.
        -- intros [= <-]. exists [], e, es. repeat split; [constructor | exact He].
        -- intros (before & entity & rest & E & Hb & Hh & Hi).
           destruct before as [|b before].
           ++ injection E as <- _. rewrite Hi. reflexivity.
           ++ injection E as <- _. inversion Hb; congruence.
      * split; [discriminate|]. intro H. inversion H; congruence.
    + split.
      * intro i. rewrite IHs. split.
        -- intros (before & entity & rest & -> & Hb & Hh & Hi).
           exists (e :: before), entity, rest.
           repeat split; try assumption. constructor; assumption.
        -- intros (before & entity & rest & E & Hb & Hh & Hi).
           destruct before as [|b before].
           ++ injection E as <- _. congruence.
           ++ injection E as <- ->. inversion Hb.
              exists before, entity, rest. repeat split; assumption.
      * rewrite IHn. split.
        -- intro H. constructor; assumption.
        -- intro H. inversion H. assumption.
Qed.

(* ================================================================== *)
(** ** Further properties: box selection *)
(* ================================================================== *)

Lemma pointInBounds_on_screen (sc panx pany bx by_ bw bh px py : Q) :
  0 < sc ->
  pointInBounds
    (worldSelectionBox (Fin sc) (qpoint panx pany)
       (mkBox (Fin bx) (Fin by_) (Fin bw) (Fin bh)))
    (orZero (Fin px)) (orZero (Fin py)) = true <->
  inBox (mkBox (Fin bx) (Fin by_) (Fin bw) (Fin bh))
        (worldToScreen (Fin sc) (qpoint panx pany) (qpoint px py)).
Proof.
  intro Hsc.
  assert (Hne : ~ sc == 0) by (intro E; rewrite E in Hsc; discriminate).
  unfold pointInBounds, inBox, worldSelectionBox, worldToScreen, qpoint.
  cbn [p_x p_y b_x b_y b_width b_height minX minY maxX maxY
       nadd nsub nmul nneg].
  destruct (orZero_fin px) as (px' & -> & Hpx).
  destruct (orZero_fin py) as (py' & -> & Hpy).
  rewrite !ndiv_pos by exact Hsc. cbn [nge nle nneg].
  rewrite !andb_true_iff, !Qle_bool_iff. rewrite Hpx, Hpy.
  assert (H1 : (bx + - panx) / sc <= px <-> bx <= px * sc + panx).
  { rewrite (Qle_scale _ _ sc Hsc).
    setoid_replace ((bx + - panx) / sc * sc) with (bx - panx)
      by (field; exact Hne).
    split; intro; lra. }
  assert (H2 : px <= (bx + bw + - panx) / sc <-> px * sc + panx <= bx + bw).
  { rewrite (Qle_scale _ _ sc Hsc).
    setoid_replace ((bx + bw + - panx) / sc * sc) with (bx + bw - panx)
      by (field; exact Hne).
    split; intro; lra. }
  assert (H3 : - ((by_ + bh + - pany) / sc) <= py
               <-> - py * sc + pany <= by_ + bh).
  { rewrite (Qle_scale _ _ sc Hsc).
    setoid_replace (- ((by_ + bh + - pany) / sc) * sc) with (pany - by_ - bh)
      by (field; exact Hne).
    split; intro; lra. }
  assert (H4 : py <= - ((by_ + - pany) / sc) <-> by_ <= - py * sc + pany).
  { rewrite (Qle_scale _ _ sc Hsc).
    setoid_replace (- ((by_ + - pany) / sc) * sc) with (pany - by_)
      by (field; exact Hne).
    split; intro; lra. }
  tauto.
Qed.

Lemma finiteBox_fin (box : Box) :
  finiteBox box ->
  exists bx by_ bw bh, box = mkBox (Fin bx) (Fin by_) (Fin bw) (Fin bh).
Proof.
  destruct box as [[bx| | |] [by_| | |] [bw| | |] [bh| | |]];
    unfold finiteBox; simpl; intros (H1 & H2 & H3 & H4); try contradiction.
  exists bx, by_, bw, bh. reflexivity.
Qed.

(** Reduces the coordinates of the points [qpoint a b] of the goal. *)
Ltac qpoint_coords :=
  repeat match goal with
  | |- context [p_x (qpoint ?a ?b)] => change (p_x (qpoint a b)) with (Fin a)
  | |- context [p_y (qpoint ?a ?b)] => change (p_y (qpoint a b)) with (Fin b)
  end.

Lemma inSelectionBox_on_screen (sc panx pany : Q) (box : Box)
                               (entity : Entity) :
  0 < sc -> finiteBox box ->
  (forall p, In p (entityPoints entity) -> finitePoint p) ->
  inSelectionBox (worldSelectionBox (Fin sc) (qpoint panx pany) box) entity
  = true <->
  exists p, In p (entityPoints entity) /\
            inBox box (worldToScreen (Fin sc) (qpoint panx pany) p).
Proof.
  intros Hsc Hbox Hfin.
  destruct (finiteBox_fin box Hbox) as (bx & by_ & bw & bh & ->).
  unfold inSelectionBox, entityPoints in *.
  destruct (isLINE entity) eqn:HL;
    [destruct (e_vertices entity) as [[v0 v1]|] eqn:Hv|].
  - destruct (finitePoint_qpoint v0 (Hfin v0 (or_introl eq_refl)))
      as (x0 & y0 & ->).
    destruct (finitePoint_qpoint v1 (Hfin v1 (or_intror (or_introl eq_refl))))
      as (x1 & y1 & ->).
    qpoint_coords.
    rewrite orb_true_iff, !pointInBounds_on_screen by exact Hsc. split.
    + intros [H|H]; eexists; (split; [|exact H]); simpl; auto.
    + intros (q & [<-|[<-|[]]] & H); [left | right]; exact H.
  - rewrite (isLINE_not_TEXT _ HL) in *.
    split; [discriminate | intros (q & [] & _)].
  - destruct (isTEXT entity); [destruct (e_position entity) as [p|]|];
      try (split; [discriminate | intros (q & [] & _)]).
    destruct (finitePoint_qpoint p (Hfin p (or_introl eq_refl)))
      as (x0 & y0 & ->).
    qpoint_coords.
    rewrite pointInBounds_on_screen by exact Hsc. split.
    + intro H. eexists; (split; [|exact H]); simpl; auto.
    + intros (q & [<-|[]] & H). exact H.
Qed.

(** X8. A box selection without Shift selects what is drawn in the box:
    on pointer-up, at a scale above zero, an id is selected exactly when
    it is the id of an entity of the store one of whose points (an end
    point of a line, the position of a text) is drawn, by the transform
    of [drawLine] and [drawText], inside the selection box on the
    screen, sides included. *)
Theorem box_selection_picks_what_is_drawn_inside
    (props : Props) (s : State) (start : Point) (box : Box)
    (sc panx pany : Q) :
  selectionStart s = Some start -> selectionBox s = Some box ->
  mode s = select -> isShiftPressed s = false ->
  scale s = Fin sc -> 0 < sc -> pan s = qpoint panx pany ->
  finiteBox box ->
  (forall p, In p (storePoints (entities s)) -> finitePoint p) ->
  forall i,
    In i (selectedEntityIds (handleMouseUp props s)) <->
    exists entity p,
      In entity (entities s) /\ e_id entity = i /\
      In p (entityPoints entity) /\
      inBox box (worldToScreen (Fin sc) (qpoint panx pany) p).
Proof.
  intros Hstart Hbox Hmode Hshift Hsc Hpos Hpan Hfb Hfin i.
  assert (Hsel : selectedEntityIds (handleMouseUp props s)
                 = ids (filter (inSelectionBox
                                  (worldSelectionBox (Fin sc)
                                     (qpoint panx pany) box))
                               (entities s))).
  { unfold handleMouseUp. rewrite Hstart, Hbox, Hmode, Hshift, Hsc, Hpan.
    destruct (isMovingSelection s && nonEmpty (selectedEntityIds s)
              && onDxfChange props); reflexivity. }
  rewrite Hsel. unfold ids. rewrite in_map_iff. split.
  - intros (e & Hid & He). apply filter_In in He. destruct He as [He Hin].
    apply inSelectionBox_on_screen in Hin; try assumption.
    + destruct Hin as (p & Hp & Hb). exists e, p. repeat split; assumption.
    + intros p Hp. apply Hfin. unfold storePoints. apply in_flat_map.
      exists e. split; assumption.
  - intros (e & p & He & Hid & Hp & Hb). exists e. split; [exact Hid|].
    apply filter_In. split; [exact He|].
    apply inSelectionBox_on_screen; try assumption.
    + intros q Hq. apply Hfin. unfold storePoints. apply in_flat_map.
      exists e. split; assumption.
    + exists p. split; assumption.
Qed.

Lemma box_selection_picks_what_is_drawn_inside_witness :
  In "t1"%string (selectedEntityIds (handleMouseUp clickProps boxOverText)) <->
  exists entity p,
    In entity (entities boxOverText) /\ e_id entity = "t1"%string /\
    In p (entityPoints entity) /\
    inBox (mkBox (Fin 390) (Fin 290) (Fin 20) (Fin 20))
          (worldToScreen (Fin 2) (qpoint 400 300) p).
Proof.
  apply (box_selection_picks_what_is_drawn_inside clickProps boxOverText
           (qpoint 390 290) (mkBox (Fin 390) (Fin 290) (Fin 20) (Fin 20))
           2 400 300); try reflexivity.
  - unfold finiteBox; simpl; auto.
  - intros p [<-|[]]. split; exact I.
Defined.

Lemma uniqueFrom_In (seen l : list string) (i : string) :
  In i (uniqueFrom seen l) <-> In i l /\ ~ In i seen.
Proof.
  revert seen. induction l as [|j l IH]; intro seen; simpl.
  - tauto.
  - destruct (includes seen j) eqn:E.
    + apply includes_In in E. rewrite IH. split.
      * intros [H1 H2]. auto.
      * intros [[<-|H1] H2]; [contradiction | auto].
    + assert (Hj : ~ In j seen).
      { intro H. apply includes_In in H. congruence. }
      simpl. rewrite IH. simpl. split.
      * intros [<-|[H1 H2]]; [auto|]. split; [auto|]. intro H. apply H2. auto.
      * intros [[<-|H1] H2]; [auto|].
        destruct (string_dec j i) as [<-|Hne]; [auto|].
        right. split; [exact H1|]. intros [H|H]; contradiction.
Qed.

Lemma uniqueFrom_NoDup (seen l : list string) : NoDup (uniqueFrom seen l).
Proof.
  revert seen. induction l as [|j l IH]; intro seen; simpl.
  - constructor.
  - destruct (includes seen j); [apply IH|].
    constructor; [|apply IH]. rewrite uniqueFrom_In. simpl. tauto.
Qed.

(** X9. A box selection with Shift held adds to the selection without
    repeating an id: after pointer-up the selection has no duplicate, it
    holds exactly the ids selected before and the ids of the entities
    the box picks, and the ids selected before come first, in their
    order, when they had no duplicate. *)
Theorem shift_box_selection_is_union
    (props : Props) (s : State) (start : Point) (box : Box) :
  selectionStart s = Some start -> selectionBox s = Some box ->
  mode s = select -> isShiftPressed s = true ->
  let picked :=
    ids (filter (inSelectionBox (worldSelectionBox (scale s) (pan s) box))
                (entities s)) in
  let after := selectedEntityIds (handleMouseUp props s) in
  NoDup after /\
  (forall i, In i after <-> In i (selectedEntityIds s) \/ In i picked) /\
  (NoDup (selectedEntityIds s) ->
   exists added, after = selectedEntityIds s ++ added).
Proof.
  intros Hstart Hbox Hmode Hshift picked after.
  assert (Hafter : after = unique (selectedEntityIds s ++ picked)).
  { unfold after, handleMouseUp. rewrite Hstart, Hbox, Hmode, Hshift.
    destruct (isMovingSelection s && nonEmpty (selectedEntityIds s)
              && onDxfChange props); reflexivity. }
  rewrite Hafter. unfold unique. split; [apply uniqueFrom_NoDup|]. split.
  - intro i. rewrite uniqueFrom_In, in_app_iff. simpl. tauto.
  - generalize (selectedEntityIds s) picked. clear.
    intros sel picked Hnd.
    assert (H : forall seen, (forall i, In i sel -> ~ In i seen) ->
              exists added, uniqueFrom seen (sel ++ picked) = sel ++ added).
    { induction Hnd as [|j sel Hj Hnd IH]; intros seen Hseen; simpl.
      - eexists. reflexivity.
      - destruct (includes seen j) eqn:E.
        + apply includes_In in E. exfalso. apply (Hseen j); simpl; auto.
        + destruct (IH (j :: seen)) as (added & ->).
          * intros i Hi [<-|H]; [contradiction|].
            apply (Hseen i); simpl; auto.
          * eexists. reflexivity. }
    apply H. intros i _ [].
Qed.


Lemma shift_box_selection_is_union_witness :
  let picked :=
    ids (filter (inSelectionBox
                   (worldSelectionBox (scale shiftBoxOverText)
                      (pan shiftBoxOverText)
                      (mkBox (Fin 390) (Fin 290) (Fin 20) (Fin 20))))
                (entities shiftBoxOverText)) in
  let after := selectedEntityIds (handleMouseUp clickProps shiftBoxOverText) in
  NoDup after /\
  (forall i, In i after <->
             In i (selectedEntityIds shiftBoxOverText) \/ In i picked) /\
  (NoDup (selectedEntityIds shiftBoxOverText) ->
   exists added, after = selectedEntityIds shiftBoxOverText ++ added).
Proof.
  apply (shift_box_selection_is_union clickProps shiftBoxOverText
           (qpoint 390 290) (mkBox (Fin 390) (Fin 290) (Fin 20) (Fin 20)));
    reflexivity.
Defined.

(* ================================================================== *)
(** ** Further properties: the ids of the store and of the selection *)
(* ================================================================== *)

Lemma NoDup_ids_filter (f : Entity -> bool) (es : list Entity) :
  NoDup (ids es) -> NoDup (ids (filter f es)).
Proof.
  induction es as [|e es IH]; simpl; intro H; [constructor|].
  inversion H as [|? ? Hin Hnd]; subst.
  destruct (f e); simpl; [|apply IH; exact Hnd].
  constructor; [|apply IH; exact Hnd].
  intro Hc. apply Hin. apply (ids_filter_incl f es). exact Hc.
Qed.

Lemma Sublist_refl {A} (l : list A) : Sublist l l.
Proof. induction l; constructor; assumption. Qed.

Lemma Sublist_trans {A} (l1 l2 l3 : list A) :
  Sublist l1 l2 -> Sublist l2 l3 -> Sublist l1 l3.
Proof.
  intros H12 H23. revert l1 H12.
  induction H23 as [|x l2 l3 H23 IH|x l2 l3 H23 IH]; intros l1 H12.
  - exact H12.
  - apply Sublist_skip. apply IH. exact H12.
  - inversion H12; subst.
    + apply Sublist_skip. apply IH. assumption.
    + apply Sublist_keep. apply IH. assumption.
Qed.

Lemma Sublist_incl {A} (l l' : list A) : Sublist l l' -> incl l l'.
Proof.
  induction 1 as [|x l l' H IH|x l l' H IH]; intros a Ha.
  - exact Ha.
  - right. apply IH. exact Ha.
  - destruct Ha as [<-|Ha]; [left; reflexivity | right; apply IH; exact Ha].
Qed.

Lemma Sublist_NoDup {A} (l l' : list A) : Sublist l l' -> NoDup l' -> NoDup l.
Proof.
  induction 1 as [|x l l' H IH|x l l' H IH]; intro Hnd.
  - exact Hnd.
  - inversion Hnd; subst. apply IH. assumption.
  - inversion Hnd as [|? ? Hin Hnd']; subst. constructor; [|apply IH; exact Hnd'].
    intro Hc. apply Hin. apply (Sublist_incl _ _ H). exact Hc.
Qed.

Lemma Sublist_ids_filter (f : Entity -> bool) (es : list Entity) :
  Sublist (ids (filter f es)) (ids es).
Proof.
  induction es as [|e es IH]; simpl; [constructor|].
  destruct (f e); simpl; constructor; exact IH.
Qed.

Section IdsInvariant.

Variable props : Props.

Lemma step_store_sublist (ev : Event) (s : State) :
  Sublist (ids (entities (step props ev s))) (ids (entities s)).
Proof.
  destruct ev; cbn [step]; try apply Sublist_refl.
  - unfold handleMouseDown. cbv zeta.
    destruct (truthyId _) as [i|]; cbv beta iota.
    + destruct (includes (selectedEntityIds s) i || (button e =? 0)%Z);
        cbv beta iota;
        [destruct (button e =? 2)%Z;
           [destruct (negb (includes (selectedEntityIds s) i))
           |destruct (includes (selectedEntityIds s) i);
              [|destruct (negb (isShiftPressed s))]]
        |destruct (button e =? 0)%Z;
           [destruct (mode s); [destruct (negb (isShiftPressed s))|]|]];
        apply Sublist_refl.
    + destruct (button e =? 0)%Z;
        [destruct (mode s); [destruct (negb (isShiftPressed s))|]|];
        apply Sublist_refl.
  - unfold handleMouseMove.
    destruct (selectionStart s); [destruct (mode s)|];
      try apply Sublist_refl;
      (destruct (isMovingSelection s && nonEmpty (selectedEntityIds s));
       [cbn [entities setDragStart setEntities]; rewrite ids_moveSelected;
        apply Sublist_refl
       |destruct (isDragging s); apply Sublist_refl]).
  - unfold handleMouseUp.
    destruct (selectionStart s), (selectionBox s), (mode s),
             (isShiftPressed s),
             (isMovingSelection s && nonEmpty (selectedEntityIds s)
              && onDxfChange props); apply Sublist_refl.
  - unfold handleMouseUp.
    destruct (selectionStart s), (selectionBox s), (mode s),
             (isShiftPressed s),
             (isMovingSelection s && nonEmpty (selectedEntityIds s)
              && onDxfChange props); apply Sublist_refl.
  - unfold handleKeyDown.
    destruct (String.eqb key "Escape"), (String.eqb key "Shift"),
             (String.eqb key "Delete" || String.eqb key "Backspace"),
             (selectedEntityIds s), (onDxfChange props);
      cbn [entities setSelectionStart setSelectionBox setSelectedEntityIds
           setEntities setIsShiftPressed report];
      try apply Sublist_refl; apply Sublist_ids_filter.
  - unfold handleKeyUp. destruct (String.eqb key "Shift"); apply Sublist_refl.
  - cbn [entities effectSelection setEntities]. rewrite ids_markSelected.
    apply Sublist_refl.
  - unfold effectFit. destruct (entities s) eqn:E; [rewrite E|];
      [apply Sublist_refl|]. destruct (fitTransform _ _ _).
    cbn [entities setPan setScale]. rewrite E. apply Sublist_refl.
Qed.

Lemma step_selection_NoDup (ev : Event) (s : State) :
  NoDup (ids (entities s)) -> NoDup (selectedEntityIds s) ->
  NoDup (selectedEntityIds (step props ev s)).
Proof.
  intros Hes Hsel. destruct ev; cbn [step]; try exact Hsel.
  - unfold handleMouseDown. cbv zeta.
    destruct (truthyId _) as [i|]; cbv beta iota.
    + destruct (includes (selectedEntityIds s) i) eqn:Hinc; cbn [orb];
        cbv beta iota.
      * rewrite Hinc. destruct (button e =? 2)%Z; exact Hsel.
      * destruct (button e =? 0)%Z; cbv beta iota.
        -- rewrite Hinc.
           destruct (button e =? 2)%Z; [|destruct (isShiftPressed s)];
             cbn [negb selectedEntityIds setDragStart setSelectedEntityIds
                  setIsMovingSelection setMode].
           ++ constructor; [intros []|constructor].
           ++ apply NoDup_app; [exact Hsel | constructor; [intros []|constructor]|].
              intros j Hj [<-|[]]. apply includes_In in Hj. congruence.
           ++ constructor; [intros []|constructor].
        -- exact Hsel.
    + destruct (button e =? 0)%Z; [|exact Hsel].
      destruct (mode s); [|exact Hsel].
      destruct (isShiftPressed s); cbn [negb]; [exact Hsel | constructor].
  - unfold handleMouseMove.
    destruct (selectionStart s); [destruct (mode s)|]; try exact Hsel;
      (destruct (isMovingSelection s && nonEmpty (selectedEntityIds s));
       [exact Hsel | destruct (isDragging s); exact Hsel]).
  - unfold handleMouseUp.
    destruct (selectionStart s), (selectionBox s), (mode s),
             (isShiftPressed s),
             (isMovingSelection s && nonEmpty (selectedEntityIds s)
              && onDxfChange props);
      cbn [selectedEntityIds setSelectionBox setSelectionStart
           setIsMovingSelection setIsDragging report setSelectedEntityIds];
      try exact Hsel; try apply uniqueFrom_NoDup;
      apply NoDup_ids_filter; exact Hes.
  - unfold handleMouseUp.
    destruct (selectionStart s), (selectionBox s), (mode s),
             (isShiftPressed s),
             (isMovingSelection s && nonEmpty (selectedEntityIds s)
              && onDxfChange props);
      cbn [selectedEntityIds setSelectionBox setSelectionStart
           setIsMovingSelection setIsDragging report setSelectedEntityIds];
      try exact Hsel; try apply uniqueFrom_NoDup;
      apply NoDup_ids_filter; exact Hes.
  - unfold handleKeyDown.
    destruct (String.eqb key "Escape"), (String.eqb key "Shift"),
             (String.eqb key "Delete" || String.eqb key "Backspace"),
             (selectedEntityIds s) eqn:E, (onDxfChange props);
      cbn [selectedEntityIds setSelectionStart setSelectionBox
           setSelectedEntityIds setEntities setIsShiftPressed report];
      rewrite ?E; try exact Hsel; apply NoDup_nil.
  - unfold handleKeyUp. destruct (String.eqb key "Shift"); exact Hsel.
  - constructor.
  - unfold effectFit. destruct (entities s); [exact Hsel|].
    destruct (fitTransform _ _ _). exact Hsel.
Qed.

End IdsInvariant.

(** X10. No event adds an entity to the store, renames one or reorders
    the store, and none makes the selection hold an id twice: after any
    sequence of events, the ids of the store are those it started with,
    some of them removed, in the same order; and when the ids of the
    store and of the selection had no duplicate at the start, they have
    none at the end. *)
Theorem ids_never_added_nor_repeated (props : Props) (evs : list Event)
                                     (s : State) :
  let s' := run props evs s in
  Sublist (ids (entities s')) (ids (entities s)) /\
  (NoDup (ids (entities s)) -> NoDup (selectedEntityIds s) ->
   NoDup (ids (entities s')) /\ NoDup (selectedEntityIds s')).
Proof.
  revert s. induction evs as [|ev evs IH]; intro s; simpl.
  - split; [apply Sublist_refl | tauto].
  - destruct (IH (step props ev s)) as [IH1 IH2].
    assert (Hstep := step_store_sublist props ev s).
    split.
    + apply (Sublist_trans _ _ _ IH1 Hstep).
    + intros Hes Hsel. apply IH2.
      * apply (Sublist_NoDup _ _ Hstep Hes).
      * apply step_selection_NoDup; assumption.
Qed.

Lemma ids_never_added_nor_repeated_witness :
  let s' := run clickProps [MouseDown clickAtOrigin; KeyDown "Delete"]
                (mounted (fun _ => "k3j2h1g"%string) clickProps) in
  Sublist (ids (entities s')) ["a"%string] /\
  (NoDup ["a"%string] -> NoDup (@nil string) ->
   NoDup (ids (entities s')) /\ NoDup (selectedEntityIds s')).
Proof.
  apply (ids_never_added_nor_repeated clickProps
           [MouseDown clickAtOrigin; KeyDown "Delete"]
           (mounted (fun _ => "k3j2h1g"%string) clickProps)).
Defined.

(* ================================================================== *)
(** ** Further properties: keyboard and right click *)
(* ================================================================== *)

(** X11. Delete and Backspace remove the selected entities and nothing
    else.  With a selection, the store keeps, in order, exactly the
    entities whose id is not selected, the selection becomes empty, no
    position picks a removed id afterwards, and the new store is what
    [onDxfChange] receives; without a selection the key changes
    nothing. *)
Theorem delete_removes_the_selection (props : Props) (key : string)
                                     (s : State) :
  key = "Delete"%string \/ key = "Backspace"%string ->
  let s' := handleKeyDown props key s in
  (selectedEntityIds s = [] -> s' = s) /\
  (selectedEntityIds s <> [] ->
   entities s'
   = filter (fun e => negb (includes (selectedEntityIds s) (e_id e)))
            (entities s) /\
   (forall e, In e (entities s') <->
              In e (entities s) /\ ~ In (e_id e) (selectedEntityIds s)) /\
   selectedEntityIds s' = [] /\
   (forall sc pn x y i,
       In i (selectedEntityIds s) ->
       findEntityAtPosition sc pn (entities s') x y <> Some i) /\
   reported s' = if onDxfChange props then entities s' :: reported s
                 else reported s).
Proof.
  intros Hkey s'.
  assert (Hk : String.eqb key "Shift" = false /\
               (String.eqb key "Delete" || String.eqb key "Backspace") = true /\
               String.eqb key "Escape" = false)
    by (destruct Hkey as [-> | ->]; repeat split; reflexivity).
  destruct Hk as (K1 & K2 & K3).
  unfold s', handleKeyDown. rewrite K1, K2, K3. split.
  - intros ->. reflexivity.
  - intro Hne. destruct (selectedEntityIds s) as [|j sel] eqn:E;
      [contradiction|].
    cbv beta iota zeta.
    set (kept := filter (fun e => negb (includes (j :: sel) (e_id e)))
                        (entities s)).
    assert (Hin : forall e, In e kept <->
                            In e (entities s) /\ ~ In (e_id e) (j :: sel)).
    { intro e. unfold kept. rewrite filter_In, negb_true_iff.
      rewrite <- includes_In. destruct (includes (j :: sel) (e_id e));
        intuition congruence. }
    destruct (onDxfChange props);
      cbn [entities selectedEntityIds reported report setSelectedEntityIds
           setEntities];
      (split; [reflexivity|]); (split; [exact Hin|]);
      (split; [reflexivity|]); (split; [|reflexivity]);
      intros sc pn x y i Hi Hfind; apply firstHit_In in Hfind;
      unfold ids in Hfind; apply in_map_iff in Hfind;
      destruct Hfind as (e & <- & He); apply Hin in He; tauto.
Qed.

Lemma delete_removes_the_selection_witness :
  let s := setSelectedEntityIds ["l1"%string]
             (setEntities [scenarioC_line; textAB] initialState) in
  let s' := handleKeyDown clickProps "Delete" s in
  (selectedEntityIds s = [] -> s' = s) /\
  (selectedEntityIds s <> [] ->
   entities s'
   = filter (fun e => negb (includes (selectedEntityIds s) (e_id e)))
            (entities s) /\
   (forall e, In e (entities s') <->
              In e (entities s) /\ ~ In (e_id e) (selectedEntityIds s)) /\
   selectedEntityIds s' = [] /\
   (forall sc pn x y i,
       In i (selectedEntityIds s) ->
       findEntityAtPosition sc pn (entities s') x y <> Some i) /\
   reported s' = if onDxfChange clickProps then entities s' :: reported s
                 else reported s).
Proof.
  apply (delete_removes_the_selection clickProps "Delete"
           (setSelectedEntityIds ["l1"%string]
              (setEntities [scenarioC_line; textAB] initialState))).
  left. reflexivity.
Defined.

(** X12. Escape cancels a box selection: it empties the selection and
    drops the box and its anchor without touching the store, the
    pointer-up that follows selects nothing, and a pointer move after it
    opens no box. *)
Theorem escape_cancels_box_selection (props : Props) (s : State)
                                     (e : MouseEvent) :
  let s1 := handleKeyDown props "Escape" s in
  (selectedEntityIds s1 = [] /\ selectionBox s1 = None /\
   selectionStart s1 = None /\ entities s1 = entities s) /\
  selectedEntityIds (handleMouseUp props s1) = [] /\
  selectionBox (handleMouseMove e s1) = None.
Proof.
  cbv zeta. unfold handleKeyDown.
  change (String.eqb "Escape" "Shift") with false.
  change (String.eqb "Escape" "Delete" || String.eqb "Escape" "Backspace")
    with false.
  change (String.eqb "Escape" "Escape") with true. cbv beta iota.
  split; [repeat split|]. split.
  - unfold handleMouseUp.
    cbn [selectionStart setSelectionStart setSelectionBox setSelectedEntityIds
         isMovingSelection selectedEntityIds nonEmpty andb].
    rewrite andb_false_r. reflexivity.
  - unfold handleMouseMove.
    cbn [selectionStart setSelectionStart setSelectionBox setSelectedEntityIds
         isMovingSelection selectedEntityIds isDragging nonEmpty andb].
    rewrite andb_false_r. destruct (isDragging s); reflexivity.
Qed.

(** X13. A right click (pointer-down with button 2, then the context
    menu event) never changes the selection or the store.  On an entity
    that is selected it arms the move of the selection and leaves the
    mode at [select], whatever the mode was; anywhere else it switches
    to the other mode and arms nothing. *)
Theorem right_click_mode (props : Props) (e : MouseEvent) (s : State) :
  button e = 2%Z ->
  let hit :=
    truthyId (findEntityAtPosition (scale s) (pan s) (entities s)
                (clientX e - rectLeft e)%num (clientY e - rectTop e)%num) in
  let onSelected :=
    match hit with
    | Some i => includes (selectedEntityIds s) i
    | None => false
    end in
  let s' := run props [MouseDown e; ContextMenu] s in
  selectedEntityIds s' = selectedEntityIds s /\
  entities s' = entities s /\
  (onSelected = true ->
   mode s' = select /\ isMovingSelection s' = true) /\
  (onSelected = false ->
   mode s' = otherMode (mode s) /\
   isMovingSelection s' = isMovingSelection s).
Proof.
  intros Hb hit onSelected s'. unfold s', onSelected, hit.
  cbn [run fold_left step]. unfold handleContextMenu, handleMouseDown.
  cbv zeta. rewrite Hb. change (2 =? 0)%Z with false.
  change (2 =? 2)%Z with true.
  destruct (truthyId _) as [i|]; cbv beta iota.
  - rewrite orb_false_r.
    destruct (includes (selectedEntityIds s) i) eqn:Hinc; cbv beta iota.
    + rewrite Hinc. cbn [negb]. repeat split; try discriminate.
    + repeat split; try discriminate.
  - repeat split; try discriminate.
Qed.

Lemma right_click_mode_witness :
  let e := mkMouse (Fin 0) (Fin 0) 2 (Fin 0) (Fin 0) in
  let s := setSelectedEntityIds ["l1"%string]
             (setEntities [scenarioC_line] initialState) in
  let hit :=
    truthyId (findEntityAtPosition (scale s) (pan s) (entities s)
                (clientX e - rectLeft e)%num (clientY e - rectTop e)%num) in
  let onSelected :=
    match hit with
    | Some i => includes (selectedEntityIds s) i
    | None => false
    end in
  let s' := run clickProps [MouseDown e; ContextMenu] s in
  selectedEntityIds s' = selectedEntityIds s /\
  entities s' = entities s /\
  (onSelected = true ->
   mode s' = select /\ isMovingSelection s' = true) /\
  (onSelected = false ->
   mode s' = otherMode (mode s) /\
   isMovingSelection s' = isMovingSelection s).
Proof.
  apply (right_click_mode clickProps
           (mkMouse (Fin 0) (Fin 0) 2 (Fin 0) (Fin 0))
           (setSelectedEntityIds ["l1"%string]
              (setEntities [scenarioC_line] initialState))).
  reflexivity.
Defined.

(* ================================================================== *)
(** ** Further properties: moving, panning and zooming *)
(* ================================================================== *)

Lemma handleMouseMove_moving (e : MouseEvent) (s : State)
                             (sc cx cy ox oy : Q) :
  isMovingSelection s = true ->
  selectedEntityIds s <> [] ->
  selectionStart s = None \/ mode s = move ->
  scale s = Fin sc -> 0 < sc ->
  clientX e = Fin cx -> clientY e = Fin cy ->
  dragStart s = qpoint ox oy ->
  handleMouseMove e s
  = setDragStart (qpoint cx cy)
      (setEntities
         (map (moveSelected (selectedEntityIds s)
                 (Fin ((cx + - ox) / sc)) (Fin ((cy + - oy) / sc * (-1))))
              (entities s)) s).
Proof.
  intros Hmov Hsel Hbox Hsc Hpos Hcx Hcy Hds.
  unfold handleMouseMove. rewrite Hmov, Hsc, Hcx, Hcy, Hds.
  assert (Hne : nonEmpty (selectedEntityIds s) = true)
    by (destruct (selectedEntityIds s); [contradiction | reflexivity]).
  rewrite Hne. cbn [andb qpoint p_x p_y nsub nadd nneg].
  rewrite !ndiv_pos by exact Hpos. cbn [nmul].
  destruct Hbox as [-> | ->]; [reflexivity|].
  destruct (selectionStart s); reflexivity.
Qed.

Lemma translateEntity_twice (dx1 dy1 dx2 dy2 dx dy : Q) (entity : Entity) :
  dx1 + dx2 == dx -> dy1 + dy2 == dy ->
  translatedBy (qpoint dx dy) entity
    (translateEntity (Fin dx2) (Fin dy2)
       (translateEntity (Fin dx1) (Fin dy1) entity)).
Proof.
  intros Hx Hy. unfold translatedBy, translateEntity.
  destruct (isLINE entity) eqn:HL.
  - rewrite (isLINE_not_TEXT _ HL).
    destruct (e_vertices entity) as [[v0 v1]|] eqn:Hv.
    + unfold isLINE in *. cbn [e_id e_type e_text e_selected e_vertices
                                e_position]. rewrite HL.
      repeat (split; [reflexivity|]). split; [|discriminate].
      intros _ a b [= <- <-] Ha Hb.
      destruct (finitePoint_qpoint _ Ha) as (ax & ay & ->).
      destruct (finitePoint_qpoint _ Hb) as (bx & by_ & ->).
      eexists _, _. split; [reflexivity|].
      unfold shift, qpoint, point_eq; cbn [p_x p_y].
      destruct (orZero_fin ax) as (ax' & -> & Hax).
      destruct (orZero_fin ay) as (ay' & -> & Hay).
      destruct (orZero_fin bx) as (bx' & -> & Hbx).
      destruct (orZero_fin by_) as (by' & -> & Hby).
      cbn [nadd].
      destruct (orZero_fin (ax' + dx1)) as (a1 & -> & Ha1).
      destruct (orZero_fin (ay' + dy1)) as (a2 & -> & Ha2).
      destruct (orZero_fin (bx' + dx1)) as (b1 & -> & Hb1).
      destruct (orZero_fin (by' + dy1)) as (b2 & -> & Hb2).
      cbn [nadd num_eq].
      rewrite Ha1, Ha2, Hb1, Hb2, Hax, Hay, Hbx, Hby, <- Hx, <- Hy.
      repeat split; ring.
    + rewrite HL, Hv, (isLINE_not_TEXT _ HL).
      repeat (split; [reflexivity|]). split; discriminate.
  - destruct (isTEXT entity) eqn:HT.
    + destruct (e_position entity) as [p|] eqn:Hp.
      * unfold isLINE, isTEXT in *.
        cbn [e_id e_type e_text e_selected e_vertices e_position].
        rewrite HL, HT.
        cbn [e_id e_type e_text e_selected e_vertices e_position].
        repeat (split; [reflexivity|]). split; [discriminate|].
        intros _ p0 [= <-] Hf.
        destruct (finitePoint_qpoint _ Hf) as (x & y & ->).
        eexists. split; [reflexivity|].
        unfold shift, qpoint, point_eq; cbn [p_x p_y].
        destruct (orZero_fin x) as (x' & -> & Hx').
        destruct (orZero_fin y) as (y' & -> & Hy').
        cbn [nadd].
        destruct (orZero_fin (x' + dx1)) as (a1 & -> & Ha1).
        destruct (orZero_fin (y' + dy1)) as (a2 & -> & Ha2).
        cbn [nadd num_eq].
        rewrite Ha1, Ha2, Hx', Hy', <- Hx, <- Hy. split; ring.
      * rewrite HL, HT, Hp.
        repeat (split; [reflexivity|]). split; discriminate.
    + rewrite HL, HT. repeat (split; [reflexivity|]). split; discriminate.
Qed.

(** X14. Successive pointer moves of one drag add up when the scale
    stays what it is between them (the fit effect does not run): after
    two moves of a moved selection at a scale [sc > 0], from the pointer
    position
    [(ox, oy)] by way of any position to [(cx, cy)], every selected
    entity is translated by the world delta of the whole way,
    [((cx - ox)/sc, -(cy - oy)/sc)], and every other entity is what it
    was; a drag that comes back to where it started leaves every
    coordinate as it was. *)
Theorem drag_moves_add_up (e1 e2 : MouseEvent) (s : State)
                          (sc mx my cx cy ox oy : Q) :
  isMovingSelection s = true ->
  selectedEntityIds s <> [] ->
  selectionStart s = None \/ mode s = move ->
  scale s = Fin sc -> 0 < sc ->
  dragStart s = qpoint ox oy ->
  clientX e1 = Fin mx -> clientY e1 = Fin my ->
  clientX e2 = Fin cx -> clientY e2 = Fin cy ->
  Forall2 (movedBy (selectedEntityIds s)
             (qpoint ((cx - ox) / sc) (- (cy - oy) / sc)))
          (entities s)
          (entities (handleMouseMove e2 (handleMouseMove e1 s))).
Proof.
  intros Hmov Hsel Hbox Hsc Hpos Hds H1x H1y H2x H2y.
  rewrite (handleMouseMove_moving e1 s sc mx my ox oy) by assumption.
  rewrite (handleMouseMove_moving e2 _ sc cx cy mx my)
    by (try assumption; reflexivity).
  cbn [entities selectedEntityIds setDragStart setEntities].
  rewrite map_map. apply Forall2_map_right. intro entity.
  unfold movedBy, moveSelected.
  destruct (includes (selectedEntityIds s) (e_id entity)) eqn:Hinc;
    cbn [negb].
  - rewrite translateEntity_id, Hinc. cbn [negb].
    assert (Hne : ~ sc == 0) by (intro E; rewrite E in Hpos; discriminate).
    apply translateEntity_twice; field; exact Hne.
  - rewrite Hinc. reflexivity.
Qed.

Lemma drag_moves_add_up_witness :
  Forall2 (movedBy ["l1"%string]
             (qpoint ((100 - 100) / 2) (- (100 - 100) / 2)))
          [scenarioC_line]
          (entities (handleMouseMove (mkMouse (Fin 100) (Fin 100) 0
                                              (Fin 0) (Fin 0))
                       (handleMouseMove scenarioC_event scenarioC_state))).
Proof.
  apply (drag_moves_add_up scenarioC_event
           (mkMouse (Fin 100) (Fin 100) 0 (Fin 0) (Fin 0)) scenarioC_state
           2 110 100 100 100 100 100);
    try reflexivity; [discriminate | right; reflexivity].
Defined.

(** X15. Panning drags the drawing with the pointer: a pointer move
    while the view is panned (no selection is moved and no box is open)
    leaves the store, the selection and the scale as they are and adds
    the screen delta of the pointer to the pan, so that every world
    point is drawn displaced by exactly that delta. *)
Theorem panning_moves_the_drawing (e : MouseEvent) (s : State)
                                  (panx pany ox oy cx cy : Q) :
  isDragging s = true ->
  isMovingSelection s = false \/ selectedEntityIds s = [] ->
  selectionStart s = None \/ mode s = move ->
  pan s = qpoint panx pany -> dragStart s = qpoint ox oy ->
  clientX e = Fin cx -> clientY e = Fin cy ->
  let s' := handleMouseMove e s in
  entities s' = entities s /\ selectedEntityIds s' = selectedEntityIds s /\
  scale s' = scale s /\ dragStart s' = qpoint cx cy /\
  forall sc x y : Q,
    worldToScreen (Fin sc) (pan s') (qpoint x y)
    =p= shift (qpoint (cx - ox) (cy - oy))
              (worldToScreen (Fin sc) (pan s) (qpoint x y)).
Proof.
  intros Hdrag Hmov Hbox Hpan Hds Hcx Hcy s'.
  assert (Hs' : s' = setDragStart (qpoint cx cy)
                       (setPan (qpoint (panx + (cx + - ox))
                                       (pany + (cy + - oy))) s)).
  { unfold s', handleMouseMove. rewrite Hdrag, Hpan, Hds, Hcx, Hcy.
    assert (Hnm : isMovingSelection s && nonEmpty (selectedEntityIds s)
                  = false).
    { destruct Hmov as [-> | ->]; [reflexivity | apply andb_false_r]. }
    rewrite Hnm.
    destruct Hbox as [-> | ->]; [reflexivity|].
    destruct (selectionStart s); reflexivity. }
  rewrite Hs'. repeat (split; [reflexivity|]).
  intros sc x y. rewrite Hpan.
  unfold worldToScreen, shift, qpoint, point_eq, setDragStart, setPan.
  cbn [pan p_x p_y nadd nmul nneg num_eq]. split; ring.
Qed.

Lemma panning_moves_the_drawing_witness :
  let e := mkMouse (Fin 130) (Fin 90) 0 (Fin 0) (Fin 0) in
  let s := setDragStart (qpoint 100 100)
             (setIsDragging true (setMode move initialState)) in
  let s' := handleMouseMove e s in
  entities s' = entities s /\ selectedEntityIds s' = selectedEntityIds s /\
  scale s' = scale s /\ dragStart s' = qpoint 130 90 /\
  forall sc x y : Q,
    worldToScreen (Fin sc) (pan s') (qpoint x y)
    =p= shift (qpoint (130 - 100) (90 - 100))
              (worldToScreen (Fin sc) (pan s) (qpoint x y)).
Proof.
  apply (panning_moves_the_drawing
           (mkMouse (Fin 130) (Fin 90) 0 (Fin 0) (Fin 0))
           (setDragStart (qpoint 100 100)
              (setIsDragging true (setMode move initialState)))
           0 0 100 100 130 90);
    try reflexivity; left; reflexivity.
Defined.







(** X17. A wheel step down and a wheel step up do not cancel: with the
    pointer at one place, the one after the other, in either order,
    multiplies the scale by 0.95 * 1.05 = 0.9975, so the scale ends
    below the scale it started from. *)
Theorem wheel_down_and_up_shrinks (e : MouseEvent) (s : State)
                                  (down up : num) (sc : Q) :
  (down >? Fin 0)%num = true -> (up >? Fin 0)%num = false ->
  scale s = Fin sc -> 0 < sc ->
  exists sc', scale (handleWheel up e (handleWheel down e s)) = Fin sc' /\
              scale (handleWheel down e (handleWheel up e s)) =n= Fin sc' /\
              sc' == sc * (9975 # 10000) /\ sc' < sc.
Proof.
  intros Hd Hu Hsc Hpos. unfold handleWheel, zoomAt. rewrite Hd, Hu.
  cbn [scale setPan setScale]. rewrite Hsc. cbn [nmul].
  eexists. split; [reflexivity|]. split; [simpl; ring|].
  split; [ring|]. lra.
Qed.

Lemma wheel_down_and_up_shrinks_witness :
  exists sc',
    scale (handleWheel (Fin (-1)) clickAtOrigin
             (handleWheel (Fin 1) clickAtOrigin initialState)) = Fin sc' /\
    scale (handleWheel (Fin 1) clickAtOrigin
             (handleWheel (Fin (-1)) clickAtOrigin initialState))
    =n= Fin sc' /\
    sc' == 1 * (9975 # 10000) /\ sc' < 1.
Proof.
  apply (wheel_down_and_up_shrinks clickAtOrigin initialState
           (Fin 1) (Fin (-1)) 1); reflexivity.
Defined.

(* ================================================================== *)
(** ** Further properties: the bounds and the fit transform *)
(* ================================================================== *)

Lemma nmin_fin_spec (m : num) (x x' : Q) :
  m = PInf \/ finite m -> x' == x ->
  exists r, nmin m (Fin x') = Fin r /\ r <= x /\
            forall q, (m <=? Fin q)%num = true -> r <= q.
Proof.
  intros [Hm | Hm] Hx.
  - subst m. exists x'. split; [reflexivity|]. split; [lra|]. discriminate.
  - destruct m as [a| | |]; try contradiction. simpl.
    destruct (Qle_bool a x') eqn:E.
    + apply Qle_bool_iff in E. exists a. split; [reflexivity|].
      split; [lra|]. intros q Hq. apply Qle_bool_iff in Hq. exact Hq.
    + apply Qle_bool_gt in E. exists x'. split; [reflexivity|].
      split; [lra|]. intros q Hq. apply Qle_bool_iff in Hq. lra.
Qed.

Lemma nmax_fin_spec (m : num) (x x' : Q) :
  m = NInf \/ finite m -> x' == x ->
  exists r, nmax m (Fin x') = Fin r /\ x <= r /\
            forall q, (Fin q <=? m)%num = true -> q <= r.
Proof.
  intros [Hm | Hm] Hx.
  - subst m. exists x'. split; [reflexivity|]. split; [lra|]. discriminate.
  - destruct m as [a| | |]; try contradiction. simpl.
    destruct (Qle_bool a x') eqn:E.
    + apply Qle_bool_iff in E. exists x'. split; [reflexivity|].
      split; [lra|]. intros q Hq. apply Qle_bool_iff in Hq. lra.
    + apply Qle_bool_gt in E. exists a. split; [reflexivity|].
      split; [lra|]. intros q Hq. apply Qle_bool_iff in Hq. exact Hq.
Qed.

(** Folding one more finite point into the bounds: the bounds become
    finite, hold the point and still hold what they held. *)
Lemma bounds_add_point (acc : Bounds) (x y : Q) :
  foldedBounds acc ->
  let b := mkBounds (nmin (minX acc) (orZero (Fin x)))
                    (nmin (minY acc) (orZero (Fin y)))
                    (nmax (maxX acc) (orZero (Fin x)))
                    (nmax (maxY acc) (orZero (Fin y))) in
  foldedBounds b /\ inBounds b (qpoint x y) /\
  forall q, finitePoint q -> inBounds acc q -> inBounds b q.
Proof.
  intros (H1 & H2 & H3 & H4) b. unfold b.
  destruct (orZero_fin x) as (x' & -> & Hx).
  destruct (orZero_fin y) as (y' & -> & Hy).
  destruct (nmin_fin_spec (minX acc) x x' H1 Hx) as (a & -> & Ha & Ha').
  destruct (nmin_fin_spec (minY acc) y y' H2 Hy) as (b0 & -> & Hb & Hb').
  destruct (nmax_fin_spec (maxX acc) x x' H3 Hx) as (c & -> & Hc & Hc').
  destruct (nmax_fin_spec (maxY acc) y y' H4 Hy) as (d & -> & Hd & Hd').
  split; [|split].
  - repeat split; right; exact I.
  - unfold inBounds, pointInBounds, qpoint. cbn [p_x p_y minX minY maxX maxY
                                                  nge nle].
    rewrite !andb_true_iff, !Qle_bool_iff. tauto.
  - intros q Hq. destruct (finitePoint_qpoint q Hq) as (qx & qy & ->).
    unfold inBounds, pointInBounds, qpoint.
    cbn [p_x p_y minX minY maxX maxY nge]. rewrite !andb_true_iff.
    intros (((Q1 & Q2) & Q3) & Q4). unfold nge in *. cbn [nle].
    rewrite !Qle_bool_iff.
    repeat split; [apply Ha' | apply Hc' | apply Hb' | apply Hd'];
      assumption.
Qed.

Lemma boundsStep_spec (acc : Bounds) (entity : Entity) :
  foldedBounds acc ->
  (forall p, In p (entityPoints entity) -> finitePoint p) ->
  foldedBounds (boundsStep acc entity) /\
  (forall p, In p (entityPoints entity) ->
             inBounds (boundsStep acc entity) p) /\
  (forall q, finitePoint q -> inBounds acc q ->
             inBounds (boundsStep acc entity) q).
Proof.
  intros Hacc Hfin. unfold boundsStep, entityPoints in *.
  destruct (isLINE entity) eqn:HL;
    [destruct (e_vertices entity) as [[v0 v1]|] eqn:Hv|].
  - rewrite (isLINE_not_TEXT _ HL).
    destruct (finitePoint_qpoint v0 (Hfin v0 (or_introl eq_refl)))
      as (x0 & y0 & ->).
    destruct (finitePoint_qpoint v1 (Hfin v1 (or_intror (or_introl eq_refl))))
      as (x1 & y1 & ->).
    qpoint_coords. unfold nmin3, nmax3.
    destruct (bounds_add_point acc x0 y0 Hacc) as (G1 & I1 & K1).
    destruct (bounds_add_point _ x1 y1 G1) as (G2 & I2 & K2).
    cbn [minX minY maxX maxY] in G2, I2, K2.
    split; [exact G2|]. split.
    + intros p [<-|[<-|[]]]; [|exact I2].
      apply K2; [split; exact I | exact I1].
    + intros q Hq Hin. apply K2; [exact Hq|]. apply K1; assumption.
  - rewrite (isLINE_not_TEXT _ HL).
    split; [exact Hacc|]. split; [intros p []|auto].
  - destruct (isTEXT entity); [destruct (e_position entity) as [p|]|];
      try (split; [exact Hacc|]; split; [intros q []|auto]).
    destruct (finitePoint_qpoint p (Hfin p (or_introl eq_refl)))
      as (x0 & y0 & ->).
    qpoint_coords.
    destruct (bounds_add_point acc x0 y0 Hacc) as (G1 & I1 & K1).
    split; [exact G1|]. split; [|exact K1].
    intros q [<-|[]]. exact I1.
Qed.

Lemma fold_boundsStep_spec (es : list Entity) (acc : Bounds) :
  foldedBounds acc ->
  (forall p, In p (storePoints es) -> finitePoint p) ->
  foldedBounds (fold_left boundsStep es acc) /\
  (forall p, In p (storePoints es) ->
             inBounds (fold_left boundsStep es acc) p) /\
  (forall q, finitePoint q -> inBounds acc q ->
             inBounds (fold_left boundsStep es acc) q).
Proof.
  revert acc. induction es as [|e es IH]; intros acc Hacc Hfin; simpl.
  - split; [exact Hacc|]. split; [intros p []|auto].
  - unfold storePoints in Hfin. simpl in Hfin.
    destruct (boundsStep_spec acc e Hacc) as (G1 & I1 & K1).
    { intros p Hp. apply Hfin. apply in_or_app. left. exact Hp. }
    destruct (IH (boundsStep acc e) G1) as (G2 & I2 & K2).
    { intros p Hp. apply Hfin. apply in_or_app. right. exact Hp. }
    split; [exact G2|]. split.
    + intros p Hp. unfold storePoints in Hp. simpl in Hp.
      apply in_app_or in Hp. destruct Hp as [Hp|Hp].
      * apply K2; [|apply I1; exact Hp]. apply Hfin. apply in_or_app.
        left. exact Hp.
      * apply I2. exact Hp.
    + intros q Hq Hin. apply K2; [exact Hq|]. apply K1; assumption.
Qed.

Lemma initial_bounds_folded : foldedBounds (mkBounds PInf PInf NInf NInf).
Proof. repeat split; left; reflexivity. Qed.

(** The bounds folded over a store that has a point, all points being
    finite: a finite rectangle that holds every point of the store. *)
Lemma raw_bounds_of_store (es : list Entity) (p : Point) :
  (forall q, In q (storePoints es) -> finitePoint q) ->
  In p (storePoints es) ->
  exists a b c d,
    fold_left boundsStep es (mkBounds PInf PInf NInf NInf)
    = mkBounds (Fin a) (Fin b) (Fin c) (Fin d) /\
    a <= c /\ b <= d /\
    forall x y, In (qpoint x y) (storePoints es) ->
                a <= x <= c /\ b <= y <= d.
Proof.
  intros Hfin Hp.
  destruct (fold_boundsStep_spec es _ initial_bounds_folded Hfin)
    as (G & I & _).
  set (B := fold_left boundsStep es (mkBounds PInf PInf NInf NInf)) in *.
  assert (Hin := I p Hp).
  destruct (finitePoint_qpoint p (Hfin p Hp)) as (px & py & ->).
  destruct B as [m1 m2 m3 m4]. destruct G as (G1 & G2 & G3 & G4).
  cbn [minX minY maxX maxY] in *.
  unfold inBounds, pointInBounds, qpoint in Hin.
  cbn [p_x p_y minX minY maxX maxY nge] in Hin.
  rewrite !andb_true_iff in Hin. destruct Hin as (((Q1 & Q2) & Q3) & Q4).
  unfold nge in *.
  destruct m1 as [a| | |]; cbn [nle] in Q1; try discriminate;
    try (exfalso; destruct G1 as [G1|G1]; [discriminate G1 | exact G1]);
    destruct m2 as [b| | |]; cbn [nle] in Q3; try discriminate;
    try (exfalso; destruct G2 as [G2|G2]; [discriminate G2 | exact G2]);
    destruct m3 as [c| | |]; cbn [nle] in Q2; try discriminate;
    try (exfalso; destruct G3 as [G3|G3]; [discriminate G3 | exact G3]);
    destruct m4 as [d| | |]; cbn [nle] in Q4; try discriminate;
    try (exfalso; destruct G4 as [G4|G4]; [discriminate G4 | exact G4]).
  apply Qle_bool_iff in Q1, Q2, Q3, Q4.
  exists a, b, c, d. split; [reflexivity|].
  split; [lra|]. split; [lra|].
  intros x y Hxy. specialize (I _ Hxy).
  unfold inBounds, pointInBounds, qpoint, nge in I.
  cbn [p_x p_y minX minY maxX maxY nle] in I.
  rewrite !andb_true_iff, !Qle_bool_iff in I. tauto.
Qed.

Lemma storePoints_nonempty (es : list Entity) (p : Point) :
  In p (storePoints es) -> exists e rest, es = e :: rest.
Proof.
  destruct es as [|e rest]; [intros [] | eauto].
Qed.

(** [calculateBounds] on a store whose folded bounds are the finite
    rectangle from [(a, b)] to [(c, d)]: the rectangle, padded on its
    four sides by a tenth of its larger side. *)
Lemma calculateBounds_closed (es : list Entity) (e : Entity) (a b c d : Q) :
  fold_left boundsStep (e :: es) (mkBounds PInf PInf NInf NInf)
  = mkBounds (Fin a) (Fin b) (Fin c) (Fin d) ->
  a <= c -> b <= d ->
  exists pad,
    calculateBounds (e :: es)
    = mkBounds (Fin (a + - pad)) (Fin (b + - pad))
               (Fin (c + pad)) (Fin (d + pad)) /\
    (c - a) / 10 <= pad /\ (d - b) / 10 <= pad /\
    (pad == (c - a) / 10 \/ pad == (d - b) / 10).
Proof.
  intros Hfold Hac Hbd. unfold calculateBounds. rewrite Hfold.
  cbn [minX minY maxX maxY nsub nadd nneg nmax nle].
  destruct (Qle_bool (c + - a) (d + - b)) eqn:E; cbn [nmul nadd nsub nneg];
    eexists; (split; [reflexivity|]).
  - apply Qle_bool_iff in E. repeat split; try (right; field); (* *)
      try (apply Qle_shift_div_r; [reflexivity|]); lra.
  - apply Qle_bool_gt in E. repeat split; try (left; field);
      try (apply Qle_shift_div_r; [reflexivity|]); lra.
Qed.

Lemma nmin_either (a b : num) : nmin a b = a \/ nmin a b = b.
Proof.
  destruct a, b; simpl; auto; destruct (Qle_bool _ _); auto.
Qed.

Lemma nmax_either (a b : num) : nmax a b = a \/ nmax a b = b.
Proof.
  destruct a, b; simpl; auto; destruct (Qle_bool _ _); auto.
Qed.

Lemma orZero_num_eq (x : Q) : orZero (Fin x) =n= Fin x.
Proof.
  destruct (orZero_fin x) as (x' & -> & Hx). exact Hx.
Qed.

Lemma attained_more (v start : num) (coord : Point -> num)
                    (P P' : list Point) :
  incl P P' -> attained v start coord P -> attained v start coord P'.
Proof.
  intros Hi [H | (p & Hp & E)]; [left; exact H|].
  right. exists p. split; [apply Hi; exact Hp | exact E].
Qed.

Lemma attained_nmin (m : num) (P : list Point) (coord : Point -> num)
                    (start : num) (p : Point) (x : Q) :
  coord p = Fin x -> In p P ->
  attained m start coord P ->
  attained (nmin m (orZero (Fin x))) start coord P.
Proof.
  intros Hc Hp Hm. destruct (nmin_either m (orZero (Fin x))) as [-> | ->];
    [exact Hm|].
  right. exists p. split; [exact Hp|]. rewrite Hc. apply orZero_num_eq.
Qed.

Lemma attained_nmax (m : num) (P : list Point) (coord : Point -> num)
                    (start : num) (p : Point) (x : Q) :
  coord p = Fin x -> In p P ->
  attained m start coord P ->
  attained (nmax m (orZero (Fin x))) start coord P.
Proof.
  intros Hc Hp Hm. destruct (nmax_either m (orZero (Fin x))) as [-> | ->];
    [exact Hm|].
  right. exists p. split; [exact Hp|]. rewrite Hc. apply orZero_num_eq.
Qed.

Lemma attainedBounds_more (b : Bounds) (P P' : list Point) :
  incl P P' -> attainedBounds b P -> attainedBounds b P'.
Proof.
  intros Hi (H1 & H2 & H3 & H4).
  repeat split; eapply attained_more; eassumption.
Qed.

Lemma attained_add_point (acc : Bounds) (P : list Point) (x y : Q) :
  In (qpoint x y) P -> attainedBounds acc P ->
  attainedBounds
    (mkBounds (nmin (minX acc) (orZero (Fin x)))
              (nmin (minY acc) (orZero (Fin y)))
              (nmax (maxX acc) (orZero (Fin x)))
              (nmax (maxY acc) (orZero (Fin y)))) P.
Proof.
  intros Hp (H1 & H2 & H3 & H4). unfold attainedBounds.
  cbn [minX minY maxX maxY].
  repeat split;
    [apply (attained_nmin _ _ _ _ (qpoint x y))
    |apply (attained_nmin _ _ _ _ (qpoint x y))
    |apply (attained_nmax _ _ _ _ (qpoint x y))
    |apply (attained_nmax _ _ _ _ (qpoint x y))];
    try assumption; reflexivity.
Qed.

Lemma boundsStep_attained (acc : Bounds) (entity : Entity)
                          (P : list Point) :
  (forall p, In p (entityPoints entity) -> finitePoint p) ->
  attainedBounds acc P ->
  attainedBounds (boundsStep acc entity) (P ++ entityPoints entity).
Proof.
  intros Hfin Hacc.
  assert (Hacc' : attainedBounds acc (P ++ entityPoints entity))
    by (apply (attainedBounds_more acc P); [apply incl_appl, incl_refl
                                           | exact Hacc]).
  unfold boundsStep, entityPoints in *.
  destruct (isLINE entity) eqn:HL;
    [destruct (e_vertices entity) as [[v0 v1]|] eqn:Hv|].
  - rewrite (isLINE_not_TEXT _ HL).
    destruct (finitePoint_qpoint v0 (Hfin v0 (or_introl eq_refl)))
      as (x0 & y0 & ->).
    destruct (finitePoint_qpoint v1 (Hfin v1 (or_intror (or_introl eq_refl))))
      as (x1 & y1 & ->).
    qpoint_coords. unfold nmin3, nmax3.
    apply (attained_add_point
             (mkBounds (nmin (minX acc) (orZero (Fin x0)))
                       (nmin (minY acc) (orZero (Fin y0)))
                       (nmax (maxX acc) (orZero (Fin x0)))
                       (nmax (maxY acc) (orZero (Fin y0)))) _ x1 y1).
    + apply in_or_app. right. simpl. auto.
    + apply attained_add_point; [|exact Hacc'].
      apply in_or_app. right. simpl. auto.
  - rewrite (isLINE_not_TEXT _ HL) in *. exact Hacc'.
  - destruct (isTEXT entity); [destruct (e_position entity) as [p|]|];
      try exact Hacc'.
    destruct (finitePoint_qpoint p (Hfin p (or_introl eq_refl)))
      as (x0 & y0 & ->).
    qpoint_coords. apply attained_add_point; [|exact Hacc'].
    apply in_or_app. right. simpl. auto.
Qed.

Lemma fold_boundsStep_attained (es : list Entity) (acc : Bounds)
                               (P : list Point) :
  (forall p, In p (storePoints es) -> finitePoint p) ->
  attainedBounds acc P ->
  attainedBounds (fold_left boundsStep es acc) (P ++ storePoints es).
Proof.
  revert acc P. induction es as [|e es IH]; intros acc P Hfin Hacc; simpl.
  - unfold storePoints. simpl. rewrite app_nil_r. exact Hacc.
  - unfold storePoints in *. simpl in *. rewrite app_assoc. apply IH.
    + intros p Hp. apply Hfin. apply in_or_app. right. exact Hp.
    + apply boundsStep_attained; [|exact Hacc].
      intros p Hp. apply Hfin. apply in_or_app. left. exact Hp.
Qed.

(** X18. The bounds of [calculateBounds] frame the store exactly: for a
    store of finite points that has a point, they are the rectangle
    [a..c] x [b..d] padded on its four sides by a tenth of its larger
    side, where every end point of a line and every position of a text
    lies in [a..c] x [b..d] and each of [a], [b], [c], [d] is a
    coordinate of one of these points; so every point of the store lies
    within the bounds. *)
Theorem calculateBounds_frames_the_store (es : list Entity) (p : Point) :
  (forall q, In q (storePoints es) -> finitePoint q) ->
  In p (storePoints es) ->
  inBounds (calculateBounds es) p /\
  exists a b c d pad,
    calculateBounds es
    = mkBounds (Fin (a + - pad)) (Fin (b + - pad))
               (Fin (c + pad)) (Fin (d + pad)) /\
    (forall x y, In (qpoint x y) (storePoints es) ->
                 a <= x <= c /\ b <= y <= d) /\
    (exists pa pb pc pd,
        (In pa (storePoints es) /\ p_x pa =n= Fin a) /\
        (In pb (storePoints es) /\ p_y pb =n= Fin b) /\
        (In pc (storePoints es) /\ p_x pc =n= Fin c) /\
        (In pd (storePoints es) /\ p_y pd =n= Fin d)) /\
    (c - a) / 10 <= pad /\ (d - b) / 10 <= pad /\
    (pad == (c - a) / 10 \/ pad == (d - b) / 10).
Proof.
  intros Hfin Hp.
  destruct (raw_bounds_of_store es p Hfin Hp)
    as (a & b & c & d & Hfold & Hac & Hbd & Hall).
  destruct (storePoints_nonempty es p Hp) as (e & rest & ->).
  destruct (calculateBounds_closed rest e a b c d Hfold Hac Hbd)
    as (pad & Hcb & Hp1 & Hp2 & Hp3).
  assert (Hpad : 0 <= pad).
  { assert (0 <= (c - a) / 10) by (apply Qdiv_pos; [lra | reflexivity]).
    lra. }
  split.
  - destruct (finitePoint_qpoint p (Hfin p Hp)) as (x & y & ->).
    destruct (Hall x y Hp) as [Hx Hy]. rewrite Hcb.
    unfold inBounds, pointInBounds, qpoint, nge.
    cbn [p_x p_y minX minY maxX maxY nle].
    rewrite !andb_true_iff, !Qle_bool_iff. repeat split; lra.
  - exists a, b, c, d, pad. split; [exact Hcb|]. split; [exact Hall|].
    split; [|tauto].
    assert (Hatt := fold_boundsStep_attained (e :: rest)
                      (mkBounds PInf PInf NInf NInf) [] Hfin).
    rewrite Hfold in Hatt. cbn [app] in Hatt.
    destruct Hatt as (A1 & A2 & A3 & A4).
    { repeat split; left; reflexivity. }
    cbn [minX minY maxX maxY] in *.
    destruct A1 as [A1 | (pa & Ia & Ea)]; [discriminate|].
    destruct A2 as [A2 | (pb & Ib & Eb)]; [discriminate|].
    destruct A3 as [A3 | (pc & Ic & Ec)]; [discriminate|].
    destruct A4 as [A4 | (pd & Id & Ed)]; [discriminate|].
    exists pa, pb, pc, pd.
    repeat split; try assumption; apply num_eq_sym; assumption.
Qed.

Lemma calculateBounds_frames_the_store_witness :
  inBounds (calculateBounds [scenarioC_line; textAB]) (qpoint 10 0) /\
  exists a b c d pad,
    calculateBounds [scenarioC_line; textAB]
    = mkBounds (Fin (a + - pad)) (Fin (b + - pad))
               (Fin (c + pad)) (Fin (d + pad)) /\
    (forall x y, In (qpoint x y) (storePoints [scenarioC_line; textAB]) ->
                 a <= x <= c /\ b <= y <= d) /\
    (exists pa pb pc pd,
        (In pa (storePoints [scenarioC_line; textAB]) /\ p_x pa =n= Fin a) /\
        (In pb (storePoints [scenarioC_line; textAB]) /\ p_y pb =n= Fin b) /\
        (In pc (storePoints [scenarioC_line; textAB]) /\ p_x pc =n= Fin c) /\
        (In pd (storePoints [scenarioC_line; textAB]) /\ p_y pd =n= Fin d)) /\
    (c - a) / 10 <= pad /\ (d - b) / 10 <= pad /\
    (pad == (c - a) / 10 \/ pad == (d - b) / 10).
Proof.
  apply (calculateBounds_frames_the_store [scenarioC_line; textAB]
           (qpoint 10 0)).
  - intros q [<-|[<-|[<-|[]]]]; split; exact I.
  - simpl. auto.
Defined.

(** The scale of the fit effect for bounds of the width [bw] and the
    height [bh], both above zero. *)
Lemma fit_scale_spec (w h bw bh : Q) :
  0 < w -> 0 < h -> 0 < bw -> 0 < bh ->
  exists k,
    (nmin (Fin w / Fin bw) (Fin h / Fin bh) * Fin (9 # 10))%num = Fin k /\
    0 < k /\ bw * k <= w * (9 # 10) /\ bh * k <= h * (9 # 10) /\
    (bw * k == w * (9 # 10) \/ bh * k == h * (9 # 10)).
Proof.
  intros Hw Hh Hbw Hbh. rewrite !ndiv_pos by assumption.
  assert (E1 : bw * (w / bw) == w) by (apply Qmult_div_r; lra).
  assert (E2 : bh * (h / bh) == h) by (apply Qmult_div_r; lra).
  assert (P1 : 0 < w / bw) by (apply Qlt_shift_div_l; lra).
  assert (P2 : 0 < h / bh) by (apply Qlt_shift_div_l; lra).
  cbn [nmin nle]. destruct (Qle_bool (w / bw) (h / bh)) eqn:E; cbn [nmul].
  - apply Qle_bool_iff in E.
    exists (w / bw * (9 # 10)). split; [reflexivity|].
    assert (M : bh * (w / bw) <= bh * (h / bh))
      by (rewrite !(Qmult_comm bh); apply Qmult_le_compat_r; lra).
    revert E1 E2 M P1. generalize (w / bw), (h / bh). intros u v E1 E2 M P1.
    repeat split; lra.
  - apply Qle_bool_gt in E.
    exists (h / bh * (9 # 10)). split; [reflexivity|].
    assert (M : bw * (h / bh) <= bw * (w / bw))
      by (rewrite !(Qmult_comm bw); apply Qmult_le_compat_r; lra).
    revert E1 E2 M P2. generalize (w / bw), (h / bh). intros u v E1 E2 M P2.
    repeat split; lra.
Qed.

(** Where the fit transform draws an abscissa [x] of the bounds
    [lo .. lo + bw]. *)
Lemma fit_arith_x (w bw k x lo : Q) :
  0 <= k -> bw * k <= w * (9 # 10) -> lo <= x <= lo + bw ->
  w * (1 # 20) <= x * k + (w / 2 + - ((lo + bw / 2) * k))
               <= w * (1 # 20) + w * (9 # 10).
Proof.
  intros Hk Hs [H1 H2].
  assert (A : 0 <= (x - lo) * k) by (apply Qmult_le_0_compat; lra).
  assert (B : 0 <= (lo + bw - x) * k) by (apply Qmult_le_0_compat; lra).
  assert (E : x * k + (w / 2 + - ((lo + bw / 2) * k))
              == w * (1 # 2) + ((x - lo) * k - bw * k * (1 # 2)))
    by (field).
  assert (F : (lo + bw - x) * k == bw * k - (x - lo) * k) by ring.
  rewrite E. rewrite F in B. revert A B Hs.
  generalize ((x - lo) * k), (bw * k). intros u v A B Hs. lra.
Qed.

(** Where the fit transform draws an ordinate [y] of the bounds
    [lo .. lo + bh]. *)
Lemma fit_arith_y (h bh k y lo : Q) :
  0 <= k -> bh * k <= h * (9 # 10) -> lo <= y <= lo + bh ->
  h * (1 # 20) <= - y * k + (h / 2 + (lo + bh / 2) * k)
               <= h * (1 # 20) + h * (9 # 10).
Proof.
  intros Hk Hs [H1 H2].
  assert (A : 0 <= (y - lo) * k) by (apply Qmult_le_0_compat; lra).
  assert (B : 0 <= (lo + bh - y) * k) by (apply Qmult_le_0_compat; lra).
  assert (E : - y * k + (h / 2 + (lo + bh / 2) * k)
              == h * (1 # 2) + (bh * k * (1 # 2) - (y - lo) * k))
    by (field).
  assert (F : (lo + bh - y) * k == bh * k - (y - lo) * k) by ring.
  rewrite E. rewrite F in B. revert A B Hs.
  generalize ((y - lo) * k), (bh * k). intros u v A B Hs. lra.
Qed.

(** X19. The fit effect frames the drawing: in a canvas of positive
    width and height, for a store of finite points two of which differ,
    the scale it sets is finite and above zero, the pan is finite, every
    end point of a line and every position of a text is drawn within the
    canvas at least a twentieth of its width from the left and the right
    edge and a twentieth of its height from the top and the bottom edge,
    and the bounds of the store span exactly nine tenths of the width or
    of the height of the canvas. *)
Theorem fit_frames_the_store (props : Props) (s : State) (w h : Q)
                             (p q : Point) :
  width props = Fin w -> height props = Fin h -> 0 < w -> 0 < h ->
  (forall r, In r (storePoints (entities s)) -> finitePoint r) ->
  In p (storePoints (entities s)) -> In q (storePoints (entities s)) ->
  ~ p =p= q ->
  let s' := effectFit props s in
  let b := calculateBounds (entities s) in
  positive (scale s') /\ finitePoint (pan s') /\
  (forall r, In r (storePoints (entities s)) ->
             inBox (fitFrame w h) (worldToScreen (scale s') (pan s') r)) /\
  (((maxX b - minX b) * scale s' =n= Fin (w * (9 # 10)))%num \/
   ((maxY b - minY b) * scale s' =n= Fin (h * (9 # 10)))%num).
Proof.
  intros Hw Hh Hwp Hhp Hfin Hp Hq Hpq s' b.
  destruct (raw_bounds_of_store _ p Hfin Hp)
    as (a0 & b0 & c0 & d0 & Hfold & Hac & Hbd & Hall).
  destruct (storePoints_nonempty _ p Hp) as (e & rest & Hes).
  rewrite Hes in Hfold.
  destruct (calculateBounds_closed rest e a0 b0 c0 d0 Hfold Hac Hbd)
    as (pad & Hcb & Hp1 & Hp2 & Hp3).
  rewrite <- Hes in Hcb.
  assert (Hext : a0 < c0 \/ b0 < d0).
  { destruct (Qlt_le_dec a0 c0) as [L|L]; [left; exact L|].
    destruct (Qlt_le_dec b0 d0) as [L'|L']; [right; exact L'|].
    exfalso. apply Hpq.
    destruct (finitePoint_qpoint p (Hfin p Hp)) as (px & py & ->).
    destruct (finitePoint_qpoint q (Hfin q Hq)) as (qx & qy & ->).
    destruct (Hall px py Hp) as [X1 Y1].
    destruct (Hall qx qy Hq) as [X2 Y2].
    split; cbn [p_x p_y qpoint num_eq]; lra. }
  assert (Hpad : 0 < pad).
  { assert (0 <= (c0 - a0) / 10) by (apply Qdiv_pos; [lra | reflexivity]).
    assert (0 <= (d0 - b0) / 10) by (apply Qdiv_pos; [lra | reflexivity]).
    destruct Hext as [L|L].
    - assert (0 < (c0 - a0) / 10) by (apply Qlt_shift_div_l; lra). lra.
    - assert (0 < (d0 - b0) / 10) by (apply Qlt_shift_div_l; lra). lra. }
  set (bw := c0 + pad + - (a0 + - pad)).
  set (bh := d0 + pad + - (b0 + - pad)).
  assert (Hbw : 0 < bw) by (unfold bw; lra).
  assert (Hbh : 0 < bh) by (unfold bh; lra).
  destruct (fit_scale_spec w h bw bh Hwp Hhp Hbw Hbh)
    as (k & Hk & Hk0 & Hkw & Hkh & Htight).
  assert (Hs' : scale s' = Fin k /\
                pan s' = qpoint (w / 2 + - ((a0 + - pad + bw / 2) * k))
                                (h / 2 + (b0 + - pad + bh / 2) * k)).
  { unfold s', effectFit, fitTransform. rewrite Hcb, Hw, Hh.
    cbn [minX minY maxX maxY nsub nadd nneg]. fold bw. fold bh.
    rewrite Hk. rewrite !ndiv_pos by reflexivity.
    cbn [nmul nadd nsub nneg]. rewrite Hes.
    split; reflexivity. }
  destruct Hs' as [Hsc Hpan]. rewrite Hsc, Hpan.
  split; [exact Hk0|]. split; [split; exact I|]. split.
  - intros r Hr. destruct (finitePoint_qpoint r (Hfin r Hr)) as (x & y & ->).
    destruct (Hall x y Hr) as [Hx Hy].
    unfold inBox, fitFrame, worldToScreen, qpoint.
    cbn [p_x p_y b_x b_y b_width b_height nmul nadd nneg nle].
    rewrite !andb_true_iff, !Qle_bool_iff.
    assert (X := fit_arith_x w bw k x (a0 + - pad) (Qlt_le_weak _ _ Hk0) Hkw).
    assert (Y := fit_arith_y h bh k y (b0 + - pad) (Qlt_le_weak _ _ Hk0) Hkh).
    destruct X as [X1 X2]; [unfold bw; lra|].
    destruct Y as [Y1 Y2]; [unfold bh; lra|].
    repeat split; assumption.
  - unfold b. rewrite Hcb. cbn [minX minY maxX maxY nsub nadd nneg].
    fold bw. fold bh. cbn [nmul num_eq]. exact Htight.
Qed.

Lemma fit_frames_the_store_witness :
  let s' := effectFit clickProps (setEntities [scenarioC_line] initialState) in
  let b := calculateBounds [scenarioC_line] in
  positive (scale s') /\ finitePoint (pan s') /\
  (forall r, In r (storePoints [scenarioC_line]) ->
             inBox (fitFrame 800 600) (worldToScreen (scale s') (pan s') r)) /\
  (((maxX b - minX b) * scale s' =n= Fin (800 * (9 # 10)))%num \/
   ((maxY b - minY b) * scale s' =n= Fin (600 * (9 # 10)))%num).
Proof.
  apply (fit_frames_the_store clickProps
           (setEntities [scenarioC_line] initialState) 800 600
           (qpoint 0 0) (qpoint 10 0)).
  - reflexivity.
  - reflexivity.
  - reflexivity.
  - reflexivity.
  - intros r [<-|[<-|[]]]; split; exact I.
  - simpl. auto.
  - simpl. auto.
  - intros [H _]. simpl in H. discriminate H.
Defined.

(* ================================================================== *)
(** ** Further properties: the frame *)
(* ================================================================== *)

(** A loop whose step is above zero ends: [n] turns are enough as soon
    as [n] steps from [x] reach the limit, and more fuel changes
    nothing. *)
Lemma forLoop_ends (limit step : Q) (body : num -> list CanvasOp) (n : nat) :
  0 < step ->
  forall (x : Q) (fuel : nat),
    limit - x <= inject_Z (Z.of_nat n) * step -> (n <= fuel)%nat ->
    forLoop fuel (Fin limit) (Fin step) body (Fin x)
    = forLoop n (Fin limit) (Fin step) body (Fin x) /\
    exists ops, forLoop n (Fin limit) (Fin step) body (Fin x) = Some ops.
Proof.
  intro Hstep. induction n as [|n IH]; intros x fuel Hreach Hfuel.
  - assert (E : (Fin x <? Fin limit)%num = false).
    { cbn [nlt]. apply Qltb_ge. change (inject_Z (Z.of_nat 0)) with 0 in Hreach.
      lra. }
    destruct fuel; cbn [forLoop]; rewrite E; eauto.
  - destruct fuel as [|fuel]; [inversion Hfuel|].
    cbn [forLoop]. destruct (Fin x <? Fin limit)%num; [|eauto].
    cbn [nadd].
    destruct (IH (x + step) fuel) as [E (ops & Hops)].
    + rewrite Nat2Z.inj_succ in Hreach. unfold Z.succ in Hreach.
      rewrite inject_Z_plus in Hreach. change (inject_Z 1) with 1 in Hreach.
      lra.
    + apply le_S_n. exact Hfuel.
    + rewrite E, Hops. eauto.
Qed.

(** Some number of steps above zero reaches any limit. *)
Lemma steps_reach (limit step : Q) :
  0 < step -> exists n, limit <= inject_Z (Z.of_nat n) * step.
Proof.
  intro Hstep. exists (Z.to_nat (Qceiling (limit / step))).
  assert (H1 := Qle_ceiling (limit / step)).
  assert (H2 : inject_Z (Qceiling (limit / step))
               <= inject_Z (Z.of_nat (Z.to_nat (Qceiling (limit / step))))).
  { rewrite <- Zle_Qle. destruct (Qceiling (limit / step)); simpl;
      try apply Z.le_refl; try (rewrite positive_nat_Z; apply Z.le_refl).
    apply Pos2Z.neg_is_nonpos. }
  assert (H3 : limit / step * step == limit) by (field; lra).
  assert (H4 : limit / step * step
               <= inject_Z (Z.of_nat (Z.to_nat (Qceiling (limit / step))))
                  * step)
    by (apply Qmult_le_compat_r; lra).
  apply (Qle_trans _ (limit / step * step)); [|exact H4].
  apply Qle_lteq. right. symmetry. exact H3.
Qed.

(** A loop that starts below its limit with a step that does not
    advance never ends. *)
Lemma forLoop_stuck (limit step : num) (body : num -> list CanvasOp)
                    (fuel : nat) :
  (Fin 0 <? limit)%num = true -> (step <=? Fin 0)%num = true ->
  forall x, (x <=? Fin 0)%num = true ->
  forLoop fuel limit step body x = None.
Proof.
  intros Hlim Hstep. induction fuel as [|fuel IH]; intros x Hx.
  - cbn [forLoop].
    destruct x as [x| | |], limit as [l| | |]; try discriminate;
      cbn [nlt nle] in *; try reflexivity.
    apply Qle_bool_iff in Hx. apply Qltb_lt in Hlim.
    assert (E : Qltb x l = true) by (apply Qltb_lt; lra). rewrite E.
    reflexivity.
  - cbn [forLoop].
    assert (E : (x <? limit)%num = true).
    { destruct x as [x| | |], limit as [l| | |]; try discriminate;
        cbn [nlt nle] in *; try reflexivity.
      apply Qle_bool_iff in Hx. apply Qltb_lt in Hlim.
      apply Qltb_lt. lra. }
    rewrite E. rewrite IH; [reflexivity|].
    destruct x as [x| | |], step as [st| | |]; try discriminate;
      cbn [nadd nle] in *; try reflexivity.
    apply Qle_bool_iff in Hx. apply Qle_bool_iff in Hstep.
    apply Qle_bool_iff. lra.
Qed.

Lemma step_not_advancing (sc : num) :
  (sc <=? Fin 0)%num = true -> (Fin 10 * sc <=? Fin 0)%num = true.
Proof.
  destruct sc as [k| | |]; try discriminate; [|reflexivity].
  cbn [nmul nle]. rewrite !Qle_bool_iff. intro H. lra.
Qed.

Lemma boundsStep_without_point (acc : Bounds) (entity : Entity) :
  entityPoints entity = [] -> boundsStep acc entity = acc.
Proof.
  unfold entityPoints, boundsStep.
  destruct (isLINE entity); [destruct (e_vertices entity) as [[v0 v1]|]|];
    try discriminate;
    (destruct (isTEXT entity); [destruct (e_position entity)|]);
    try discriminate; reflexivity.
Qed.

Lemma fold_boundsStep_without_point (es : list Entity) (acc : Bounds) :
  storePoints es = [] -> fold_left boundsStep es acc = acc.
Proof.
  unfold storePoints. induction es as [|e es IH]; intro H; [reflexivity|].
  simpl in H. apply app_eq_nil in H. destruct H as [He Hes].
  simpl. rewrite (boundsStep_without_point acc e He). apply IH. exact Hes.
Qed.

Lemma effectFit_entities (props : Props) (s : State) :
  entities (effectFit props s) = entities s.
Proof.
  unfold effectFit. destruct (entities s) eqn:E; [exact E|].
  destruct (fitTransform _ _ _). exact E.
Qed.

Section Frame.

Variable PI : num.
Variable measureText : string -> string -> num.

(** X20. A frame is drawn to its end when the scale is finite and above
    zero and the canvas has a finite width and height: some number of
    turns of the two loops of the grid is enough, and the frame is the
    same for any larger number. *)
Theorem renderCanvas_returns (props : Props) (s : State) (w h : Q) :
  width props = Fin w -> height props = Fin h -> positive (scale s) ->
  exists n ops, forall fuel,
      (n <= fuel)%nat -> renderCanvas PI measureText fuel props s = Some ops.
Proof.
  intros Hw Hh Hsc. destruct (positive_fin _ Hsc) as (k & Hk & Hk0).
  assert (Hstep : 0 < 10 * k) by lra.
  destruct (steps_reach w (10 * k) Hstep) as (n1 & Hn1).
  destruct (steps_reach h (10 * k) Hstep) as (n2 & Hn2).
  assert (P1 : 0 <= inject_Z (Z.of_nat n1) * (10 * k)).
  { apply Qmult_le_0_compat; [|lra].
    change 0 with (inject_Z 0). rewrite <- Zle_Qle. apply Nat2Z.is_nonneg. }
  assert (P2 : 0 <= inject_Z (Z.of_nat n2) * (10 * k)).
  { apply Qmult_le_0_compat; [|lra].
    change 0 with (inject_Z 0). rewrite <- Zle_Qle. apply Nat2Z.is_nonneg. }
  assert (S : inject_Z (Z.of_nat (n1 + n2)) * (10 * k)
              == inject_Z (Z.of_nat n1) * (10 * k)
                 + inject_Z (Z.of_nat n2) * (10 * k)).
  { rewrite Nat2Z.inj_add, inject_Z_plus. ring. }
  assert (R1 : w - 0 <= inject_Z (Z.of_nat (n1 + n2)) * (10 * k))
    by (rewrite S; lra).
  assert (R2 : h - 0 <= inject_Z (Z.of_nat (n1 + n2)) * (10 * k))
    by (rewrite S; lra).
  exists (n1 + n2)%nat.
  assert (Hsame : forall fuel, (n1 + n2 <= fuel)%nat ->
            renderCanvas PI measureText fuel props s
            = renderCanvas PI measureText (n1 + n2) props s).
  { intros fuel Hfuel. unfold renderCanvas.
    destruct (entities s) as [|e es]; [reflexivity|].
    cbv zeta. rewrite Hw, Hh, Hk. cbn [nmul].
    repeat match goal with
    | |- context [forLoop fuel (Fin ?l) (Fin (10 * k)) ?body (Fin 0)] =>
        rewrite (proj1 (forLoop_ends l (10 * k) body (n1 + n2) Hstep 0 fuel
                          ltac:(assumption) Hfuel))
    end.
    reflexivity. }
  assert (Hsome : exists ops,
            renderCanvas PI measureText (n1 + n2) props s = Some ops).
  { unfold renderCanvas. destruct (entities s) as [|e es]; [eauto|].
    cbv zeta. rewrite Hw, Hh, Hk. cbn [nmul].
    repeat match goal with
    | |- context [forLoop (n1 + n2) (Fin ?l) (Fin (10 * k)) ?body (Fin 0)] =>
        let ops := fresh "ops" in
        let E := fresh "E" in
        destruct (proj2 (forLoop_ends l (10 * k) body (n1 + n2) Hstep 0
                           (n1 + n2) ltac:(assumption) (Nat.le_refl _)))
          as (ops & E);
        rewrite E
    end.
    eauto. }
  destruct Hsome as (ops & Hops). exists ops. intros fuel Hfuel.
  rewrite (Hsame fuel Hfuel). exact Hops.
Qed.

(** X21. A frame is never drawn to its end when the store has an entity,
    the scale is zero or below, and the canvas has a width or a height
    above zero: a loop of the grid starts below its limit and its step
    [10 * scale] does not advance. *)
Theorem renderCanvas_never_returns (props : Props) (s : State) :
  entities s <> [] ->
  (scale s <=? Fin 0)%num = true ->
  (Fin 0 <? width props)%num = true \/ (Fin 0 <? height props)%num = true ->
  forall fuel, renderCanvas PI measureText fuel props s = None.
Proof.
  intros Hes Hsc Hlim fuel. unfold renderCanvas.
  destruct (entities s) as [|e es]; [contradiction Hes; reflexivity|].
  cbv zeta. assert (Hstep := step_not_advancing _ Hsc).
  destruct Hlim as [Hl | Hl].
  - rewrite (forLoop_stuck (width props) _ _ fuel Hl Hstep (Fin 0) eq_refl).
    reflexivity.
  - rewrite (forLoop_stuck (height props) _ _ fuel Hl Hstep (Fin 0) eq_refl).
    destruct (forLoop fuel (width props) _ _ _); reflexivity.
Qed.

(** X22. A store that has entities but neither a line with end points
    nor a text with a position stops the viewer: the fit effect divides
    the width and the height of the canvas by an infinite extent, sets
    the scale to zero, and no frame is drawn to its end after that. *)
Theorem store_without_points_stops_the_frame
        (props : Props) (s : State) (w h : Q) :
  entities s <> [] -> storePoints (entities s) = [] ->
  width props = Fin w -> height props = Fin h -> 0 < w \/ 0 < h ->
  let s' := effectFit props s in
  fitDivisors (entities s) = (NInf, NInf) /\
  scale s' =n= Fin 0 /\
  forall fuel, renderCanvas PI measureText fuel props s' = None.
Proof.
  intros Hes Hpts Hw Hh Hpos s'.
  assert (Hb : calculateBounds (entities s) = mkBounds PInf PInf NInf NInf).
  { unfold calculateBounds. destruct (entities s) as [|e es] eqn:E;
      [contradiction Hes; reflexivity|].
    rewrite (fold_boundsStep_without_point _ _ Hpts). reflexivity. }
  assert (Hscale : scale s' = Fin (0 * (9 # 10))).
  { unfold s', effectFit, fitTransform. rewrite Hb, Hw, Hh.
    destruct (entities s) as [|e es]; [contradiction Hes; reflexivity|].
    reflexivity. }
  split; [unfold fitDivisors; rewrite Hb; reflexivity|].
  split; [rewrite Hscale; reflexivity|].
  assert (He : entities s' = entities s) by apply effectFit_entities.
  intro fuel. unfold renderCanvas. rewrite He.
  destruct (entities s) as [|e es] eqn:E; [contradiction Hes; reflexivity|].
  cbv zeta. rewrite Hscale, Hw, Hh.
  assert (Hstep : (Fin 10 * Fin (0 * (9 # 10)) <=? Fin 0)%num = true)
    by reflexivity.
  destruct Hpos as [Hl | Hl].
  - rewrite (forLoop_stuck (Fin w) _ _ fuel (proj2 (Qltb_lt 0 w) Hl) Hstep
               (Fin 0) eq_refl).
    reflexivity.
  - rewrite (forLoop_stuck (Fin h) _ _ fuel (proj2 (Qltb_lt 0 h) Hl) Hstep
               (Fin 0) eq_refl).
    destruct (forLoop fuel (Fin w) _ _ _); reflexivity.
Qed.

End Frame.

Lemma renderCanvas_returns_witness :
  exists n ops, forall fuel,
      (n <= fuel)%nat ->
      renderCanvas samplePI sampleMeasure fuel clickProps scenarioC_state
      = Some ops.
Proof.
  apply (renderCanvas_returns samplePI sampleMeasure clickProps
           scenarioC_state 800 600).
  - reflexivity.
  - reflexivity.
  - reflexivity.
Defined.

Lemma renderCanvas_never_returns_witness :
  entities (setScale (Fin 0) scenarioC_state) <> [] /\
  forall fuel,
    renderCanvas samplePI sampleMeasure fuel clickProps
                 (setScale (Fin 0) scenarioC_state) = None.
Proof.
  split; [discriminate|].
  apply (renderCanvas_never_returns samplePI sampleMeasure clickProps
           (setScale (Fin 0) scenarioC_state)).
  - discriminate.
  - reflexivity.
  - left. reflexivity.
Defined.

Lemma store_without_points_stops_the_frame_witness :
  let s' := effectFit clickProps (setEntities [circle] initialState) in
  fitDivisors [circle] = (NInf, NInf) /\
  scale s' =n= Fin 0 /\
  forall fuel, renderCanvas samplePI sampleMeasure fuel clickProps s' = None.
Proof.
  apply (store_without_points_stops_the_frame samplePI sampleMeasure
           clickProps (setEntities [circle] initialState) 800 600).
  - discriminate.
  - reflexivity.
  - reflexivity.
  - reflexivity.
  - left. reflexivity.
Defined.

(* ================================================================== *)
(** ** Further properties: the selection effect and the highlight *)
(* ================================================================== *)

Lemma boundsStep_markSelected (sel : list string) (acc : Bounds)
                              (entity : Entity) :
  boundsStep acc (markSelected sel entity) = boundsStep acc entity.
Proof. reflexivity. Qed.

Lemma fold_boundsStep_markSelected (sel : list string) (es : list Entity)
                                   (acc : Bounds) :
  fold_left boundsStep (map (markSelected sel) es) acc
  = fold_left boundsStep es acc.
Proof.
  revert acc. induction es as [|e es IH]; intro acc; [reflexivity|].
  simpl. rewrite boundsStep_markSelected. apply IH.
Qed.

Lemma calculateBounds_markSelected (sel : list string) (es : list Entity) :
  calculateBounds (map (markSelected sel) es) = calculateBounds es.
Proof.
  destruct es as [|e es]; [reflexivity|].
  unfold calculateBounds.
  change (map (markSelected sel) (e :: es))
    with (markSelected sel e :: map (markSelected sel) es).
  cbv beta iota zeta.
  change (markSelected sel e :: map (markSelected sel) es)
    with (map (markSelected sel) (e :: es)).
  rewrite fold_boundsStep_markSelected. reflexivity.
Qed.

(** X23. The selection effect writes the flags and nothing else: after
    it the store holds the same entities in the same order, each with
    its id, type, geometry and text, flagged as selected exactly when
    its id is in the selection; a second run changes nothing; and the
    fit effect computes the same scale and pan after it as before. *)
Theorem selection_effect_sets_flags_only (props : Props) (s : State) :
  let s' := effectSelection s in
  Forall2 (fun e e' =>
             e_id e' = e_id e /\ e_type e' = e_type e /\
             e_vertices e' = e_vertices e /\ e_position e' = e_position e /\
             e_text e' = e_text e /\
             (isSelected e' = true <-> In (e_id e) (selectedEntityIds s)))
          (entities s) (entities s') /\
  effectSelection s' = s' /\
  scale (effectFit props s') = scale (effectFit props s) /\
  pan (effectFit props s') = pan (effectFit props s).
Proof.
  intro s'. unfold s', effectSelection.
  cbn [entities setEntities selectedEntityIds].
  split; [|split].
  - apply Forall2_map_right. intro e.
    unfold markSelected, isSelected. cbn [e_id e_type e_vertices e_position
                                          e_text e_selected].
    repeat split; try reflexivity.
    + intro H. apply includes_In.
      destruct (includes (selectedEntityIds s) (e_id e));
        [reflexivity | discriminate H].
    + intro H. apply includes_In in H. rewrite H. reflexivity.
  - unfold setEntities.
    cbn [scale pan isDragging dragStart entities selectedEntityIds
         isMovingSelection selectionStart selectionBox mode isShiftPressed
         reported].
    f_equal. rewrite map_map. apply map_ext. intro e. reflexivity.
  - unfold effectFit, fitTransform. cbn [entities setEntities].
    rewrite calculateBounds_markSelected.
    destruct (entities s) as [|e es]; split; reflexivity.
Qed.

Lemma isTEXT_not_LINE {I} (e : EntityOf I) :
  isTEXT e = true -> isLINE e = false.
Proof.
  intro H. destruct (isLINE e) eqn:E; [|reflexivity].
  rewrite (isLINE_not_TEXT e E) in H. discriminate H.
Qed.

Section Highlight.

Variable PI : num.
Variable measureText : string -> string -> num.

(** X24. The rectangle stroked around a selected text and the box in
    which the text is picked are not the same pixels: with [(ax, ay)]
    the screen position of the anchor, the rectangle spans the rows
    [ay - 12 .. ay + 4] from the column [ax - 2] on, while the entity is
    picked in the rows [ay - 2 .. ay + 14]; a pointer in the rectangle
    more than 2 pixels above the anchor picks nothing, and a pointer up
    to 14 pixels below the anchor picks the text. *)
Theorem text_highlight_and_pick_box (entity : Entity)
                                    (sc panx pany tx ty : Q) :
  0 < sc -> isTEXT entity = true ->
  e_position entity = Some (qpoint tx ty) ->
  let ax := tx * sc + panx in
  let ay := - ty * sc + pany in
  let pointer := screenToWorld (Fin sc) (qpoint panx pany) in
  (exists rx ry rh,
      In (StrokeRect rx ry
            (measureText "bold 12px Arial" (textOf entity) + Fin 4)%num rh)
         (drawEntity PI measureText (Fin sc) (qpoint panx pany) true entity) /\
      rx =n= Fin (ax - 2) /\ ry =n= Fin (ay - 12) /\ rh =n= Fin 16) /\
  (forall x y, y < ay - 2 ->
               entityHit (Fin sc) (pointer (Fin x) (Fin y)) entity = false) /\
  (forall x y, ax - 2 <= x <= ax + textChars entity * 8 + 2 ->
               ay - 2 <= y <= ay + 14 ->
               entityHit (Fin sc) (pointer (Fin x) (Fin y)) entity = true).
Proof.
  intros Hsc HT Hpos ax ay pointer.
  assert (HL := isTEXT_not_LINE entity HT).
  assert (Hne : ~ sc == 0) by (intro E; rewrite E in Hsc; discriminate).
  assert (Hrow : forall y,
             - ((y + - pany) / sc) <= ty + 2 / sc <-> ay - 2 <= y).
  { intro y. rewrite (Qle_scale _ _ sc Hsc).
    setoid_replace ((ty + 2 / sc) * sc) with (ty * sc + 2)
      by (field; exact Hne).
    setoid_replace (- ((y + - pany) / sc) * sc) with (pany - y)
      by (field; exact Hne).
    unfold ay. split; intro; lra. }
  assert (Hrow' : forall y,
             ty - 14 / sc <= - ((y + - pany) / sc) <-> y <= ay + 14).
  { intro y. rewrite (Qle_scale _ _ sc Hsc).
    setoid_replace ((ty - 14 / sc) * sc) with (ty * sc - 14)
      by (field; exact Hne).
    setoid_replace (- ((y + - pany) / sc) * sc) with (pany - y)
      by (field; exact Hne).
    unfold ay. split; intro; lra. }
  assert (Hcol : forall x, tx - 2 / sc <= (x + - panx) / sc <-> ax - 2 <= x).
  { intro x. rewrite (Qle_scale _ _ sc Hsc).
    setoid_replace ((tx - 2 / sc) * sc) with (tx * sc - 2)
      by (field; exact Hne).
    setoid_replace ((x + - panx) / sc * sc) with (x - panx)
      by (field; exact Hne).
    unfold ax. split; intro; lra. }
  assert (Hcol' : forall x,
             (x + - panx) / sc <= tx + textChars entity * 8 / sc + 2 / sc
             <-> x <= ax + textChars entity * 8 + 2).
  { intro x. rewrite (Qle_scale _ _ sc Hsc).
    setoid_replace ((tx + textChars entity * 8 / sc + 2 / sc) * sc)
      with (tx * sc + textChars entity * 8 + 2) by (field; exact Hne).
    setoid_replace ((x + - panx) / sc * sc) with (x - panx)
      by (field; exact Hne).
    unfold ax. split; intro; lra. }
  split; [|split].
  - unfold drawEntity, drawText. rewrite HL, HT, Hpos.
    destruct (orZero_fin tx) as (tx' & Etx & Hx).
    destruct (orZero_fin ty) as (ty' & Ety & Hy).
    qpoint_coords. rewrite Etx, Ety.
    cbn [fst snd nmul nadd nsub nneg app].
    eexists _, _, _. split.
    + right. right. right. right. right. left. reflexivity.
    + cbn [num_eq]. unfold ax, ay. rewrite Hx, Hy.
      repeat split; ring.
  - intros x y Hy. unfold entityHit, pointer. rewrite HL, HT, Hpos.
    cbn [orb]. rewrite screenToWorld_fin by exact Hsc.
    destruct (textHit _ _ _ _) eqn:E; [|reflexivity].
    apply textHit_iff in E; [|exact Hsc].
    destruct E as [_ [_ E]]. apply Hrow in E. lra.
  - intros x y Hx Hy. unfold entityHit, pointer. rewrite HL, HT, Hpos.
    cbn [orb]. rewrite screenToWorld_fin by exact Hsc.
    apply textHit_iff; [exact Hsc|].
    repeat split; [apply Hcol | apply Hcol' | apply Hrow' | apply Hrow]; lra.
Qed.

End Highlight.

Lemma text_highlight_and_pick_box_witness :
  let pointer := screenToWorld (Fin 2) (qpoint 400 300) in
  (exists rx ry rh,
      In (StrokeRect rx ry
            (sampleMeasure "bold 12px Arial" (textOf textAB) + Fin 4)%num rh)
         (drawEntity samplePI sampleMeasure (Fin 2) (qpoint 400 300) true
                     textAB) /\
      rx =n= Fin (0 * 2 + 400 - 2) /\ ry =n= Fin (- 0 * 2 + 300 - 12) /\
      rh =n= Fin 16) /\
  (forall x y, y < - 0 * 2 + 300 - 2 ->
               entityHit (Fin 2) (pointer (Fin x) (Fin y)) textAB = false) /\
  (forall x y, 0 * 2 + 400 - 2 <= x <= 0 * 2 + 400 + textChars textAB * 8 + 2 ->
               - 0 * 2 + 300 - 2 <= y <= - 0 * 2 + 300 + 14 ->
               entityHit (Fin 2) (pointer (Fin x) (Fin y)) textAB = true).
Proof.
  apply (text_highlight_and_pick_box samplePI sampleMeasure textAB
           2 400 300 0 0).
  - reflexivity.
  - reflexivity.
  - reflexivity.
Defined.

(* ================================================================== *)
(** ** Further properties: the text replacement of the editor *)
(* ================================================================== *)

Section TextReplacementFacts.

Local Open Scope nat_scope.
Local Open Scope string_scope.

Lemma substring_halves (s : string) (k : nat) :
  String.substring 0 k s ++ String.substring k (String.length s - k) s = s.
Proof.
  revert k. induction s as [|c s IH]; intros [|k]; simpl; try reflexivity.
  - f_equal. specialize (IH 0). simpl in IH. rewrite Nat.sub_0_r in IH.
    destruct s; simpl in *; [reflexivity|]. exact IH.
  - f_equal. apply IH.
Qed.

Lemma substring_split (s p : string) (m : nat) :
  String.substring m (String.length p) s = p ->
  s = String.substring 0 m s ++ p
      ++ String.substring (m + String.length p)
           (String.length s - (m + String.length p)) s.
Proof.
  revert m. induction s as [|c s IH]; intros m H.
  - destruct m; simpl in *.
    + destruct (String.length p) eqn:E; subst p; reflexivity.
    + subst p. reflexivity.
  - destruct m as [|m].
    + assert (X := substring_halves (String c s) (String.length p)).
      rewrite H in X. symmetry. exact X.
    + simpl in H. cbn [plus]. simpl. f_equal. apply IH. exact H.
Qed.

Lemma substring_skip (a s : string) (m k : nat) :
  String.substring (String.length a + m) k (a ++ s) = String.substring m k s.
Proof. induction a as [|c a IH]; simpl; [reflexivity | exact IH]. Qed.

Lemma index_found (p s : string) (m : nat) :
  p <> "" -> String.substring m (String.length p) s = p ->
  strIncludes s p = true.
Proof.
  intros Hp H. unfold strIncludes.
  destruct (String.index 0 p s) eqn:E; [reflexivity|].
  exfalso. apply (index_correct3 0 m p s E Hp (Nat.le_0_l m)). exact H.
Qed.

Lemma getSubstitution_plain (matched before after template : string) :
  hasDollar template = false ->
  getSubstitution matched before after template = template.
Proof.
  induction template as [|a rest IH]; [reflexivity|].
  cbn [hasDollar getSubstitution]. intro H. apply orb_false_iff in H.
  destruct H as [H1 H2]. rewrite H1. f_equal. apply IH. exact H2.
Qed.

(** What [s.replace(pat, replacement)] does when [s] includes [pat]. *)
Lemma strReplace_spec (s pat : string) :
  strIncludes s pat = true ->
  exists before after,
    s = before ++ pat ++ after /\
    (forall k, k < String.length before ->
               String.substring k (String.length pat) s <> pat) /\
    forall replacement,
      strReplace s pat replacement
      = before ++ getSubstitution pat before after replacement ++ after.
Proof.
  unfold strIncludes, strReplace. destruct (String.index 0 pat s) as [pos|] eqn:E;
    [intros _ | discriminate].
  cbv zeta.
  set (before := String.substring 0 pos s).
  set (after := String.substring (pos + String.length pat)
                  (String.length s - (pos + String.length pat)) s).
  exists before, after.
  assert (Hs : s = before ++ pat ++ after)
    by (apply substring_split; apply (index_correct1 0); exact E).
  split; [exact Hs|]. split; [|reflexivity].
  intros k Hk. apply (index_correct2 0 pos pat s E k (Nat.le_0_l k)).
  assert (Hlen : String.length before <= pos).
  { unfold before. clear. revert pos. induction s as [|c s IH]; intros [|pos];
      simpl; try lia. specialize (IH pos). lia. }
  lia.
Qed.

Lemma sappend_nil_r (a : string) : a ++ "" = a.
Proof. induction a as [|x a IH]; simpl; [reflexivity | f_equal; exact IH]. Qed.

Lemma sappend_assoc (a b c : string) : (a ++ b) ++ c = a ++ b ++ c.
Proof. induction a as [|x a IH]; simpl; [reflexivity | f_equal; exact IH]. Qed.

Lemma strIncludes_suffix (a s p : string) :
  p <> "" -> strIncludes s p = true -> strIncludes (a ++ s) p = true.
Proof.
  intros Hp H. unfold strIncludes in H.
  destruct (String.index 0 p s) as [m|] eqn:E; [|discriminate H].
  apply (index_found p (a ++ s) (String.length a + m) Hp).
  rewrite substring_skip. apply (index_correct1 0). exact E.
Qed.

Lemma strIncludes_nonempty (text p : string) :
  p <> "" -> strIncludes text p = true -> String.eqb text "" = false.
Proof.
  intros Hp H. destruct text; [|reflexivity].
  destruct p; [contradiction Hp; reflexivity | discriminate H].
Qed.

Lemma replaceInEntity_hit {A} (placeholder newText text : string)
                          (entity : ParsedEntity A) :
  isTextual entity = true -> pe_text entity = Some text ->
  placeholder <> "" -> strIncludes text placeholder = true ->
  replaceInEntity placeholder newText entity
  = mkParsed (pe_type entity) (Some (strReplace text placeholder newText))
             (pe_other entity).
Proof.
  intros HT Htext Hp Hinc. unfold replaceInEntity.
  rewrite Htext, HT, Hinc, (strIncludes_nonempty text placeholder Hp Hinc).
  reflexivity.
Qed.

(** X25. The replacement of the editor replaces the first occurrence of
    the placeholder and no other: in a [TEXT] or [MTEXT] entity whose
    text includes the placeholder, the text up to the first occurrence
    and the text after it are kept as they are, a new text without a
    dollar sign stands between them, and a placeholder that occurs in
    the text after the first occurrence is still there afterwards. *)
Theorem replaceText_replaces_first_occurrence
        {A} (entity : ParsedEntity A) (placeholder newText text : string) :
  isTextual entity = true -> pe_text entity = Some text ->
  placeholder <> "" -> strIncludes text placeholder = true ->
  hasDollar newText = false ->
  exists before after,
    text = before ++ placeholder ++ after /\
    (forall k, k < String.length before ->
               String.substring k (String.length placeholder) text
               <> placeholder) /\
    replaceInEntity placeholder newText entity
    = mkParsed (pe_type entity) (Some (before ++ newText ++ after))
               (pe_other entity) /\
    (strIncludes after placeholder = true ->
     strIncludes (before ++ newText ++ after) placeholder = true).
Proof.
  intros HT Htext Hp Hinc Hplain.
  destruct (strReplace_spec text placeholder Hinc)
    as (before & after & Hsplit & Hfirst & Hrep).
  exists before, after. split; [exact Hsplit|]. split; [exact Hfirst|].
  specialize (Hrep newText).
  rewrite getSubstitution_plain in Hrep by exact Hplain.
  split.
  - rewrite (replaceInEntity_hit placeholder newText text entity HT Htext
               Hp Hinc).
    rewrite Hrep. reflexivity.
  - intro Hafter. rewrite <- sappend_assoc.
    apply strIncludes_suffix; assumption.
Qed.

Ltac unchanged :=
  split; [reflexivity | split; [reflexivity |]];
  let Hne := fresh "Hne" in intro Hne; contradiction Hne; reflexivity.

(** X26. The replacement of the editor changes texts and nothing else:
    it keeps the entities in number and order, each with its type and
    its other fields, and an entity is changed only when the placeholder
    is not empty, the entity is a [TEXT] or an [MTEXT], and its text
    includes the placeholder. *)
Theorem replaceText_changes_texts_only
        {A H} (placeholder newText : string) (dxf : ParsedDxf A H) :
  exists dxf',
    replaceText placeholder newText (Some dxf) = Some dxf' /\
    dxf_other dxf' = dxf_other dxf /\
    match dxf_entities dxf, dxf_entities dxf' with
    | None, None => True
    | Some es, Some es' =>
        Forall2 (fun e e' =>
                   pe_type e' = pe_type e /\ pe_other e' = pe_other e /\
                   (e' <> e ->
                    isTextual e = true /\ placeholder <> "" /\
                    exists text, pe_text e = Some text /\
                                 strIncludes text placeholder = true))
                es es'
    | _, _ => False
    end.
Proof.
  unfold replaceText. destruct (String.eqb placeholder "") eqn:Ep.
  - exists dxf. split; [reflexivity|]. split; [reflexivity|].
    destruct (dxf_entities dxf) as [es|]; [|exact I].
    induction es as [|e es IH]; constructor; [unchanged | exact IH].
  - eexists. split; [reflexivity|]. cbn [dxf_other dxf_entities].
    split; [reflexivity|].
    destruct (dxf_entities dxf) as [es|]; [|exact I]. cbn [option_map].
    apply String.eqb_neq in Ep.
    induction es as [|e es IH]; cbn [map]; constructor; [|exact IH].
    unfold replaceInEntity.
    destruct (pe_text e) as [text|] eqn:Et; [|unchanged].
    destruct (isTextual e) eqn:HT; cbn [andb]; [|unchanged].
    destruct (negb (String.eqb text "")); cbn [andb]; [|unchanged].
    destruct (strIncludes text placeholder) eqn:Hinc; [|unchanged].
    cbn [pe_type pe_other].
    split; [reflexivity|]. split; [reflexivity|]. intros _.
    split; [reflexivity|]. split; [exact Ep|].
    exists text. split; [reflexivity | exact Hinc].
Qed.

(** X27. A dollar sign in the new text is not always inserted as typed:
    for a [TEXT] or [MTEXT] entity whose text includes the placeholder,
    the new text [$&] leaves the entity as it is, [$$] inserts one
    dollar sign, [$`] inserts the text before the placeholder and [$']
    the text after it, while a dollar sign before any other character,
    as in [$1], is inserted as typed. *)
Theorem replaceText_dollar_patterns
        {A} (entity : ParsedEntity A) (placeholder text : string) :
  isTextual entity = true -> pe_text entity = Some text ->
  placeholder <> "" -> strIncludes text placeholder = true ->
  replaceInEntity placeholder "$&" entity = entity /\
  exists before after,
    text = before ++ placeholder ++ after /\
    pe_text (replaceInEntity placeholder "$$" entity)
    = Some (before ++ "$" ++ after) /\
    pe_text (replaceInEntity placeholder "$`" entity)
    = Some (before ++ before ++ after) /\
    pe_text (replaceInEntity placeholder "$'" entity)
    = Some (before ++ after ++ after) /\
    pe_text (replaceInEntity placeholder "$1" entity)
    = Some (before ++ "$1" ++ after).
Proof.
  intros HT Htext Hp Hinc.
  destruct (strReplace_spec text placeholder Hinc)
    as (before & after & Hsplit & _ & Hrep).
  assert (Hhit := fun newText =>
            replaceInEntity_hit placeholder newText text entity HT Htext
                                Hp Hinc).
  split.
  - rewrite Hhit, Hrep. cbn [getSubstitution Ascii.eqb Bool.eqb].
    rewrite sappend_nil_r, <- Hsplit.
    destruct entity as [ty tx ot]. cbn [pe_type pe_text pe_other] in *.
    rewrite Htext. reflexivity.
  - exists before, after. split; [exact Hsplit|].
    rewrite !Hhit, !Hrep. cbn [pe_text getSubstitution Ascii.eqb Bool.eqb].
    rewrite !sappend_nil_r. repeat split; reflexivity.
Qed.

End TextReplacementFacts.

Lemma replaceText_replaces_first_occurrence_witness :
  exists before after,
    "Dear NAME, NAME"%string = (before ++ "NAME" ++ after)%string /\
    (forall k, (k < String.length before)%nat ->
               String.substring k (String.length "NAME") "Dear NAME, NAME"
               <> "NAME"%string) /\
    replaceInEntity "NAME" "Ada" greeting
    = mkParsed (pe_type greeting) (Some (before ++ "Ada" ++ after)%string)
               (pe_other greeting) /\
    (strIncludes after "NAME" = true ->
     strIncludes (before ++ "Ada" ++ after) "NAME" = true).
Proof.
  apply (replaceText_replaces_first_occurrence greeting "NAME" "Ada"
           "Dear NAME, NAME").
  - reflexivity.
  - reflexivity.
  - discriminate.
  - reflexivity.
  - reflexivity.
Defined.

Lemma replaceText_dollar_patterns_witness :
  replaceInEntity "NAME" "$&" greeting = greeting /\
  exists before after,
    "Dear NAME, NAME"%string = (before ++ "NAME" ++ after)%string /\
    pe_text (replaceInEntity "NAME" "$$" greeting)
    = Some (before ++ "$" ++ after)%string /\
    pe_text (replaceInEntity "NAME" "$`" greeting)
    = Some (before ++ before ++ after)%string /\
    pe_text (replaceInEntity "NAME" "$'" greeting)
    = Some (before ++ after ++ after)%string /\
    pe_text (replaceInEntity "NAME" "$1" greeting)
    = Some (before ++ "$1" ++ after)%string.
Proof.
  apply (replaceText_dollar_patterns greeting "NAME" "Dear NAME, NAME").
  - reflexivity.
  - reflexivity.
  - discriminate.
  - reflexivity.
Defined.
